(** * tyssue: a vertex model of a cellular sheet

    A shallow embedding of the geometry engine
    ([tyssue/geometry/sheet_geometry.py]), of the mechanical model
    ([tyssue/dynamics/sheet_vertex_model.py], [sheet_gradients.py]) and of
    the topology engine ([tyssue/topology/sheet_topology.py]).

    Modelling conventions.
    - A pandas [DataFrame] is a record of columns (lists); the row labels
      are the positions [0 .. n-1], which is what [append(...,
      ignore_index=True)] produces.  [df.loc[i, c]] is [c df !! i] and
      [df.loc[i, c] = v] is [<[i:=v]> (c df)].
    - Floating point numbers are idealised as real numbers.  [nan] has no
      counterpart: an empty group sums to [0] and its mean is [0 / 0],
      which is [0] in [R].
    - The coordinates are [sheet.coords = ['x', 'y', 'z']]; a group of
      three coordinate columns is one column of vectors.
    - The dynamics module still calls the three tables [cell_df], [je_df]
      and [jv_df]; they are the tables [face_df], [edge_df] and [vert_df]
      of the other modules.  A call keeps the number of arguments the
      source passes: [call] compares it with the number of parameters of
      the function called.
    - Python exceptions are values of [exn]; a function that reads the
      sheet returns a [res], one that mutates it runs in the monad [M],
      which threads the sheet and collects what is logged. *)

From Stdlib Require Import Reals Lra.
From stdpp Require Import base option list gmap strings pretty.

Open Scope R_scope.

(** ** Vectors of [R^3] *)

Record vec : Type := mkV { vx : R; vy : R; vz : R }.

Inductive axis : Type := AxisX | AxisY | AxisZ.

Definition coord (a : axis) (p : vec) : R :=
  match a with AxisX => vx p | AxisY => vy p | AxisZ => vz p end.

Definition set_coord (a : axis) (r : R) (p : vec) : vec :=
  match a with
  | AxisX => mkV r (vy p) (vz p)
  | AxisY => mkV (vx p) r (vz p)
  | AxisZ => mkV (vx p) (vy p) r
  end.

Definition vzero : vec := mkV 0 0 0.
Definition vadd (p q : vec) : vec := mkV (vx p + vx q) (vy p + vy q) (vz p + vz q).
Definition vsub (p q : vec) : vec := mkV (vx p - vx q) (vy p - vy q) (vz p - vz q).
Definition vopp (p : vec) : vec := mkV (- vx p) (- vy p) (- vz p).
Definition vscale (k : R) (p : vec) : vec := mkV (k * vx p) (k * vy p) (k * vz p).
Definition vdiv (p : vec) (k : R) : vec := mkV (vx p / k) (vy p / k) (vz p / k).

(** [np.cross] *)
Definition cross (p q : vec) : vec :=
  mkV (vy p * vz q - vz p * vy q)
      (vz p * vx q - vx p * vz q)
      (vx p * vy q - vy p * vx q).

(** [np.linalg.norm(..., axis=1)] and [np.hypot] *)
Definition norm (p : vec) : R := sqrt (vx p * vx p + vy p * vy p + vz p * vz p).
Definition hypot (a b : R) : R := sqrt (a * a + b * b).

Definition fsum (l : list R) : R := foldr Rplus 0 l.
Definition vsum (l : list vec) : vec := foldr vadd vzero l.
Definition mean (l : list R) : R := fsum l / INR (length l).
Definition vmean (l : list vec) : vec := vdiv (vsum l) (INR (length l)).

(** ** The mesh store: three tables and the settings *)

Record VertDF : Type := mkVertDF {
  v_pos : list vec;          (* x, y, z *)
  v_rho : list R;
  v_height : list R;
  basal_shift : list R;
  left_tip : list R;
  right_tip : list R
}.

Record EdgeDF : Type := mkEdgeDF {
  srce : list nat;
  trgt : list nat;
  face : list nat;
  dcoords : list vec;        (* dx, dy, dz *)
  ncoords : list vec;        (* nx, ny, nz *)
  e_length : list R;         (* column 'length' *)
  sub_area : list R;
  sub_vol : list R;
  line_tension : list R
}.

Record FaceDF : Type := mkFaceDF {
  f_pos : list vec;          (* x, y, z: the centroid *)
  area : list R;
  perimeter : list R;
  vol : list R;
  f_height : list R;
  f_rho : list R;
  is_alive : list R;
  contractility : list R;
  vol_elasticity : list R;
  prefered_vol : list R
}.

Record Settings : Type := mkSettings {
  geometry : string;
  height_axis : axis;
  ab : R * R;
  nrj_norm_factor : R;
  grad_norm_factor : R
}.

Record Sheet : Type := mkSheet {
  vert_df : VertDF;
  edge_df : EdgeDF;
  face_df : FaceDF;
  settings : Settings
}.

Definition n_verts (s : Sheet) : nat := length (v_pos (vert_df s)).
Definition n_edges (s : Sheet) : nat := length (srce (edge_df s)).
Definition n_faces (s : Sheet) : nat := length (f_pos (face_df s)).

(** Assignment of a whole column, [df[c] = values]. *)

Definition set_v_rho (V : VertDF) (c : list R) : VertDF :=
  mkVertDF (v_pos V) c (v_height V) (basal_shift V) (left_tip V) (right_tip V).
Definition set_v_height (V : VertDF) (c : list R) : VertDF :=
  mkVertDF (v_pos V) (v_rho V) c (basal_shift V) (left_tip V) (right_tip V).
Definition set_v_pos (V : VertDF) (c : list vec) : VertDF :=
  mkVertDF c (v_rho V) (v_height V) (basal_shift V) (left_tip V) (right_tip V).

Definition set_srce (E : EdgeDF) (c : list nat) : EdgeDF :=
  mkEdgeDF c (trgt E) (face E) (dcoords E) (ncoords E) (e_length E)
           (sub_area E) (sub_vol E) (line_tension E).
Definition set_trgt (E : EdgeDF) (c : list nat) : EdgeDF :=
  mkEdgeDF (srce E) c (face E) (dcoords E) (ncoords E) (e_length E)
           (sub_area E) (sub_vol E) (line_tension E).
Definition set_face (E : EdgeDF) (c : list nat) : EdgeDF :=
  mkEdgeDF (srce E) (trgt E) c (dcoords E) (ncoords E) (e_length E)
           (sub_area E) (sub_vol E) (line_tension E).
Definition set_dcoords (E : EdgeDF) (c : list vec) : EdgeDF :=
  mkEdgeDF (srce E) (trgt E) (face E) c (ncoords E) (e_length E)
           (sub_area E) (sub_vol E) (line_tension E).
Definition set_ncoords (E : EdgeDF) (c : list vec) : EdgeDF :=
  mkEdgeDF (srce E) (trgt E) (face E) (dcoords E) c (e_length E)
           (sub_area E) (sub_vol E) (line_tension E).
Definition set_e_length (E : EdgeDF) (c : list R) : EdgeDF :=
  mkEdgeDF (srce E) (trgt E) (face E) (dcoords E) (ncoords E) c
           (sub_area E) (sub_vol E) (line_tension E).
Definition set_sub_area (E : EdgeDF) (c : list R) : EdgeDF :=
  mkEdgeDF (srce E) (trgt E) (face E) (dcoords E) (ncoords E) (e_length E)
           c (sub_vol E) (line_tension E).
Definition set_sub_vol (E : EdgeDF) (c : list R) : EdgeDF :=
  mkEdgeDF (srce E) (trgt E) (face E) (dcoords E) (ncoords E) (e_length E)
           (sub_area E) c (line_tension E).

Definition set_f_pos (F : FaceDF) (c : list vec) : FaceDF :=
  mkFaceDF c (area F) (perimeter F) (vol F) (f_height F) (f_rho F)
           (is_alive F) (contractility F) (vol_elasticity F) (prefered_vol F).
Definition set_area (F : FaceDF) (c : list R) : FaceDF :=
  mkFaceDF (f_pos F) c (perimeter F) (vol F) (f_height F) (f_rho F)
           (is_alive F) (contractility F) (vol_elasticity F) (prefered_vol F).
Definition set_perimeter (F : FaceDF) (c : list R) : FaceDF :=
  mkFaceDF (f_pos F) (area F) c (vol F) (f_height F) (f_rho F)
           (is_alive F) (contractility F) (vol_elasticity F) (prefered_vol F).
Definition set_vol (F : FaceDF) (c : list R) : FaceDF :=
  mkFaceDF (f_pos F) (area F) (perimeter F) c (f_height F) (f_rho F)
           (is_alive F) (contractility F) (vol_elasticity F) (prefered_vol F).
Definition set_f_height_rho (F : FaceDF) (h r : list R) : FaceDF :=
  mkFaceDF (f_pos F) (area F) (perimeter F) (vol F) h r
           (is_alive F) (contractility F) (vol_elasticity F) (prefered_vol F).

Definition with_vert_df (s : Sheet) (V : VertDF) : Sheet :=
  mkSheet V (edge_df s) (face_df s) (settings s).
Definition with_edge_df (s : Sheet) (E : EdgeDF) : Sheet :=
  mkSheet (vert_df s) E (face_df s) (settings s).
Definition with_face_df (s : Sheet) (F : FaceDF) : Sheet :=
  mkSheet (vert_df s) (edge_df s) F (settings s).

(** ** Exceptions, results and the monad of the mutating operations *)

Inductive exn : Type :=
  | KeyError | IndexError | AttributeError | UnboundLocalError | ValueError
  | TypeError.

Inductive res (A : Type) : Type :=
  | Ok (a : A)
  | Raise (e : exn).
Arguments Ok {A} a.
Arguments Raise {A} e.

#[global] Instance res_ret : MRet res := λ A a, Ok a.
#[global] Instance res_bind : MBind res := λ A B k r,
  match r with Ok a => k a | Raise e => Raise e end.

(** A lookup by label: a missing label is a [KeyError]. *)
Definition loc {A} (col : list A) (i : nat) : res A :=
  match col !! i with Some a => Ok a | None => Raise KeyError end.

(** The first label of a selection, [sel.index[0]]: an empty selection is
    an [IndexError]. *)
Definition index0 (sel : list nat) : res nat :=
  match sel with i :: _ => Ok i | [] => Raise IndexError end.

Record run (A : Type) : Type := Run {
  result : res A;
  final : Sheet;
  logged : list string
}.
Arguments Run {A} result final logged.
Arguments result {A} r.
Arguments final {A} r.
Arguments logged {A} r.

Definition M (A : Type) : Type := Sheet → run A.

#[global] Instance M_ret : MRet M := λ A a s, Run (Ok a) s [].
#[global] Instance M_bind : MBind M := λ A B k m s,
  match m s with
  | Run (Ok a) s' l =>
      match k a s' with Run r s'' l' => Run r s'' (l ++ l') end
  | Run (Raise e) s' l => Run (Raise e) s' l
  end.
Definition read {A} (f : Sheet → res A) : M A := λ s, Run (f s) s [].
Definition modify (f : Sheet → Sheet) : M unit := λ s, Run (Ok tt) (f s) [].
Definition warning (msg : string) : M unit := λ s, Run (Ok tt) s [msg].

(** ** Mesh store operations

    The class [Sheet] itself is not among the sources read here. *)

(** Modelled from the spec: the mesh store's upcast, which broadcasts a
    per-vertex or per-face column onto every edge referencing it; an edge
    that references a missing row makes it fail. *)
Definition upcast {A} (ids : list nat) (col : list A) : res (list A) :=
  match mapM (λ i, col !! i) ids with
  | Some l => Ok l
  | None => Raise KeyError
  end.
Definition upcast_srce {A} (s : Sheet) (col : list A) : res (list A) :=
  upcast (srce (edge_df s)) col.
Definition upcast_trgt {A} (s : Sheet) (col : list A) : res (list A) :=
  upcast (trgt (edge_df s)) col.
Definition upcast_face {A} (s : Sheet) (col : list A) : res (list A) :=
  upcast (face (edge_df s)) col.

(** The rows of [vals] whose key is [k], in stored order. *)
Definition group {A} (keys : list nat) (vals : list A) (k : nat) : list A :=
  (filter (λ kv, kv.1 = k) (zip keys vals)).*2.

(** Modelled from the spec: the mesh store's downcast [sum_face], the sum
    of an edge column grouped by face, one value per face. *)
Definition sum_face (s : Sheet) (col : list R) : list R :=
  map (λ f, fsum (group (face (edge_df s)) col f)) (seq 0 (n_faces s)).

(** [col.mean(level='face')] once the face has been added to the index. *)
Definition mean_face (s : Sheet) (col : list R) : list R :=
  map (λ f, mean (group (face (edge_df s)) col f)) (seq 0 (n_faces s)).

(** Modelled from the spec: [reset_topo], which rebuilds the
    coordinate-delta columns after a structural edit: the displacement
    of every edge, the position of its target minus that of its source.
    The order of the edges of a face is not cached here: the groups are
    read off the face column of the edge table, in stored order. *)
Definition reset_topo : M unit :=
  srce_pos ← read (λ s, upcast_srce s (v_pos (vert_df s)));
  trgt_pos ← read (λ s, upcast_trgt s (v_pos (vert_df s)));
  modify (λ s, with_edge_df s
    (set_dcoords (edge_df s) (zip_with vsub trgt_pos srce_pos))).

Definition get : M Sheet := λ s, Run (Ok s) s [].

#[global] Instance R_eq_dec : EqDecision R := Req_dec_T.

(** ** Geometry engine

    [SheetGeometry] extends [PlanarGeometry], which is not among the
    sources read here. *)

(** Modelled from the spec: [PlanarGeometry.update_dcoords], the edge
    displacement vectors, target position minus source position. *)
Definition update_dcoords : M unit :=
  srce_pos ← read (λ s, upcast_srce s (v_pos (vert_df s)));
  trgt_pos ← read (λ s, upcast_trgt s (v_pos (vert_df s)));
  modify (λ s, with_edge_df s
    (set_dcoords (edge_df s) (zip_with vsub trgt_pos srce_pos))).

(** Modelled from the spec: [PlanarGeometry.update_length], the edge
    lengths, the norms of the displacement vectors. *)
Definition update_length : M unit :=
  modify (λ s, with_edge_df s
    (set_e_length (edge_df s) (map norm (dcoords (edge_df s))))).

(** Modelled from the spec: [PlanarGeometry.update_centroid], the face
    centroids, the centre of mass of the face's vertices (the sources of
    its edges). *)
Definition update_centroid : M unit :=
  upcast_pos ← read (λ s, upcast_srce s (v_pos (vert_df s)));
  modify (λ s, with_face_df s
    (set_f_pos (face_df s)
       (map (λ f, vmean (group (face (edge_df s)) upcast_pos f))
            (seq 0 (n_faces s))))).

(** Modelled from the spec: [PlanarGeometry.update_perimeters], the sum
    of the edge lengths of each face. *)
Definition update_perimeters : M unit :=
  modify (λ s, with_face_df s
    (set_perimeter (face_df s) (sum_face s (e_length (edge_df s))))).

(** Modelled from the spec: [PlanarGeometry.dist_to_point], the Euclidean
    distance of a vertex to [point], whose components are listed in the
    order of [coords]. *)
Definition dist_to_point (p : vec) (point : R * R * R) (coords : axis * axis * axis) : R :=
  let '(p0, p1, p2) := point in
  let '(u, v, w) := coords in
  sqrt ((coord u p - p0) * (coord u p - p0)
        + (coord v p - p1) * (coord v p - p1)
        + (coord w p - p2) * (coord w p - p2)).

(** [u, v = (c for c in sheet.coords if c != w)] *)
Definition other_axes (w : axis) : axis * axis :=
  match w with AxisX => (AxisY, AxisZ) | AxisY => (AxisX, AxisZ) | AxisZ => (AxisX, AxisY) end.

(** [df.loc[mask, 'rho'] = values]: the rows of the mask take the new
    value, the others keep theirs. *)
Definition assign_where (flag : list R) (old new : list R) : list R :=
  zip_with (λ fl on, if bool_decide (fl = 1) then on.2 else on.1)
           flag (zip old new).

(** The column ['rho'] after the geometry dispatch of [update_height]. *)
Definition rho_column (st : Settings) (V : VertDF) : list R :=
  let w := height_axis st in
  let '(u, v) := other_axes w in
  if decide (geometry st = "cylindrical") then
    map (λ p, hypot (coord v p) (coord u p)) (v_pos V)
  else if decide (geometry st = "flat") then
    map (coord w) (v_pos V)
  else if decide (geometry st = "spherical") then
    map norm (v_pos V)
  else if decide (geometry st = "rod") then
    let '(a, b) := ab st in
    let w0 := b - a in
    let rho := map (λ p, hypot (coord u p) (coord v p)) (v_pos V) in
    let rho_l := assign_where (left_tip V) rho
      (map (λ p, dist_to_point p (0, 0, - w0) (u, v, w)) (v_pos V)) in
    assign_where (right_tip V) rho_l
      (map (λ p, dist_to_point p (0, 0, w0) (u, v, w)) (v_pos V))
  else v_rho V.

Definition update_height : M unit :=
  modify (λ s, with_vert_df s
    (set_v_rho (vert_df s) (rho_column (settings s) (vert_df s))));;
  modify (λ s, with_vert_df s
    (set_v_height (vert_df s)
       (zip_with Rminus (v_rho (vert_df s)) (basal_shift (vert_df s)))));;
  edge_height ← read (λ s, upcast_srce s (v_height (vert_df s)));
  edge_rho ← read (λ s, upcast_srce s (v_rho (vert_df s)));
  modify (λ s, with_face_df s
    (set_f_height_rho (face_df s)
       (mean_face s edge_height) (mean_face s edge_rho))).

Definition update_normals : M unit :=
  face_pos ← read (λ s, upcast_face s (f_pos (face_df s)));
  srce_pos ← read (λ s, upcast_srce s (v_pos (vert_df s)));
  modify (λ s, with_edge_df s
    (set_ncoords (edge_df s)
       (zip_with cross (zip_with vsub srce_pos face_pos)
                 (dcoords (edge_df s))))).

Definition update_areas : M unit :=
  modify (λ s, with_edge_df s
    (set_sub_area (edge_df s)
       (map (λ n, norm n / 2) (ncoords (edge_df s)))));;
  modify (λ s, with_face_df s
    (set_area (face_df s) (sum_face s (sub_area (edge_df s))))).

Definition update_vol : M unit :=
  edge_h ← read (λ s, upcast_srce s (v_height (vert_df s)));
  modify (λ s, with_edge_df s
    (set_sub_vol (edge_df s)
       (zip_with Rmult edge_h (sub_area (edge_df s)))));;
  modify (λ s, with_face_df s
    (set_vol (face_df s) (sum_face s (sub_vol (edge_df s))))).

Definition update_all : M unit :=
  update_dcoords;;
  update_length;;
  update_centroid;;
  update_height;;
  update_normals;;
  update_areas;;
  update_perimeters;;
  update_vol.


(** ** Mechanical model: gradients of the geometry ([sheet_gradients.py]) *)

(** Modelled from the spec: [length_grad], the per-edge gradient of the
    edge length with respect to the source vertex, [- dcoords / length];
    [sheet_gradients.py] is imported for it and does not define it. *)
Definition length_grad (s : Sheet) : list vec :=
  zip_with (λ d l, vopp (vdiv d l)) (dcoords (edge_df s)) (e_length (edge_df s)).

(** One row per vertex.  No branch assigns [r_to_rho] for ['rod'] or for
    an unknown geometry: the [return] then raises. *)
Definition height_grad (s : Sheet) : res (list vec) :=
  let V := vert_df s in
  if decide (geometry (settings s) = "cylindrical") then
    Ok (map (set_coord AxisZ 0) (zip_with vdiv (v_pos V) (v_rho V)))
  else if decide (geometry (settings s) = "flat") then
    Ok (map (λ p, set_coord AxisZ 1 (set_coord AxisY 0 (set_coord AxisX 0 p))) (v_pos V))
  else if decide (geometry (settings s) = "spherical") then
    Ok (zip_with vdiv (v_pos V) (v_rho V))
  else Raise UnboundLocalError.

Definition area_grad (s : Sheet) : res (list vec * list vec) :=
  let inv_area := map (λ a, 1 / (4 * a)) (sub_area (edge_df s)) in
  face_pos ← upcast_face s (f_pos (face_df s));
  srce_pos ← upcast_srce s (v_pos (vert_df s));
  trgt_pos ← upcast_trgt s (v_pos (vert_df s));
  let r_ak := zip_with vsub srce_pos face_pos in
  let r_aj := zip_with vsub trgt_pos face_pos in
  let grad_a_srce :=
    zip_with vscale inv_area (zip_with cross r_aj (ncoords (edge_df s))) in
  let grad_a_trgt :=
    zip_with vscale inv_area (zip_with cross (ncoords (edge_df s)) r_ak) in
  Ok (grad_a_srce, grad_a_trgt).

(** ** Mechanical model: energy and gradient ([sheet_vertex_model.py]) *)

Record ModSpecs : Type := mkModSpecs {
  spec_contractility : R;
  spec_vol_elasticity : R;
  spec_prefered_height : R;
  spec_prefered_area : R;
  spec_prefered_vol : R;
  spec_line_tension : R;
  spec_radial_tension : R;
  spec_grad_norm_factor : R;
  spec_nrj_norm_factor : R
}.

Definition get_default_mod_specs : ModSpecs :=
  mkModSpecs 0.04 1 10 24 0 0.12 0 1 1.

Definition dimentionalize (mod_specs : ModSpecs) : ModSpecs :=
  let Kv := spec_vol_elasticity mod_specs in
  let A0 := spec_prefered_area mod_specs in
  let h0 := spec_prefered_height mod_specs in
  let gamma := spec_contractility mod_specs in
  let lbda := spec_line_tension mod_specs in
  mkModSpecs
    (gamma * Kv * A0 * h0 ^ 2)
    Kv h0 A0
    (A0 * h0)
    (lbda * Kv * Rpower A0 1.5 * h0 ^ 2)
    (spec_radial_tension mod_specs)
    (Kv * Rpower A0 1.5 * h0 ^ 2)
    (Kv * (A0 * h0) ^ 2).

(** [element_df.eval('{K} * ({x} - {x0})')], column by column. *)
Definition elastic_force (x K x0 : list R) : list R :=
  zip_with (λ k xx, k * (xx.1 - xx.2)) K (zip x x0).

Definition elastic_energy (x K x0 : list R) : list R :=
  zip_with (λ k xx, 0.5 * k * (xx.1 - xx.2) ^ 2) K (zip x x0).

(** The values a Python function of this module hands back. *)
Inductive pyval : Type :=
  | Float (x : R)
  | Series (xs : list R)
  | Tuple3 (a b c : pyval).

(** [col == 1] and the selection [df[mask]] of the rows of a mask. *)
Definition eq1 (col : list R) : list bool := map (λ x, bool_decide (x = 1)) col.
Definition select {A} (mask : list bool) (col : list A) : list A :=
  (filter (λ mx, mx.1 = true) (zip mask col)).*2.

(** With [full_output] the three components are yielded one by one, each
    divided by the norm factor; [Tuple3] holds what is yielded. *)
Definition compute_energy (s : Sheet) (full_output : bool) : res pyval :=
  let F := face_df s in
  let E := edge_df s in
  let live := eq1 (is_alive F) in
  upcast_alive ← upcast_face s (is_alive F);
  let live_je := eq1 upcast_alive in
  let E_t := zip_with (λ lt l, lt * l / 2)
               (select live_je (line_tension E)) (select live_je (e_length E)) in
  let E_v := elastic_energy (select live (vol F))
               (select live (vol_elasticity F)) (select live (prefered_vol F)) in
  let E_c := zip_with (λ c p, 0.5 * c * p ^ 2)
               (select live (contractility F)) (select live (perimeter F)) in
  let N := nrj_norm_factor (settings s) in
  if full_output then
    Ok (Tuple3 (Series (map (λ e, e / N) E_t))
               (Series (map (λ e, e / N) E_c))
               (Series (map (λ e, e / N) E_v)))
  else
    Ok (Float ((fsum E_t + fsum (zip_with Rplus E_c E_v)) / N)).

Definition tension_grad (s : Sheet) (grad_lij : list vec) : res (list vec) :=
  live_je ← upcast_face s (is_alive (face_df s));
  Ok (zip_with (λ g c, vscale c g) grad_lij
        (zip_with Rmult (line_tension (edge_df s)) live_je)).

Definition contractile_grad (s : Sheet) (grad_lij : list vec) : res (list vec) :=
  let F := face_df s in
  let gamma_ := zip_with (λ c pa, c * pa.1 * pa.2)
                  (contractility F) (zip (perimeter F) (is_alive F)) in
  gamma ← upcast_face s gamma_;
  Ok (zip_with (λ g c, vscale c g) grad_lij gamma).

(** A call [f(a1, ..., an)] of a function defined with [params]
    parameters, none of which has a default value: unless [n = params]
    Python raises [TypeError], and the body does not run. *)
Definition call {A} (params n : nat) (body : res A) : res A :=
  if decide (n = params) then body else Raise TypeError.

(** [area_grad] and [height_grad] are defined with the one parameter
    [sheet] and called here with two arguments, [(sheet, coords)].
    [area * height_grad(sheet, coords)] multiplies an array with one row
    per edge by a frame with one row per vertex, row by row: the two must
    have the same shape. *)
Definition elastic_grad (s : Sheet) : res (list vec * list vec) :=
  let F := face_df s in
  let kv_v0_ := zip_with Rmult
                  (elastic_force (vol F) (vol_elasticity F) (prefered_vol F))
                  (is_alive F) in
  kv_v0 ← upcast_face s kv_v0_;
  je_h ← upcast_srce s (v_height (vert_df s));
  let area_ := sub_area (edge_df s) in
  '(grad_a_srce, grad_a_trgt) ← call 1 2 (area_grad s);
  h_grad ← call 1 2 (height_grad s);
  if decide (length area_ = length h_grad) then
    let grad_v_srce :=
      zip_with vscale kv_v0
        (zip_with vadd (zip_with vscale je_h grad_a_srce)
                       (zip_with vscale area_ h_grad)) in
    let grad_v_trgt :=
      zip_with vscale kv_v0 (zip_with vscale je_h grad_a_trgt) in
    Ok (grad_v_srce, grad_v_trgt)
  else Raise ValueError.

(** A frame of vectors indexed by vertex; [None] is a row of [nan], which
    is what the alignment of two frames leaves where only one of them has
    the label. *)
Abbreviation frame := (gmap nat (option vec)).

(** [df.sum(level=...)]: the rows are grouped by key and summed. *)
Definition sum_level (keys : list nat) (vals : list vec) : frame :=
  foldr (λ kv m, <[kv.1 := Some (vadd kv.2
                              (default vzero (mjoin (m !! kv.1))))]> m)
        ∅ (zip keys vals).

Definition frame_op (f : vec → vec → vec) (a b : frame) : frame :=
  merge (λ x y, match x, y with
                | Some (Some u), Some (Some v) => Some (Some (f u v))
                | None, None => None
                | _, _ => Some None
                end) a b.

Definition frame_map (f : vec → vec) (a : frame) : frame :=
  (λ row : option vec, f <$> row) <$> a.

Inductive grad_out : Type :=
  | Gradient (grad : frame)
  | Components (grad_t grad_c grad_v_srce grad_v_trgt : list vec).

(** The sum of the per-edge terms, before the division. *)
Definition grad_i (s : Sheet) (grad_t grad_c grad_v_srce grad_v_trgt : list vec) : frame :=
  let by_srce := sum_level (srce (edge_df s)) in
  let by_trgt := sum_level (trgt (edge_df s)) in
  frame_op vadd
    (frame_op vadd
       (frame_op vsub
          (frame_op vadd
             (frame_map (λ g, vdiv g 2)
                (frame_op vsub (by_srce grad_t) (by_trgt grad_t)))
             (by_srce grad_c))
          (by_trgt grad_c))
       (by_srce grad_v_srce))
    (by_trgt grad_v_trgt).

Definition compute_gradient (s : Sheet) (components : bool) : res grad_out :=
  let norm_factor := nrj_norm_factor (settings s) in
  let grad_lij := length_grad s in
  grad_t ← tension_grad s grad_lij;
  grad_c ← contractile_grad s grad_lij;
  '(grad_v_srce, grad_v_trgt) ← elastic_grad s;
  let g := grad_i s grad_t grad_c grad_v_srce grad_v_trgt in
  if components then Ok (Components grad_t grad_c grad_v_srce grad_v_trgt)
  else Ok (Gradient (frame_map (λ g, vdiv g norm_factor) g)).

(** ** Topology engine ([sheet_topology.py]) *)

#[global] Instance Rlt_decision (x y : R) : Decision (x < y) := Rlt_dec x y.

(** The labels of the rows selected by [(df[c1] == v1) & (df[c2] == v2)]
    and by [df[c] == v], in stored order. *)
Definition where2 (c1 : list nat) (v1 : nat) (c2 : list nat) (v2 : nat) : list nat :=
  filter (λ i, c1 !! i = Some v1 ∧ c2 !! i = Some v2) (seq 0 (length c1)).
Definition where1 (c : list nat) (v : nat) : list nat :=
  filter (λ i, c !! i = Some v) (seq 0 (length c)).

(** [edge_df.loc[e, 'face'] = f] and
    [edge_df.loc[e, ['srce', 'trgt', 'face']] = s, t, f] *)
Definition assign_face (E : EdgeDF) (e f : nat) : EdgeDF :=
  set_face E (<[e := f]> (face E)).
Definition assign_srce (E : EdgeDF) (e v : nat) : EdgeDF :=
  set_srce E (<[e := v]> (srce E)).
Definition assign_trgt (E : EdgeDF) (e v : nat) : EdgeDF :=
  set_trgt E (<[e := v]> (trgt E)).
Definition assign_ends (E : EdgeDF) (e : nat) (stf : nat * nat * nat) : EdgeDF :=
  assign_face (assign_trgt (assign_srce E e stf.1.1) e stf.1.2) e stf.2.
Definition assign_pos (V : VertDF) (v : nat) (p : vec) : VertDF :=
  set_v_pos V (<[v := p]> (v_pos V)).

Definition type1_transition (edge01 : nat) (epsilon : R) : M unit :=
  (* Grab the neighbours *)
  vert0 ← read (λ s, loc (srce (edge_df s)) edge01);
  vert1 ← read (λ s, loc (trgt (edge_df s)) edge01);
  cell_b ← read (λ s, loc (face (edge_df s)) edge01);
  edge10 ← read (λ s, index0
    (where2 (srce (edge_df s)) vert1 (trgt (edge_df s)) vert0));
  cell_d ← read (λ s, loc (face (edge_df s)) edge10);
  edge05 ← read (λ s, index0
    (where2 (srce (edge_df s)) vert0 (face (edge_df s)) cell_d));
  vert5 ← read (λ s, loc (trgt (edge_df s)) edge05);
  edge50 ← read (λ s, index0
    (where2 (srce (edge_df s)) vert5 (trgt (edge_df s)) vert0));
  cell_a ← read (λ s, loc (face (edge_df s)) edge50);
  edge13 ← read (λ s, index0
    (where2 (srce (edge_df s)) vert1 (face (edge_df s)) cell_b));
  vert3 ← read (λ s, loc (trgt (edge_df s)) edge13);
  edge31 ← read (λ s, index0
    (where2 (srce (edge_df s)) vert3 (trgt (edge_df s)) vert1));
  cell_c ← read (λ s, loc (face (edge_df s)) edge31);
  edge13 ← read (λ s, index0
    (where2 (srce (edge_df s)) vert1 (face (edge_df s)) cell_b));
  vert3 ← read (λ s, loc (trgt (edge_df s)) edge13);
  (* Perform the rearangements *)
  modify (λ s, with_edge_df s (assign_face (edge_df s) edge01 cell_c));;
  modify (λ s, with_edge_df s (assign_face (edge_df s) edge10 cell_a));;
  modify (λ s, with_edge_df s (assign_ends (edge_df s) edge13 (vert0, vert3, cell_b)));;
  modify (λ s, with_edge_df s (assign_ends (edge_df s) edge31 (vert3, vert0, cell_c)));;
  modify (λ s, with_edge_df s (assign_ends (edge_df s) edge50 (vert5, vert1, cell_a)));;
  modify (λ s, with_edge_df s (assign_ends (edge_df s) edge05 (vert1, vert5, cell_d)));;
  (* Displace the vertices *)
  pos0 ← read (λ s, loc (v_pos (vert_df s)) vert0);
  pos1 ← read (λ s, loc (v_pos (vert_df s)) vert1);
  let mean_pos := vdiv (vadd pos0 pos1) 2 in
  cell_b_pos ← read (λ s, loc (f_pos (face_df s)) cell_b);
  modify (λ s, with_vert_df s (assign_pos (vert_df s) vert0
    (vsub mean_pos (vscale epsilon (vsub mean_pos cell_b_pos)))));;
  cell_d_pos ← read (λ s, loc (f_pos (face_df s)) cell_d);
  modify (λ s, with_vert_df s (assign_pos (vert_df s) vert1
    (vsub mean_pos (vscale epsilon (vsub mean_pos cell_d_pos)))));;
  reset_topo.

(** Rows.  [df.loc[ids]] is the frame of the rows [ids], [df.mean()]
    the row of the column means, [df.append(row, ignore_index=True)] the
    frame with one more row, whose label [df.index[-1]] is the number of
    rows it had. *)
Definition vert_loc (V : VertDF) (ids : list nat) : res VertDF :=
  pos ← upcast ids (v_pos V);
  rho ← upcast ids (v_rho V);
  height ← upcast ids (v_height V);
  shift ← upcast ids (basal_shift V);
  ltip ← upcast ids (left_tip V);
  rtip ← upcast ids (right_tip V);
  Ok (mkVertDF pos rho height shift ltip rtip).

Definition vert_mean (V : VertDF) : VertDF :=
  mkVertDF [vmean (v_pos V)] [mean (v_rho V)] [mean (v_height V)]
           [mean (basal_shift V)] [mean (left_tip V)] [mean (right_tip V)].

Definition vert_append (V row : VertDF) : VertDF :=
  mkVertDF (v_pos V ++ v_pos row) (v_rho V ++ v_rho row)
           (v_height V ++ v_height row) (basal_shift V ++ basal_shift row)
           (left_tip V ++ left_tip row) (right_tip V ++ right_tip row).

Definition edge_loc (E : EdgeDF) (ids : list nat) : res EdgeDF :=
  s ← upcast ids (srce E);
  t ← upcast ids (trgt E);
  f ← upcast ids (face E);
  d ← upcast ids (dcoords E);
  n ← upcast ids (ncoords E);
  l ← upcast ids (e_length E);
  a ← upcast ids (sub_area E);
  v ← upcast ids (sub_vol E);
  lt ← upcast ids (line_tension E);
  Ok (mkEdgeDF s t f d n l a v lt).

Definition edge_append (E row : EdgeDF) : EdgeDF :=
  mkEdgeDF (srce E ++ srce row) (trgt E ++ trgt row) (face E ++ face row)
           (dcoords E ++ dcoords row) (ncoords E ++ ncoords row)
           (e_length E ++ e_length row) (sub_area E ++ sub_area row)
           (sub_vol E ++ sub_vol row) (line_tension E ++ line_tension row).

Definition face_loc (F : FaceDF) (ids : list nat) : res FaceDF :=
  p ← upcast ids (f_pos F);
  a ← upcast ids (area F);
  pe ← upcast ids (perimeter F);
  v ← upcast ids (vol F);
  h ← upcast ids (f_height F);
  r ← upcast ids (f_rho F);
  al ← upcast ids (is_alive F);
  c ← upcast ids (contractility F);
  k ← upcast ids (vol_elasticity F);
  v0 ← upcast ids (prefered_vol F);
  Ok (mkFaceDF p a pe v h r al c k v0).

Definition face_append (F row : FaceDF) : FaceDF :=
  mkFaceDF (f_pos F ++ f_pos row) (area F ++ area row)
           (perimeter F ++ perimeter row) (vol F ++ vol row)
           (f_height F ++ f_height row) (f_rho F ++ f_rho row)
           (is_alive F ++ is_alive row) (contractility F ++ contractility row)
           (vol_elasticity F ++ vol_elasticity row)
           (prefered_vol F ++ prefered_vol row).

Definition add_vert (edge : nat) : M (nat * nat * nat) :=
  srce_ ← read (λ s, loc (srce (edge_df s)) edge);
  trgt_ ← read (λ s, loc (trgt (edge_df s)) edge);
  opp_edge ← read (λ s, index0
    (where2 (srce (edge_df s)) trgt_ (trgt (edge_df s)) srce_));
  ends ← read (λ s, vert_loc (vert_df s) [srce_; trgt_]);
  modify (λ s, with_vert_df s (vert_append (vert_df s) (vert_mean ends)));;
  new_vert ← read (λ s, Ok (n_verts s - 1)%nat);
  modify (λ s, with_edge_df s (assign_trgt (edge_df s) edge new_vert));;
  modify (λ s, with_edge_df s (assign_srce (edge_df s) opp_edge new_vert));;
  edge_cols ← read (λ s, edge_loc (edge_df s) [edge]);
  modify (λ s, with_edge_df s (edge_append (edge_df s) edge_cols));;
  new_edge ← read (λ s, Ok (n_edges s - 1)%nat);
  modify (λ s, with_edge_df s (assign_srce (edge_df s) new_edge new_vert));;
  modify (λ s, with_edge_df s (assign_trgt (edge_df s) new_edge trgt_));;
  edge_cols ← read (λ s, edge_loc (edge_df s) [opp_edge]);
  modify (λ s, with_edge_df s (edge_append (edge_df s) edge_cols));;
  new_opp_edge ← read (λ s, Ok (n_edges s - 1)%nat);
  modify (λ s, with_edge_df s (assign_trgt (edge_df s) new_opp_edge new_vert));;
  modify (λ s, with_edge_df s (assign_srce (edge_df s) new_opp_edge trgt_));;
  mret (new_vert, new_edge, new_opp_edge).

(** A geometry module, as [cell_division] receives it: what its
    attributes are bound to.  [face_projected_pos] hands back the rotated
    positions, labelled by the vertices of the face. *)
Inductive attribute : Type :=
  | UpdateMethod (run : M unit)
  | ProjectionMethod (run : nat → R → Sheet → res (list (nat * vec)))
  | OtherAttribute.

Definition module : Type := string → option attribute.

Definition getattr (m : module) (name : string) : res attribute :=
  match m name with Some a => Ok a | None => Raise AttributeError end.

(** [rot_pos.loc[ids, 'x']] *)
Definition rot_loc_x (rot_pos : list (nat * vec)) (ids : list nat) : res (list R) :=
  match mapM (λ i, vx <$> (list_to_map rot_pos : gmap nat vec) !! i) ids with
  | Some l => Ok l
  | None => Raise KeyError
  end.

(** [rnd] is the number that [np.random.random()] draws when no angle is
    given. *)
Definition cell_division (mother : nat) (geom : module) (angle : option R) (rnd : R) : M unit :=
  alive ← read (λ s, loc (is_alive (face_df s)) mother);
  if decide (alive = 0) then
    warning ("Cell " +:+ pretty mother +:+ " is not alive and cannot devide")
  else
    let angle := default (rnd * PI) angle in
    m_data ← read (λ s, Ok (where1 (face (edge_df s)) mother));
    proj ← read (λ _, getattr geom "face_proedgected_pos");
    rot_pos ← read (λ s, match proj with
                         | ProjectionMethod f => f mother angle s
                         | _ => Raise TypeError
                         end);
    m_srce ← read (λ s, upcast m_data (srce (edge_df s)));
    m_trgt ← read (λ s, upcast m_data (trgt (edge_df s)));
    srce_pos ← read (λ _, rot_loc_x rot_pos m_srce);
    trgt_pos ← read (λ _, rot_loc_x rot_pos m_trgt);
    let sides := zip m_data (zip srce_pos trgt_pos) in
    edge_a ← read (λ _, index0
      (filter (λ e, e.2.1 < 0 ∧ 0 < e.2.2) sides).*1);
    edge_b ← read (λ _, index0
      (filter (λ e, 0 < e.2.1 ∧ e.2.2 < 0) sides).*1);
    '(vert_a, new_edge_a, new_opp_edge_a) ← add_vert edge_a;
    '(vert_b, new_edge_b, new_opp_edge_b) ← add_vert edge_b;
    face_cols ← read (λ s, face_loc (face_df s) [mother]);
    modify (λ s, with_face_df s (face_append (face_df s) face_cols));;
    daughter ← read (λ s, Ok (n_faces s - 1)%nat);
    edge_cols ← read (λ s, edge_loc (edge_df s) [new_edge_b]);
    modify (λ s, with_edge_df s (edge_append (edge_df s) edge_cols));;
    new_edge_m ← read (λ s, Ok (n_edges s - 1)%nat);
    modify (λ s, with_edge_df s (assign_srce (edge_df s) new_edge_m vert_b));;
    modify (λ s, with_edge_df s (assign_trgt (edge_df s) new_edge_m vert_a));;
    modify (λ s, with_edge_df s (edge_append (edge_df s) edge_cols));;
    new_edge_d ← read (λ s, Ok (n_edges s - 1)%nat);
    modify (λ s, with_edge_df s (assign_srce (edge_df s) new_edge_d vert_a));;
    modify (λ s, with_edge_df s (assign_trgt (edge_df s) new_edge_d vert_b));;
    let daughter_edges :=
      (filter (λ e, e.2.1 < 0) sides).*1 ++ [new_edge_b; new_edge_d] in
    modify (λ s, with_edge_df s
      (foldl (λ E e, assign_face E e daughter) (edge_df s) daughter_edges));;
    reset_topo;;
    update ← read (λ _, getattr geom "update_all");
    match update with
    | UpdateMethod run => run
    | _ => read (λ _, Raise TypeError)
    end.

(** ** The class [SheetGeometry] as a module

    [np.linalg.svd] and [utils.rotation_matrix] come from outside the
    sources read here and are parameters. *)

Definition matrix : Type := vec * vec * vec.   (* the three rows *)

Definition dot (p q : vec) : R := vx p * vx q + vy p * vy q + vz p * vz q.
Definition mat_vec (m : matrix) (p : vec) : vec :=
  mkV (dot m.1.1 p) (dot m.1.2 p) (dot m.2 p).
Definition transpose (m : matrix) : matrix :=
  (mkV (vx m.1.1) (vx m.1.2) (vx m.2),
   mkV (vy m.1.1) (vy m.1.2) (vy m.2),
   mkV (vz m.1.1) (vz m.1.2) (vz m.2)).
(** [np.dot] of two matrices *)
Definition mat_mul (a b : matrix) : matrix :=
  let bt := transpose b in
  (mat_vec bt a.1.1, mat_vec bt a.1.2, mat_vec bt a.2).

Section Numpy.

(** The third value of [np.linalg.svd(rel_pos, full_matrices=False)] for
    a face of three edges or more, three rows of three numbers.  With
    fewer rows in [rel_pos] it has as many rows as [rel_pos]: the
    products that follow, or the frame of three columns built from them,
    then raise [ValueError]. *)
Variable svd_vh : list vec → matrix.
Variable rotation_matrix : R → vec → matrix.

Definition face_projected_pos (face_ : nat) (psi : R) (s : Sheet)
    : res (list (nat * vec)) :=
  face_orbit ← upcast (where1 (face (edge_df s)) face_) (srce (edge_df s));
  orbit_pos ← upcast face_orbit (v_pos (vert_df s));
  face_pos ← loc (f_pos (face_df s)) face_;
  let rel_pos := map (λ p, vsub p face_pos) orbit_pos in
  if decide (length rel_pos < 3)%nat then Raise ValueError
  else
    let rotation := svd_vh rel_pos in
    let rotation :=
      if decide (psi = 0) then rotation
      else mat_mul (rotation_matrix psi (mkV 0 0 1)) rotation in
    Ok (zip face_orbit (map (mat_vec rotation) rel_pos)).

(** The attributes of the class: its own methods, and those of
    [PlanarGeometry] that it calls. *)
Definition SheetGeometry : module := λ name,
  if decide (name = "update_all") then Some (UpdateMethod update_all)
  else if decide (name = "update_normals") then Some (UpdateMethod update_normals)
  else if decide (name = "update_areas") then Some (UpdateMethod update_areas)
  else if decide (name = "update_vol") then Some (UpdateMethod update_vol)
  else if decide (name = "update_height") then Some (UpdateMethod update_height)
  else if decide (name = "face_projected_pos") then
    Some (ProjectionMethod face_projected_pos)
  else if decide (name = "reset_scafold") then Some OtherAttribute
  else if decide (name = "face_rotation") then Some OtherAttribute
  else if decide (name = "update_dcoords") then Some (UpdateMethod update_dcoords)
  else if decide (name = "update_length") then Some (UpdateMethod update_length)
  else if decide (name = "update_centroid") then Some (UpdateMethod update_centroid)
  else if decide (name = "update_perimeters") then
    Some (UpdateMethod update_perimeters)
  else if decide (name = "center") then Some OtherAttribute
  else if decide (name = "dist_to_point") then Some OtherAttribute
  else None.

End Numpy.

(** ** Well-formed tables and two small sheets *)

(** Every column of a table has one entry per row. *)
Definition wf_vert (V : VertDF) : Prop :=
  length (v_rho V) = length (v_pos V) ∧
  length (v_height V) = length (v_pos V) ∧
  length (basal_shift V) = length (v_pos V) ∧
  length (left_tip V) = length (v_pos V) ∧
  length (right_tip V) = length (v_pos V).

Definition wf_edge (E : EdgeDF) : Prop :=
  length (trgt E) = length (srce E) ∧
  length (face E) = length (srce E) ∧
  length (dcoords E) = length (srce E) ∧
  length (ncoords E) = length (srce E) ∧
  length (e_length E) = length (srce E) ∧
  length (sub_area E) = length (srce E) ∧
  length (sub_vol E) = length (srce E) ∧
  length (line_tension E) = length (srce E).

Definition wf_face (F : FaceDF) : Prop :=
  length (area F) = length (f_pos F) ∧
  length (perimeter F) = length (f_pos F) ∧
  length (vol F) = length (f_pos F) ∧
  length (f_height F) = length (f_pos F) ∧
  length (f_rho F) = length (f_pos F) ∧
  length (is_alive F) = length (f_pos F) ∧
  length (contractility F) = length (f_pos F) ∧
  length (vol_elasticity F) = length (f_pos F) ∧
  length (prefered_vol F) = length (f_pos F).

(** Every edge refers to a vertex and a face of the sheet. *)
Definition refs_ok (s : Sheet) : Prop :=
  Forall (λ v, (v < n_verts s)%nat) (srce (edge_df s)) ∧
  Forall (λ v, (v < n_verts s)%nat) (trgt (edge_df s)) ∧
  Forall (λ f, (f < n_faces s)%nat) (face (edge_df s)).

Definition wf_sheet (s : Sheet) : Prop :=
  wf_vert (vert_df s) ∧ wf_edge (edge_df s) ∧ wf_face (face_df s) ∧ refs_ok s.

(** The unit square in the plane [z = 0], one live face with a free
    boundary; the derived columns are those [update_all] computes for the
    ['flat'] geometry with the height along [x]. *)
Definition square : Sheet :=
  mkSheet
    (mkVertDF [mkV 0 0 0; mkV 1 0 0; mkV 1 1 0; mkV 0 1 0]
              [0; 1; 1; 0] [0; 1; 1; 0] [0; 0; 0; 0] [0; 0; 0; 0] [0; 0; 0; 0])
    (mkEdgeDF [0; 1; 2; 3]%nat [1; 2; 3; 0]%nat [0; 0; 0; 0]%nat
              [mkV 1 0 0; mkV 0 1 0; mkV (-1) 0 0; mkV 0 (-1) 0]
              [mkV 0 0 (1/2); mkV 0 0 (1/2); mkV 0 0 (1/2); mkV 0 0 (1/2)]
              [1; 1; 1; 1]
              [1/4; 1/4; 1/4; 1/4]
              [0; 1/4; 1/4; 0]
              [1; 1; 1; 1])
    (mkFaceDF [mkV (1/2) (1/2) 0] [1] [4] [1/2] [1/2] [1/2] [1] [1] [1] [0])
    (mkSettings "flat" AxisX (0, 0) 1 2).

(** The two sides of a square: a closed sheet of two faces, every edge of
    one face having its opposite in the other.  Only the topology and the
    positions are filled in. *)
Definition pillow : Sheet :=
  mkSheet
    (mkVertDF [mkV 0 0 0; mkV 1 0 0; mkV 1 1 0; mkV 0 1 0]
              [0; 0; 0; 0] [0; 0; 0; 0] [0; 0; 0; 0] [0; 0; 1; 0] [0; 0; 0; 0])
    (mkEdgeDF [0; 1; 2; 3; 1; 2; 3; 0]%nat [1; 2; 3; 0; 0; 1; 2; 3]%nat
              [0; 0; 0; 0; 1; 1; 1; 1]%nat
              (replicate 8 vzero) (replicate 8 vzero) (replicate 8 0)
              (replicate 8 0) (replicate 8 0) [1; 2; 3; 4; 5; 6; 7; 8])
    (mkFaceDF [mkV (1/2) (1/2) 0; mkV (1/2) (1/2) 0]
              [0; 0] [0; 0] [0; 0] [0; 0] [0; 0] [1; 0] [1; 1] [1; 1] [0; 0])
    (mkSettings "flat" AxisZ (0, 0) 1 1).

(** The same sheet with the row of edge [4], the opposite of edge [0],
    stored a second time: the lookup of the opposite of edge [0] matches
    two edges. *)
Definition pillow_twice : Sheet :=
  mkSheet (vert_df pillow)
    (mkEdgeDF [0; 1; 2; 3; 1; 2; 3; 0; 1]%nat [1; 2; 3; 0; 0; 1; 2; 3; 0]%nat
              [0; 0; 0; 0; 1; 1; 1; 1; 1]%nat
              (replicate 9 vzero) (replicate 9 vzero) (replicate 9 0)
              (replicate 9 0) (replicate 9 0) [1; 2; 3; 4; 5; 6; 7; 8; 5])
    (face_df pillow) (settings pillow).

(** ** Statements checked against the code *)

(** What a transition whose lookups fail would be, were it a logged
    no-op: it returns, the sheet is the one it was given, and something
    has been logged. *)
Definition graceful_noop (edge01 : nat) (epsilon : R) (s : Sheet) : Prop :=
  ∃ msgs, msgs ≠ [] ∧ type1_transition edge01 epsilon s = Run (Ok tt) s msgs.

(** One of the five edge lookups of the transition around [edge01]
    matches no edge: the opposite edge, or, the lookups before it having
    found an edge, one of the four edges around. *)
Definition unresolved_lookup (s : Sheet) (edge01 : nat) : Prop :=
  let E := edge_df s in
  ∃ vert0 vert1 cell_b,
    srce E !! edge01 = Some vert0 ∧ trgt E !! edge01 = Some vert1 ∧
    face E !! edge01 = Some cell_b ∧
    (where2 (srce E) vert1 (trgt E) vert0 = [] ∨
     ∃ edge10 cell_d,
       index0 (where2 (srce E) vert1 (trgt E) vert0) = Ok edge10 ∧
       face E !! edge10 = Some cell_d ∧
       (where2 (srce E) vert0 (face E) cell_d = [] ∨
        ∃ edge05 vert5,
          index0 (where2 (srce E) vert0 (face E) cell_d) = Ok edge05 ∧
          trgt E !! edge05 = Some vert5 ∧
          (where2 (srce E) vert5 (trgt E) vert0 = [] ∨
           ∃ edge50 cell_a,
             index0 (where2 (srce E) vert5 (trgt E) vert0) = Ok edge50 ∧
             face E !! edge50 = Some cell_a ∧
             (where2 (srce E) vert1 (face E) cell_b = [] ∨
              ∃ edge13 vert3,
                index0 (where2 (srce E) vert1 (face E) cell_b) = Ok edge13 ∧
                trgt E !! edge13 = Some vert3 ∧
                where2 (srce E) vert3 (trgt E) vert1 = [])))).

(** The rows [(srce, trgt, face)] of the edge table. *)
Definition rows (E : EdgeDF) : list (nat * nat * nat) :=
  zip (zip (srce E) (trgt E)) (face E).

(** What an edge adds to the count, in face [f], of the edges that leave
    vertex [v] minus those that reach it. *)
Definition flux (f v : nat) (row : nat * nat * nat) : Z :=
  if decide (row.2 = f) then
    ((if decide (row.1.1 = v) then 1 else 0)
     - (if decide (row.1.2 = v) then 1 else 0))%Z
  else 0%Z.

Definition zsum (l : list Z) : Z := foldr Z.add 0%Z l.

Definition balance (E : EdgeDF) (f v : nat) : Z := zsum (map (flux f v) (rows E)).

(** Every face is a closed line: each of its vertices is left by as many
    of its edges as reach it. *)
Definition closed_faces (s : Sheet) : Prop :=
  ∀ f v, balance (edge_df s) f v = 0%Z.

(** The half-edge invariants: no edge from a vertex to itself, one edge
    at most from a vertex to another, and the opposite of an edge in
    another face. *)
Definition no_loops (E : EdgeDF) : Prop :=
  ∀ i v, srce E !! i = Some v → trgt E !! i ≠ Some v.

Definition half_edges_unique (E : EdgeDF) : Prop :=
  ∀ i j u v,
    srce E !! i = Some u → trgt E !! i = Some v →
    srce E !! j = Some u → trgt E !! j = Some v → i = j.

Definition opposite_in_other_face (E : EdgeDF) : Prop :=
  ∀ i j u v f,
    srce E !! i = Some u → trgt E !! i = Some v →
    srce E !! j = Some v → trgt E !! j = Some u →
    face E !! i = Some f → face E !! j ≠ Some f.

Definition valid_mesh (s : Sheet) : Prop :=
  wf_sheet s ∧ no_loops (edge_df s) ∧ half_edges_unique (edge_df s) ∧
  opposite_in_other_face (edge_df s) ∧ closed_faces s.

(** The edge [edge01] is not on the boundary: its opposite and the four
    edges around it are found. *)
Record neighbours : Type := mkNeighbours {
  nb_vert0 : nat; nb_vert1 : nat; nb_vert3 : nat; nb_vert5 : nat;
  nb_cell_a : nat; nb_cell_b : nat; nb_cell_c : nat; nb_cell_d : nat;
  nb_edge10 : nat; nb_edge05 : nat; nb_edge50 : nat;
  nb_edge13 : nat; nb_edge31 : nat
}.

Definition interior_edge (s : Sheet) (edge01 : nat) (nb : neighbours) : Prop :=
  let E := edge_df s in
  srce E !! edge01 = Some (nb_vert0 nb) ∧
  trgt E !! edge01 = Some (nb_vert1 nb) ∧
  face E !! edge01 = Some (nb_cell_b nb) ∧
  index0 (where2 (srce E) (nb_vert1 nb) (trgt E) (nb_vert0 nb))
    = Ok (nb_edge10 nb) ∧
  face E !! nb_edge10 nb = Some (nb_cell_d nb) ∧
  index0 (where2 (srce E) (nb_vert0 nb) (face E) (nb_cell_d nb))
    = Ok (nb_edge05 nb) ∧
  trgt E !! nb_edge05 nb = Some (nb_vert5 nb) ∧
  index0 (where2 (srce E) (nb_vert5 nb) (trgt E) (nb_vert0 nb))
    = Ok (nb_edge50 nb) ∧
  face E !! nb_edge50 nb = Some (nb_cell_a nb) ∧
  index0 (where2 (srce E) (nb_vert1 nb) (face E) (nb_cell_b nb))
    = Ok (nb_edge13 nb) ∧
  trgt E !! nb_edge13 nb = Some (nb_vert3 nb) ∧
  index0 (where2 (srce E) (nb_vert3 nb) (trgt E) (nb_vert1 nb))
    = Ok (nb_edge31 nb) ∧
  face E !! nb_edge31 nb = Some (nb_cell_c nb).

(** The sum of the displacement vectors of the edges of a face. *)
Definition face_displacement (s : Sheet) (f : nat) : vec :=
  vsum (group (face (edge_df s)) (dcoords (edge_df s)) f).

(** The energy as the specification words it: sums over the edges and
    over the faces, a dead face and its edges counting for nothing. *)
Definition at0 (col : list R) (i : nat) : R := default 0 (col !! i).

Definition face_live (s : Sheet) (f : nat) : bool :=
  bool_decide (is_alive (face_df s) !! f = Some 1).

Definition edge_live (s : Sheet) (e : nat) : bool :=
  bool_decide (face (edge_df s) !! e ≫= (λ f, is_alive (face_df s) !! f)
               = Some 1).

Definition tension_energy (s : Sheet) : R :=
  fsum (map (λ e, if edge_live s e
                  then at0 (line_tension (edge_df s)) e
                       * at0 (e_length (edge_df s)) e / 2
                  else 0)
            (seq 0 (n_edges s))).

Definition contractility_energy (s : Sheet) : R :=
  fsum (map (λ f, if face_live s f
                  then 0.5 * at0 (contractility (face_df s)) f
                       * at0 (perimeter (face_df s)) f ^ 2
                  else 0)
            (seq 0 (n_faces s))).

Definition volume_energy (s : Sheet) : R :=
  fsum (map (λ f, if face_live s f
                  then 0.5 * at0 (vol_elasticity (face_df s)) f
                       * (at0 (vol (face_df s)) f
                          - at0 (prefered_vol (face_df s)) f) ^ 2
                  else 0)
            (seq 0 (n_faces s))).

Definition energy_spec (s : Sheet) : R :=
  (tension_energy s + (contractility_energy s + volume_energy s))
  / nrj_norm_factor (settings s).

(** [full_output] as claim C2 words it: three scalars, the normalised
    component sums. *)
Definition full_output_scalars (s : Sheet) : Prop :=
  compute_energy s true
  = Ok (Tuple3 (Float (tension_energy s / nrj_norm_factor (settings s)))
               (Float (contractility_energy s / nrj_norm_factor (settings s)))
               (Float (volume_energy s / nrj_norm_factor (settings s)))).

(** The gradient as the specification words it: every directed edge
    gives its source vertex half its tension term, its contractility
    term and the source part of its volume term, and gives its target
    vertex the opposite of the first two and the target part of the
    third; a vertex collects what its edges give it. *)
Definition src_contrib (grad_t grad_c grad_v_srce : list vec) : list vec :=
  zip_with vadd
    (zip_with vadd (map (λ g, vdiv g 2) grad_t) grad_c) grad_v_srce.

Definition trg_contrib (grad_t grad_c grad_v_trgt : list vec) : list vec :=
  zip_with vadd
    (map vopp (zip_with vadd (map (λ g, vdiv g 2) grad_t) grad_c))
    grad_v_trgt.

Definition assembled (s : Sheet) (grad_t grad_c grad_v_srce grad_v_trgt : list vec)
    (i : nat) : vec :=
  vadd (vsum (group (srce (edge_df s)) (src_contrib grad_t grad_c grad_v_srce) i))
       (vsum (group (trgt (edge_df s)) (trg_contrib grad_t grad_c grad_v_trgt) i)).

(** [compute_gradient] returns the per-edge terms and the gradient, and
    the gradient is the assembled sum divided by the factor [N]: stated
    for the vertices that are the source of an edge and the target of
    another, whose row holds numbers. *)
Definition gradient_normalised_by (N : Settings → R) (s : Sheet) : Prop :=
  ∃ grad_t grad_c grad_v_srce grad_v_trgt grad,
    compute_gradient s true
    = Ok (Components grad_t grad_c grad_v_srce grad_v_trgt) ∧
    compute_gradient s false = Ok (Gradient grad) ∧
    ∀ i, i ∈ srce (edge_df s) → i ∈ trgt (edge_df s) →
      grad !! i
      = Some (Some (vdiv (assembled s grad_t grad_c grad_v_srce grad_v_trgt i)
                         (N (settings s)))).

(** ** The height gradient against the height

    The height [update_height] gives a vertex: the ['rho'] dispatch on a
    table holding this one vertex, minus its basal shift. *)
Definition height_at (st : Settings) (shift left right : R) (p : vec) : R :=
  let V := mkVertDF [p] [0] [0] [shift] [left] [right] in
  default 0 (head (zip_with Rminus (rho_column st V) (basal_shift V))).

(** The vertex moved by [t] along an axis. *)
Definition move (k : axis) (t : R) (p : vec) : vec :=
  set_coord k (coord k p + t) p.

(** [g] is the vector derivative of the height at [p]: along each axis,
    its component is the derivative of the height of the moved vertex. *)
Definition is_height_gradient (st : Settings) (shift left right : R) (p g : vec) : Prop :=
  ∀ k : axis,
    derivable_pt_lim (λ t, height_at st shift left right (move k t p)) 0
      (coord k g).

(** [height_grad] returns, for every vertex, the vector derivative of
    the height of that vertex. *)
Definition height_grad_is_derivative (s : Sheet) : Prop :=
  ∃ h_grad,
    height_grad s = Ok h_grad ∧
    length h_grad = n_verts s ∧
    ∀ i p shift left right g,
      v_pos (vert_df s) !! i = Some p →
      basal_shift (vert_df s) !! i = Some shift →
      left_tip (vert_df s) !! i = Some left →
      right_tip (vert_df s) !! i = Some right →
      h_grad !! i = Some g →
      is_height_gradient (settings s) shift left right p g.

(** The unit square as a rod. *)
Definition rod : Sheet :=
  mkSheet (vert_df square) (edge_df square) (face_df square)
    (mkSettings "rod" AxisZ (0, 0) 1 1).

#[global] Instance axis_eq_dec : EqDecision axis.
Proof. solve_decision. Defined.

(** ** The gradient against the energy

    The sheet whose vertex [i] has been moved by [t] along an axis. *)
Definition move_vertex (s : Sheet) (i : nat) (k : axis) (t : R) : Sheet :=
  with_vert_df s
    (set_v_pos (vert_df s) (alter (move k t) i (v_pos (vert_df s)))).

(** The energy as a function of the displacement of one vertex along one
    axis: the geometry is updated for the moved vertex, then the energy is
    computed. *)
Definition energy_along (s : Sheet) (i : nat) (k : axis) (t : R) : R :=
  match compute_energy (final (update_all (move_vertex s i k t))) false with
  | Ok (Float e) => e
  | _ => 0
  end.

(** Every row of the gradient holds the partial derivatives of the
    energy with respect to the coordinates of its vertex. *)
Definition gradient_is_energy_derivative (s : Sheet) : Prop :=
  ∃ grad,
    compute_gradient s false = Ok (Gradient grad) ∧
    ∀ i g k,
      grad !! i = Some (Some g) →
      derivable_pt_lim (energy_along s i k) 0 (coord k g).

(** ** More of the class [SheetGeometry]

    [np.arctan2], [np.percentile], [utils.rotation_matrix] and
    [PlanarGeometry.center] come from outside the sources read here and
    are parameters. *)

Section Scaffold.

Variable rotation_matrix : R → vec → matrix.
Variable arctan2 : R → R → R.
Variable percentile : list R → R → R.
Variable center : M unit.

(** [face_rotation]: the normal is the mean of the normals of the edges
    of the face, scaled to unit length. *)
Definition face_rotation (face_ : nat) (psi : R) (s : Sheet) : matrix :=
  let normal := vmean (group (face (edge_df s)) (ncoords (edge_df s)) face_) in
  let normal := vdiv normal (norm normal) in
  let n_xy := hypot (vx normal) (vy normal) in
  let theta := - arctan2 n_xy (vz normal) in
  let direction := mkV (vy normal) (- vx normal) 0 in
  let r1 := rotation_matrix theta direction in
  if decide (psi = 0) then r1
  else mat_mul (rotation_matrix psi (mkV 0 0 1)) r1.

(** A column of booleans holds [1] for [True] and [0] for [False], which
    is what the comparison [== 1] of [update_height] reads. *)
Definition flag (P : Prop) `{!Decision P} : R := if decide P then 1 else 0.

Definition with_settings (s : Sheet) (st : Settings) : Sheet :=
  mkSheet (vert_df s) (edge_df s) (face_df s) st.
Definition set_ab (st : Settings) (a b : R) : Settings :=
  mkSettings (geometry st) (height_axis st) (a, b)
             (nrj_norm_factor st) (grad_norm_factor st).
Definition set_tips (V : VertDF) (l r : list R) : VertDF :=
  mkVertDF (v_pos V) (v_rho V) (v_height V) (basal_shift V) l r.

Definition reset_scafold : M unit :=
  w ← read (λ s, Ok (height_axis (settings s)));
  let '(u, v) := other_axes w in
  center;;
  geometry_ ← read (λ s, Ok (geometry (settings s)));
  if decide (geometry_ = "rod") then
    rho ← read (λ s, Ok (map (λ p, hypot (coord u p) (coord v p))
                            (v_pos (vert_df s))));
    let a := percentile rho 95 in
    b ← read (λ s, Ok (percentile
                         (map (λ p, Rabs (coord w p)) (v_pos (vert_df s)))
                         95));
    let w0 := b - a in
    modify (λ s, with_settings s (set_ab (settings s) a b));;
    modify (λ s, with_vert_df s
      (set_tips (vert_df s)
         (map (λ p, flag (coord w p < - w0)) (v_pos (vert_df s)))
         (right_tip (vert_df s))));;
    modify (λ s, with_vert_df s
      (set_tips (vert_df s)
         (left_tip (vert_df s))
         (map (λ p, flag (w0 < coord w p)) (v_pos (vert_df s)))))
  else mret tt.

End Scaffold.

(** The sheet moved by the vector [d]: every vertex and every face
    centre. *)
Definition translate (d : vec) (s : Sheet) : Sheet :=
  mkSheet (set_v_pos (vert_df s) (map (vadd d) (v_pos (vert_df s))))
          (edge_df s)
          (set_f_pos (face_df s) (map (vadd d) (f_pos (face_df s))))
          (settings s).

(** The sheet whose normals are all scaled by [k]. *)
Definition scale_normals (k : R) (s : Sheet) : Sheet :=
  with_edge_df s
    (set_ncoords (edge_df s) (map (vscale k) (ncoords (edge_df s)))).

(** The unit square with its face dead. *)
Definition dead_square : Sheet :=
  with_face_df square
    (mkFaceDF (f_pos (face_df square)) (area (face_df square))
       (perimeter (face_df square)) (vol (face_df square))
       (f_height (face_df square)) (f_rho (face_df square)) [0]
       (contractility (face_df square)) (vol_elasticity (face_df square))
       (prefered_vol (face_df square))).

(** One vertex on the unit sphere, in spherical mode, with its ['rho']
    and height up to date. *)
Definition ball : Sheet :=
  mkSheet
    (mkVertDF [mkV 1 0 0] [norm (mkV 1 0 0)] [norm (mkV 1 0 0) - 0]
              [0] [0] [0])
    (mkEdgeDF [] [] [] [] [] [] [] [] [])
    (mkFaceDF [] [] [] [] [] [] [] [] [] [])
    (mkSettings "spherical" AxisZ (0, 0) 1 1).

(** A geometry module that binds the name [cell_division] looks up: its
    projection puts the vertices 0 and 3 on one side of the division
    line and the vertices 1 and 2 on the other. *)
Definition halving : module := λ name,
  if decide (name = "face_proedgected_pos") then
    Some (ProjectionMethod (λ _ _ _,
      Ok [(0%nat, mkV (-1) 0 0); (1%nat, mkV 1 0 0);
          (2%nat, mkV 1 0 0); (3%nat, mkV (-1) 0 0)]))
  else if decide (name = "update_all") then Some (UpdateMethod update_all)
  else None.

(** * Properties *)

(** ** The monad *)

Lemma bind_assoc {A B C} (m : M A) (f : A → M B) (g : B → M C) (s : Sheet) :
  ((m ≫= f) ≫= g) s = (m ≫= (λ a, f a ≫= g)) s.
Proof.
  unfold mbind, M_bind.
  destruct (m s) as [[a|e] s' l]; [|reflexivity].
  destruct (f a s') as [[b|e] s'' l']; [|reflexivity].
  destruct (g b s'') as [r s3 l3]. by rewrite app_assoc.
Qed.

Lemma bind_read {A B} (f : Sheet → res A) (k : A → M B) (s : Sheet) :
  (read f ≫= k) s
  = match f s with Ok a => k a s | Raise e => Run (Raise e) s [] end.
Proof.
  unfold mbind, M_bind, read. destruct (f s) as [a|e]; [|reflexivity].
  by destruct (k a s).
Qed.

Lemma bind_modify {B} (f : Sheet → Sheet) (k : unit → M B) (s : Sheet) :
  (modify f ≫= k) s = k tt (f s).
Proof. unfold mbind, M_bind, modify. by destruct (k tt (f s)). Qed.

Lemma modify_run (f : Sheet → Sheet) (s : Sheet) :
  modify f s = Run (Ok tt) (f s) [].
Proof. reflexivity. Qed.

Lemma read_run {A} (f : Sheet → res A) (s : Sheet) :
  read f s = Run (f s) s [].
Proof. reflexivity. Qed.

Lemma mret_run {A} (a : A) (s : Sheet) : (mret a : M A) s = Run (Ok a) s [].
Proof. reflexivity. Qed.

(** Record projections of the setters. *)
Ltac sheet_simpl :=
  unfold with_vert_df, with_edge_df, with_face_df,
       set_v_rho, set_v_height, set_v_pos, set_srce, set_trgt, set_face,
       set_dcoords, set_ncoords, set_e_length, set_sub_area, set_sub_vol,
       set_f_pos, set_area, set_perimeter, set_vol, set_f_height_rho,
       sum_face, mean_face,
       n_verts, n_edges, n_faces, upcast_srce, upcast_trgt, upcast_face in *;
  cbn [vert_df edge_df face_df settings
       v_pos v_rho v_height basal_shift left_tip right_tip
       srce trgt face dcoords ncoords e_length sub_area sub_vol line_tension
       f_pos area perimeter vol f_height f_rho is_alive contractility
       vol_elasticity prefered_vol final result logged] in *.

(** ** Geometry: [update_all] run twice *)

Lemma rho_column_stable (st : Settings) (V : VertDF) (h : list R) :
  rho_column st
    (mkVertDF (v_pos V) (rho_column st V) h
              (basal_shift V) (left_tip V) (right_tip V))
  = rho_column st V.
Proof.
  unfold rho_column. destruct (other_axes (height_axis st)) as [u v].
  cbn [v_pos v_rho left_tip right_tip].
  repeat case_decide; reflexivity.
Qed.

(** One step of a computation in [M], in the goal: the head bind is run,
    a lookup whose outcome is known is replaced by it. *)
Ltac m_step :=
  repeat (first [ rewrite bind_assoc
                | rewrite bind_modify
                | rewrite bind_read
                | rewrite modify_run ];
          cbv beta; sheet_simpl;
          rewrite ?length_map, ?length_seq, ?rho_column_stable;
          repeat match goal with
          | E : ?u = _ |- context [match ?u with Ok _ => _ | Raise _ => _ end] =>
              rewrite E
          end).

(** The same in a hypothesis, with a case distinction on every lookup
    whose outcome is not known yet. *)
Ltac m_step_in H :=
  repeat (first [ rewrite bind_assoc in H
                | rewrite bind_modify in H
                | rewrite bind_read in H
                | rewrite modify_run in H ];
          cbv beta in H; sheet_simpl;
          rewrite ?length_map, ?length_seq in H;
          repeat match type of H with
          | context [match ?u with Ok _ => _ | Raise _ => _ end] =>
              match goal with
              | E : u = _ |- _ => rewrite E in H
              | _ => destruct u eqn:?
              end
          end).

(** C9. Running [update_all] a second time, with no change to the vertex
    positions in between, gives the same outcome and the same sheet as the
    first run left: every derived column (edge vectors, lengths,
    centroids, heights, normals, areas, perimeters, volumes) is what it
    was, whether the first run went through or stopped on a missing
    label. *)
Theorem update_all_idempotent (s : Sheet) :
  update_all (final (update_all s)) = update_all s.
Proof.
  remember (update_all s) as r eqn:Hr.
  unfold update_all, update_dcoords, update_length, update_centroid,
    update_height, update_normals, update_areas, update_perimeters,
    update_vol in *.
  m_step_in Hr.
  all: subst r; sheet_simpl.
  all: m_step.
  all: reflexivity.
Qed.

(** ** Topology: cell division *)

(** C8. Division of a face whose [is_alive] flag is false logs one
    warning and returns: the sheet, with its three tables and every
    column, is the one that was given. *)
Theorem cell_division_dead_face (s : Sheet) (mother : nat) (geom : module)
    (angle : option R) (rnd : R) :
  is_alive (face_df s) !! mother = Some 0 →
  cell_division mother geom angle rnd s
  = Run (Ok tt) s
        ["Cell " +:+ pretty mother +:+ " is not alive and cannot devide"].
Proof.
  intros Hdead. unfold cell_division.
  rewrite bind_read. unfold loc. rewrite Hdead.
  rewrite decide_True by reflexivity. reflexivity.
Qed.

Lemma cell_division_dead_face_witness :
  cell_division 1 (λ _, None) None 0 pillow
  = Run (Ok tt) pillow ["Cell 1 is not alive and cannot devide"].
Proof. apply (cell_division_dead_face pillow 1). reflexivity. Defined.

Lemma SheetGeometry_no_proedgected svd rm :
  getattr (SheetGeometry svd rm) "face_proedgected_pos" = Raise AttributeError.
Proof. reflexivity. Qed.

Lemma SheetGeometry_projected svd rm :
  getattr (SheetGeometry svd rm) "face_projected_pos"
  = Ok (ProjectionMethod (face_projected_pos svd rm)).
Proof. reflexivity. Qed.

(** C5, on the code. For a live mother face and the geometry class of
    the sources, [cell_division] stops on the attribute
    [face_proedgected_pos], which [SheetGeometry] does not have (it has
    [face_projected_pos]): no vertex, edge or face is created. *)
Theorem cell_division_live_face_raises
    (svd_vh : list vec → matrix) (rotation_matrix : R → vec → matrix)
    (s : Sheet) (mother : nat) (alive : R) (angle : option R) (rnd : R) :
  is_alive (face_df s) !! mother = Some alive →
  alive ≠ 0 →
  cell_division mother (SheetGeometry svd_vh rotation_matrix) angle rnd s
  = Run (Raise AttributeError) s [].
Proof.
  intros Hm Hlive. unfold cell_division.
  rewrite bind_read. unfold loc. rewrite Hm.
  rewrite decide_False by assumption.
  rewrite bind_read. rewrite bind_read.
  rewrite SheetGeometry_no_proedgected. reflexivity.
Qed.

Lemma cell_division_live_face_raises_witness :
  cell_division 0
    (SheetGeometry (λ _, (vzero, vzero, vzero)) (λ _ _, (vzero, vzero, vzero)))
    (Some 0) 0 pillow
  = Run (Raise AttributeError) pillow [].
Proof.
  apply (cell_division_live_face_raises _ _ pillow 0%nat 1).
  - reflexivity.
  - lra.
Defined.

(** ** Topology: type 1 transition *)

Lemma type1_transition_no_opposite (edge01 : nat) (epsilon : R) (s : Sheet)
    (v0 v1 b : nat) :
  srce (edge_df s) !! edge01 = Some v0 →
  trgt (edge_df s) !! edge01 = Some v1 →
  face (edge_df s) !! edge01 = Some b →
  where2 (srce (edge_df s)) v1 (trgt (edge_df s)) v0 = [] →
  type1_transition edge01 epsilon s = Run (Raise IndexError) s [].
Proof.
  intros Hs Ht Hf Hopp. unfold type1_transition.
  do 4 (rewrite bind_read; cbv beta; unfold loc;
        rewrite ?Hs, ?Ht, ?Hf, ?Hopp; cbn [index0]).
  reflexivity.
Qed.

(** C4 as stated fails on the boundary edge [0] of the square, which has
    no opposite: the transition raises, and logs nothing. *)
Lemma type1_transition_boundary_not_graceful :
  ¬ graceful_noop 0 (1/10) square.
Proof.
  intros (msgs & _ & Hrun).
  rewrite (type1_transition_no_opposite 0 (1/10) square 0 1 0) in Hrun
    by reflexivity.
  discriminate.
Qed.

(** ** Topology: insertion of a vertex *)

Lemma upcast_singleton {A} (col : list A) (i : nat) :
  upcast [i] col
  = match col !! i with Some a => Ok [a] | None => Raise KeyError end.
Proof. unfold upcast. cbn. by destruct (col !! i). Qed.

Lemma upcast_pair {A} (col : list A) (i j : nat) :
  upcast [i; j] col
  = match col !! i, col !! j with
    | Some a, Some b => Ok [a; b]
    | _, _ => Raise KeyError
    end.
Proof. unfold upcast. cbn. by destruct (col !! i), (col !! j). Qed.

Lemma loc_Ok {A} (col : list A) (i : nat) (a : A) :
  col !! i = Some a → loc col i = Ok a.
Proof. unfold loc. by intros ->. Qed.

Lemma edge_loc_singleton (E : EdgeDF) (i : nat) (row : EdgeDF) :
  edge_loc E [i] = Ok row ↔
  ∃ s t f d n l a v lt,
    srce E !! i = Some s ∧ trgt E !! i = Some t ∧ face E !! i = Some f ∧
    dcoords E !! i = Some d ∧ ncoords E !! i = Some n ∧
    e_length E !! i = Some l ∧ sub_area E !! i = Some a ∧
    sub_vol E !! i = Some v ∧ line_tension E !! i = Some lt ∧
    row = mkEdgeDF [s] [t] [f] [d] [n] [l] [a] [v] [lt].
Proof.
  unfold edge_loc. rewrite !upcast_singleton. split.
  - destruct (srce E !! i), (trgt E !! i), (face E !! i), (dcoords E !! i),
      (ncoords E !! i), (e_length E !! i), (sub_area E !! i),
      (sub_vol E !! i), (line_tension E !! i); cbn; try discriminate.
    intros [= <-]. by repeat eexists.
  - intros (s & t & f & d & n & l & a & v & lt &
            -> & -> & -> & -> & -> & -> & -> & -> & -> & ->).
    reflexivity.
Qed.

Lemma vert_loc_singleton (V : VertDF) (i : nat) (p : vec) (r h b lt rt : R) :
  v_pos V !! i = Some p → v_rho V !! i = Some r → v_height V !! i = Some h →
  basal_shift V !! i = Some b → left_tip V !! i = Some lt →
  right_tip V !! i = Some rt →
  vert_loc V [i] = Ok (mkVertDF [p] [r] [h] [b] [lt] [rt]).
Proof.
  intros Hp Hr Hh Hb Hl Hrt. unfold vert_loc. rewrite !upcast_singleton.
  by rewrite Hp, Hr, Hh, Hb, Hl, Hrt.
Qed.

Lemma snoc_lookup {A} (l : list A) (a : A) (n : nat) :
  n = length l → (l ++ [a]) !! n = Some a.
Proof. intros ->. by rewrite lookup_app_r, Nat.sub_diag. Qed.

Lemma where2_index0 (c1 c2 : list nat) (v1 v2 i : nat) :
  index0 (where2 c1 v1 c2 v2) = Ok i →
  c1 !! i = Some v1 ∧ c2 !! i = Some v2.
Proof.
  unfold index0, where2. intros H.
  destruct (filter _ _) as [|j l] eqn:Hf; [discriminate|].
  injection H as ->.
  assert (Hin : i ∈ filter (λ i, c1 !! i = Some v1 ∧ c2 !! i = Some v2)
                     (seq 0 (length c1))) by (rewrite Hf; left).
  by apply list_elem_of_filter in Hin as [? _].
Qed.

Ltac len_solve :=
  repeat first [rewrite length_app | rewrite length_insert]; cbn [length];
  repeat match goal with
         | H : length ?l = _ |- context [length ?l] => rewrite H
         | H : ?n = length ?l |- context [length ?l] => rewrite <- H
         end;
  lia.

Ltac lookup_solve :=
  repeat first
    [ assumption
    | rewrite list_lookup_insert_ne by lia
    | rewrite list_lookup_insert_eq by len_solve
    | apply snoc_lookup; len_solve
    | rewrite lookup_app_l by len_solve
    | reflexivity ].

Lemma mean_pair (a b : R) : mean [a; b] = (a + b) / 2.
Proof. unfold mean. cbn. lra. Qed.

Lemma vmean_pair (p q : vec) : vmean [p; q] = vdiv (vadd p q) 2.
Proof.
  unfold vmean, vdiv, vadd. destruct p, q. cbn. f_equal; lra.
Qed.

(** The rows [add_vert] appends, in terms of the rows it reads. *)
Lemma add_vert_appends (s : Sheet) (edge srce_ trgt_ opp_edge : nat)
    (vends : VertDF) (row opp_row : EdgeDF) :
  wf_vert (vert_df s) → wf_edge (edge_df s) →
  srce (edge_df s) !! edge = Some srce_ →
  trgt (edge_df s) !! edge = Some trgt_ →
  index0 (where2 (srce (edge_df s)) trgt_ (trgt (edge_df s)) srce_) = Ok opp_edge →
  vert_loc (vert_df s) [srce_; trgt_] = Ok vends →
  edge_loc (edge_df s) [edge] = Ok row →
  edge_loc (edge_df s) [opp_edge] = Ok opp_row →
  ∃ s', add_vert edge s
        = Run (Ok (n_verts s, n_edges s, S (n_edges s))) s' [] ∧
    vert_loc (vert_df s') [n_verts s] = Ok (vert_mean vends) ∧
    edge_loc (edge_df s') [n_edges s] = Ok (set_srce row [n_verts s]) ∧
    edge_loc (edge_df s') [S (n_edges s)] = Ok (set_trgt opp_row [n_verts s]).
Proof.
  intros (Hv1 & Hv2 & Hv3 & Hv4 & Hv5)
    (He1 & He2 & He3 & He4 & He5 & He6 & He7 & He8)
    Hs Ht Hopp Hends Hrow Hopprow.
  apply edge_loc_singleton in Hrow as
    (rs & rt & rf & rd & rn & rl & ra & rv & rlt &
     Rs & Rt & Rf & Rd & Rn & Rl & Ra & Rv & Rlt & ->).
  apply edge_loc_singleton in Hopprow as
    (qs & qt & qf & qd & qn & ql & qa & qv & qlt &
     Qs & Qt & Qf & Qd & Qn & Ql & Qa & Qv & Qlt & ->).
  apply where2_index0 in Hopp as Hopp'. destruct Hopp' as [Hos Hot].
  assert (qs = trgt_) as -> by congruence.
  assert (rt = trgt_) as -> by congruence.
  apply loc_Ok in Hs as Hs', Ht as Ht'.
  assert (Hedge : (edge < length (srce (edge_df s)))%nat)
    by (eapply lookup_lt_Some; eassumption).
  assert (Hoppl : (opp_edge < length (srce (edge_df s)))%nat)
    by (eapply lookup_lt_Some; eassumption).
  remember (length (v_pos (vert_df s))) as nv eqn:Hnv0.
  remember (length (srce (edge_df s))) as ne eqn:Hne0.
  assert (Hnv : (length (v_pos (vert_append (vert_df s) (vert_mean vends))) - 1)%nat = nv).
  { unfold vert_append, vert_mean. cbn [v_pos]. rewrite length_app.
    rewrite <- Hnv0. cbn. lia. }
  unfold add_vert, n_verts, n_edges. rewrite <- ?Hnv0, <- ?Hne0.
  m_step. rewrite !Hnv.
  (* the row copied for the new edge *)
  destruct (lookup_lt_is_Some_2 (<[opp_edge := nv]> (srce (edge_df s))) edge)
    as [x Hx]; [rewrite length_insert; lia|].
  assert (Hrow1 : edge_loc (assign_srce (assign_trgt (edge_df s) edge nv)
                              opp_edge nv) [edge]
                  = Ok (mkEdgeDF [x] [nv] [rf] [rd] [rn] [rl] [ra] [rv] [rlt])).
  { apply edge_loc_singleton. exists x, nv, rf, rd, rn, rl, ra, rv, rlt.
    unfold assign_srce, assign_trgt, set_srce, set_trgt. cbn.
    repeat split; lookup_solve. }
  rewrite Hrow1.
  unfold edge_append, assign_srce, assign_trgt, set_srce, set_trgt.
  cbn [srce trgt face dcoords ncoords e_length sub_area sub_vol line_tension].
  m_step.
  cbn [srce trgt face dcoords ncoords e_length sub_area sub_vol line_tension].
  rewrite !length_app, !length_insert. cbn [length]. rewrite <- ?Hne0.
  rewrite !Nat.add_sub.
  (* the row copied for the new opposite edge *)
  destruct (lookup_lt_is_Some_2 (<[edge := nv]> (trgt (edge_df s))) opp_edge)
    as [y Hy]; [rewrite length_insert; lia|].
  match goal with
  | |- context [match edge_loc ?E [opp_edge] with _ => _ end] =>
      assert (Hrow2 : edge_loc E [opp_edge]
                = Ok (mkEdgeDF [nv] [y] [qf] [qd] [qn] [ql] [qa] [qv] [qlt]))
  end.
  { apply edge_loc_singleton. exists nv, y, qf, qd, qn, ql, qa, qv, qlt.
    cbn. repeat split; lookup_solve. }
  rewrite Hrow2.
  m_step.
  cbn [srce trgt face dcoords ncoords e_length sub_area sub_vol line_tension].
  rewrite !length_app, !length_insert, !length_app, !length_insert.
  cbn [length]. rewrite <- ?Hne0.
  replace (ne + 1 + 1 - 1)%nat with (S ne) by lia.
  eexists. split; [reflexivity|].
  cbn [vert_df edge_df]. split; [|split].
  - unfold vert_append, vert_mean.
    cbn [v_pos v_rho v_height basal_shift left_tip right_tip].
    apply vert_loc_singleton; apply snoc_lookup; congruence.
  - apply edge_loc_singleton.
    exists nv, trgt_, rf, rd, rn, rl, ra, rv, rlt.
    cbn. repeat split; lookup_solve.
  - apply edge_loc_singleton.
    exists trgt_, nv, qf, qd, qn, ql, qa, qv, qlt.
    cbn. repeat split; lookup_solve.
Qed.

Lemma vert_loc_singleton_inv (V : VertDF) (i : nat) (p : vec)
    (r h b lt rt : R) :
  vert_loc V [i] = Ok (mkVertDF [p] [r] [h] [b] [lt] [rt]) →
  v_pos V !! i = Some p ∧ v_rho V !! i = Some r ∧ v_height V !! i = Some h ∧
  basal_shift V !! i = Some b ∧ left_tip V !! i = Some lt ∧
  right_tip V !! i = Some rt.
Proof.
  unfold vert_loc. rewrite !upcast_singleton.
  destruct (v_pos V !! i), (v_rho V !! i), (v_height V !! i),
    (basal_shift V !! i), (left_tip V !! i), (right_tip V !! i);
    cbn; try discriminate.
  intros [= -> -> -> -> -> ->]. by repeat split.
Qed.

(** C10. When the edge has an opposite, [add_vert] returns the labels of
    the rows it appended, and in the sheet it leaves
    - the row of the new vertex is the mean, column by column, of the two
      rows of the endpoints: half the sum of the two positions, of the
      two ['rho'], of the two heights, of the two basal shifts and of
      the two flags of each tip;
    - the row of the new edge is the row of the split edge with the new
      vertex as its source, the row of the new opposite edge is the row
      of the opposite edge with the new vertex as its target: the face
      and every other column are copied. *)
Theorem add_vert_inherits (s : Sheet) (edge srce_ trgt_ opp_edge : nat)
    (p_s p_t : vec) (rho_s rho_t h_s h_t b_s b_t l_s l_t r_s r_t : R)
    (row opp_row : EdgeDF) :
  wf_vert (vert_df s) → wf_edge (edge_df s) →
  srce (edge_df s) !! edge = Some srce_ →
  trgt (edge_df s) !! edge = Some trgt_ →
  index0 (where2 (srce (edge_df s)) trgt_ (trgt (edge_df s)) srce_) = Ok opp_edge →
  vert_loc (vert_df s) [srce_]
  = Ok (mkVertDF [p_s] [rho_s] [h_s] [b_s] [l_s] [r_s]) →
  vert_loc (vert_df s) [trgt_]
  = Ok (mkVertDF [p_t] [rho_t] [h_t] [b_t] [l_t] [r_t]) →
  edge_loc (edge_df s) [edge] = Ok row →
  edge_loc (edge_df s) [opp_edge] = Ok opp_row →
  ∃ s', add_vert edge s
        = Run (Ok (n_verts s, n_edges s, S (n_edges s))) s' [] ∧
    vert_loc (vert_df s') [n_verts s]
    = Ok (mkVertDF [vdiv (vadd p_s p_t) 2] [(rho_s + rho_t) / 2]
            [(h_s + h_t) / 2] [(b_s + b_t) / 2] [(l_s + l_t) / 2]
            [(r_s + r_t) / 2]) ∧
    edge_loc (edge_df s') [n_edges s] = Ok (set_srce row [n_verts s]) ∧
    edge_loc (edge_df s') [S (n_edges s)] = Ok (set_trgt opp_row [n_verts s]).
Proof.
  intros Hwv Hwe Hs Ht Hopp
    (Hp1 & Hr1 & Hh1 & Hb1 & Hl1 & Hrt1)%vert_loc_singleton_inv
    (Hp2 & Hr2 & Hh2 & Hb2 & Hl2 & Hrt2)%vert_loc_singleton_inv Hrow Hopprow.
  assert (Hends : vert_loc (vert_df s) [srce_; trgt_]
                  = Ok (mkVertDF [p_s; p_t] [rho_s; rho_t] [h_s; h_t]
                          [b_s; b_t] [l_s; l_t] [r_s; r_t])).
  { unfold vert_loc. rewrite !upcast_pair.
    by rewrite Hp1, Hp2, Hr1, Hr2, Hh1, Hh2, Hb1, Hb2, Hl1, Hl2, Hrt1, Hrt2. }
  destruct (add_vert_appends s edge srce_ trgt_ opp_edge _ row opp_row
              Hwv Hwe Hs Ht Hopp Hends Hrow Hopprow)
    as (s' & Hrun & Hvert & Hedge & Hoppedge).
  exists s'. split; [exact Hrun|]. split; [|by split].
  rewrite Hvert. unfold vert_mean.
  cbn [v_pos v_rho v_height basal_shift left_tip right_tip].
  by rewrite vmean_pair, !mean_pair.
Qed.

Lemma add_vert_inherits_witness :
  ∃ s', add_vert 1 pillow = Run (Ok (4, 8, 9)%nat) s' [] ∧
    vert_loc (vert_df s') [4%nat]
    = Ok (mkVertDF [vdiv (vadd (mkV 1 0 0) (mkV 1 1 0)) 2] [(0 + 0) / 2]
            [(0 + 0) / 2] [(0 + 0) / 2] [(0 + 1) / 2] [(0 + 0) / 2]) ∧
    edge_loc (edge_df s') [8%nat]
    = Ok (mkEdgeDF [4%nat] [2%nat] [0%nat] [vzero] [vzero] [0] [0] [0] [2]) ∧
    edge_loc (edge_df s') [9%nat]
    = Ok (mkEdgeDF [2%nat] [4%nat] [1%nat] [vzero] [vzero] [0] [0] [0] [6]).
Proof.
  apply (add_vert_inherits pillow 1 1 2 5
           (mkV 1 0 0) (mkV 1 1 0) 0 0 0 0 0 0 0 1 0 0
           (mkEdgeDF [1%nat] [2%nat] [0%nat] [vzero] [vzero] [0] [0] [0] [2])
           (mkEdgeDF [2%nat] [1%nat] [1%nat] [vzero] [vzero] [0] [0] [0] [6])).
  - repeat split.
  - repeat split.
  - reflexivity.
  - reflexivity.
  - reflexivity.
  - reflexivity.
  - reflexivity.
  - reflexivity.
  - reflexivity.
Defined.

(** ** Topology: what a type 1 transition preserves *)

Lemma zsum_insert {A} (g : A → Z) (l : list A) (i : nat) (x y : A) :
  l !! i = Some y →
  zsum (map g (<[i:=x]> l)) = (zsum (map g l) - g y + g x)%Z.
Proof.
  unfold zsum.
  revert i. induction l as [|a l IH]; intros [|i] H; try discriminate.
  - injection H as ->. cbn. lia.
  - change (<[S i:=x]> (a :: l)) with (a :: <[i:=x]> l).
    cbn [map foldr]. rewrite (IH i H). lia.
Qed.

Lemma rows_lookup (E : EdgeDF) (i s t f : nat) :
  rows E !! i = Some (s, t, f) ↔
  srce E !! i = Some s ∧ trgt E !! i = Some t ∧ face E !! i = Some f.
Proof.
  unfold rows. rewrite lookup_zip_with_Some. split.
  - intros (st & f' & Heq & Hst & Hf). injection Heq as <- <-.
    apply lookup_zip_with_Some in Hst as (s' & t' & Heq & Hs & Ht).
    injection Heq as <- <-. done.
  - intros (Hs & Ht & Hf). exists (s, t), f. split; [done|]. split; [|done].
    apply lookup_zip_with_Some. by exists s, t.
Qed.

Lemma rows_assign_ends (E : EdgeDF) (i : nat) (stf : nat * nat * nat) :
  rows (assign_ends E i stf) = <[i := stf]> (rows E).
Proof.
  destruct stf as [[s t] f]. unfold rows, assign_ends, assign_face, assign_trgt,
    assign_srce, set_face, set_trgt, set_srce. cbn.
  by rewrite <- !insert_zip_with.
Qed.

Lemma rows_assign_face (E : EdgeDF) (i s t f0 f : nat) :
  rows E !! i = Some (s, t, f0) →
  rows (assign_face E i f) = <[i := (s, t, f)]> (rows E).
Proof.
  intros (Hs & Ht & Hf)%rows_lookup.
  unfold rows, assign_face, set_face. cbn.
  rewrite insert_zip_with. f_equal.
  symmetry. apply list_insert_id. apply lookup_zip_with_Some. by exists s, t.
Qed.

(** The six edges that a transition rewires are six different rows. *)
Lemma neighbours_distinct (s : Sheet) (edge01 : nat) (nb : neighbours) :
  no_loops (edge_df s) → half_edges_unique (edge_df s) →
  opposite_in_other_face (edge_df s) →
  interior_edge s edge01 nb →
  NoDup [edge01; nb_edge10 nb; nb_edge13 nb; nb_edge31 nb;
         nb_edge50 nb; nb_edge05 nb].
Proof.
  intros Hloop Huniq Hopp
    (Hs01 & Ht01 & Hf01 & [Hs10 Ht10]%where2_index0 & Hf10 &
     [Hs05 Hf05]%where2_index0 & Ht05 & [Hs50 Ht50]%where2_index0 & Hf50 &
     [Hs13 Hf13]%where2_index0 & Ht13 & [Hs31 Ht31]%where2_index0 & Hf31).
  destruct nb as [v0 v1 v3 v5 a b c d e10 e05 e50 e13 e31]. cbn in *.
  unfold no_loops, half_edges_unique, opposite_in_other_face in *.
  assert (v0 ≠ v1) by (intros ?; subst; exact (Hloop _ _ Hs01 Ht01)).
  assert (v5 ≠ v0) by (intros ?; subst; exact (Hloop _ _ Hs05 Ht05)).
  assert (v3 ≠ v1) by (intros ?; subst; exact (Hloop _ _ Hs13 Ht13)).
  assert (b ≠ d).
  { intros ?; subst. exact (Hopp _ _ _ _ _ Hs01 Ht01 Hs10 Ht10 Hf01 Hf10). }
  assert (v5 ≠ v1).
  { intros ?; subst.
    pose proof (Huniq _ _ _ _ Hs05 Ht05 Hs01 Ht01). congruence. }
  assert (v3 ≠ v0).
  { intros ?; subst.
    pose proof (Huniq _ _ _ _ Hs13 Ht13 Hs10 Ht10). congruence. }
  repeat (apply NoDup_cons; split;
          [rewrite ?not_elem_of_cons; repeat split;
           try apply not_elem_of_nil; intros ?; subst; congruence|]).
  apply NoDup_nil_2.
Qed.

Lemma refs_lookup (l : list nat) (n i v : nat) :
  Forall (λ v, (v < n)%nat) l → l !! i = Some v → (v < n)%nat.
Proof. intros H Hi. by eapply (Forall_lookup_1 _ l i v) in H. Qed.

Lemma loc_lt {A} (col : list A) (i : nat) :
  (i < length col)%nat → ∃ a, loc col i = Ok a.
Proof.
  intros [a Ha]%lookup_lt_is_Some_2. exists a. by apply loc_Ok.
Qed.

Lemma upcast_total {A} (d : A) (ids : list nat) (col : list A) :
  Forall (λ i, (i < length col)%nat) ids →
  upcast ids col = Ok (map (λ i, default d (col !! i)) ids).
Proof.
  intros H. unfold upcast.
  assert (mapM (λ i, col !! i) ids = Some (map (λ i, default d (col !! i)) ids))
    as ->; [|reflexivity].
  apply mapM_Some. induction H as [|i ids Hi _ IH]; cbn; constructor; [|done].
  apply lookup_lt_is_Some_2 in Hi as [a ->]. reflexivity.
Qed.

(** On a sheet whose edges refer to vertices of the sheet, [reset_topo]
    returns and rewrites the displacement vectors, one per edge, and
    nothing else. *)
Lemma reset_topo_run (s : Sheet) :
  length (trgt (edge_df s)) = length (srce (edge_df s)) →
  Forall (λ v, (v < n_verts s)%nat) (srce (edge_df s)) →
  Forall (λ v, (v < n_verts s)%nat) (trgt (edge_df s)) →
  ∃ d, length d = n_edges s ∧
    reset_topo s
    = Run (Ok tt) (with_edge_df s (set_dcoords (edge_df s) d)) [].
Proof.
  intros Hlen Hrs Hrt.
  pose proof (upcast_total vzero (srce (edge_df s)) (v_pos (vert_df s)) Hrs) as Hus.
  pose proof (upcast_total vzero (trgt (edge_df s)) (v_pos (vert_df s)) Hrt) as Hut.
  eexists. split; [|unfold reset_topo; m_step; reflexivity].
  unfold n_edges. rewrite length_zip_with, !length_map. lia.
Qed.

(** The references of the edge table a transition rewires are those of
    the sheet. *)
Lemma t1_refs (s : Sheet) (edge01 : nat) (nb : neighbours) (p0 p1 : vec) :
  wf_sheet s → interior_edge s edge01 nb →
  refs_ok
    (mkSheet
       (assign_pos (assign_pos (vert_df s) (nb_vert0 nb) p0) (nb_vert1 nb) p1)
       (assign_ends (assign_ends (assign_ends (assign_ends
          (assign_face (assign_face (edge_df s) edge01 (nb_cell_c nb))
             (nb_edge10 nb) (nb_cell_a nb))
          (nb_edge13 nb) (nb_vert0 nb, nb_vert3 nb, nb_cell_b nb))
          (nb_edge31 nb) (nb_vert3 nb, nb_vert0 nb, nb_cell_c nb))
          (nb_edge50 nb) (nb_vert5 nb, nb_vert1 nb, nb_cell_a nb))
          (nb_edge05 nb) (nb_vert1 nb, nb_vert5 nb, nb_cell_d nb))
       (face_df s) (settings s)).
Proof.
  intros (_ & _ & _ & Hrs & Hrt & Hrf)
    (Hs01 & Ht01 & Hf01 & H10 & Hf10 & H05 & Ht05 & H50 & Hf50 &
     H13 & Ht13 & H31 & Hf31).
  unfold refs_ok, n_verts, n_faces.
  cbn [vert_df edge_df face_df v_pos f_pos srce trgt face fst snd
       assign_ends assign_face assign_trgt assign_srce assign_pos
       set_face set_trgt set_srce set_v_pos].
  rewrite !length_insert.
  split; [|split]; repeat apply Forall_insert; try assumption.
  all: first [ exact (refs_lookup _ _ _ _ Hrs Hs01)
             | exact (refs_lookup _ _ _ _ Hrt Ht01)
             | exact (refs_lookup _ _ _ _ Hrt Ht13)
             | exact (refs_lookup _ _ _ _ Hrt Ht05)
             | exact (refs_lookup _ _ _ _ Hrf Hf01)
             | exact (refs_lookup _ _ _ _ Hrf Hf10)
             | exact (refs_lookup _ _ _ _ Hrf Hf50)
             | exact (refs_lookup _ _ _ _ Hrf Hf31) ].
Qed.

(** On an interior edge of a well-formed sheet the transition goes
    through; the edge table it leaves is the given one with six rows
    rewritten and the displacement vectors rebuilt, and two positions
    have moved. *)
Lemma type1_transition_run (s : Sheet) (edge01 : nat) (epsilon : R)
    (nb : neighbours) :
  wf_sheet s → interior_edge s edge01 nb →
  ∃ p0 p1 dc,
    length dc = n_edges s ∧
    type1_transition edge01 epsilon s
    = Run (Ok tt)
        (mkSheet
           (assign_pos (assign_pos (vert_df s) (nb_vert0 nb) p0) (nb_vert1 nb) p1)
           (set_dcoords
              (assign_ends
                 (assign_ends
                    (assign_ends
                       (assign_ends
                          (assign_face
                             (assign_face (edge_df s) edge01 (nb_cell_c nb))
                             (nb_edge10 nb) (nb_cell_a nb))
                          (nb_edge13 nb) (nb_vert0 nb, nb_vert3 nb, nb_cell_b nb))
                       (nb_edge31 nb) (nb_vert3 nb, nb_vert0 nb, nb_cell_c nb))
                    (nb_edge50 nb) (nb_vert5 nb, nb_vert1 nb, nb_cell_a nb))
                 (nb_edge05 nb) (nb_vert1 nb, nb_vert5 nb, nb_cell_d nb))
              dc)
           (face_df s) (settings s))
        [].
Proof.
  intros Hwf Hint.
  pose proof (λ p0 p1, t1_refs s edge01 nb p0 p1 Hwf Hint) as Hrefs.
  destruct Hwf as (_ & (Hlt & _) & _ & Hrs & Hrt & Hrf).
  destruct Hint as
    (Hs01 & Ht01 & Hf01 & H10 & Hf10 & H05 & Ht05 & H50 & Hf50 &
     H13 & Ht13 & H31 & Hf31).
  destruct nb as [v0 v1 v3 v5 a b c d e10 e05 e50 e13 e31]. cbn in *.
  destruct (loc_lt (v_pos (vert_df s)) v0) as [q0 Hq0];
    [exact (refs_lookup _ _ _ _ Hrs Hs01)|].
  destruct (loc_lt (v_pos (vert_df s)) v1) as [q1 Hq1];
    [exact (refs_lookup _ _ _ _ Hrt Ht01)|].
  destruct (loc_lt (f_pos (face_df s)) b) as [qb Hqb];
    [exact (refs_lookup _ _ _ _ Hrf Hf01)|].
  destruct (loc_lt (f_pos (face_df s)) d) as [qd Hqd];
    [exact (refs_lookup _ _ _ _ Hrf Hf10)|].
  apply loc_Ok in Hs01, Ht01, Hf01, Hf10, Ht05, Hf50, Ht13, Hf31.
  unfold type1_transition.
  m_step.
  match goal with
  | |- context [reset_topo ?s1] =>
      destruct (reset_topo_run s1) as (dc & Hdc & ->)
  end.
  - cbn [edge_df srce trgt assign_ends assign_face assign_trgt assign_srce
         set_face set_trgt set_srce fst snd].
    rewrite !length_insert. exact Hlt.
  - match goal with
    | |- context [assign_pos (assign_pos _ _ ?p0) _ ?p1] =>
        exact (proj1 (Hrefs p0 p1))
    end.
  - match goal with
    | |- context [assign_pos (assign_pos _ _ ?p0) _ ?p1] =>
        exact (proj1 (proj2 (Hrefs p0 p1)))
    end.
  - do 2 eexists. exists dc. split; [|reflexivity].
    rewrite Hdc. unfold n_edges.
    cbn [edge_df srce assign_ends assign_face assign_trgt assign_srce
         set_face set_trgt set_srce fst snd].
    by rewrite !length_insert.
Qed.

Lemma t1_balance (s : Sheet) (edge01 : nat) (nb : neighbours) (f v : nat) :
  no_loops (edge_df s) → half_edges_unique (edge_df s) →
  opposite_in_other_face (edge_df s) →
  interior_edge s edge01 nb →
  balance
    (assign_ends
       (assign_ends
          (assign_ends
             (assign_ends
                (assign_face
                   (assign_face (edge_df s) edge01 (nb_cell_c nb))
                   (nb_edge10 nb) (nb_cell_a nb))
                (nb_edge13 nb) (nb_vert0 nb, nb_vert3 nb, nb_cell_b nb))
             (nb_edge31 nb) (nb_vert3 nb, nb_vert0 nb, nb_cell_c nb))
          (nb_edge50 nb) (nb_vert5 nb, nb_vert1 nb, nb_cell_a nb))
       (nb_edge05 nb) (nb_vert1 nb, nb_vert5 nb, nb_cell_d nb)) f v
  = balance (edge_df s) f v.
Proof.
  intros Hloop Huniq Hopp Hint.
  pose proof (neighbours_distinct s edge01 nb Hloop Huniq Hopp Hint) as Hnd.
  destruct Hint as
    (Hs01 & Ht01 & Hf01 & [Hs10 Ht10]%where2_index0 & Hf10 &
     [Hs05 Hf05]%where2_index0 & Ht05 & [Hs50 Ht50]%where2_index0 & Hf50 &
     [Hs13 Hf13]%where2_index0 & Ht13 & [Hs31 Ht31]%where2_index0 & Hf31).
  destruct nb as [v0 v1 v3 v5 a b c d e10 e05 e50 e13 e31].
  cbn [nb_vert0 nb_vert1 nb_vert3 nb_vert5 nb_cell_a nb_cell_b nb_cell_c
       nb_cell_d nb_edge10 nb_edge05 nb_edge50 nb_edge13 nb_edge31] in *.
  repeat (apply NoDup_cons in Hnd as [?%not_elem_of_cons Hnd] ||
          apply NoDup_cons in Hnd as [_ Hnd]).
  repeat match goal with
         | H : _ ∧ _ |- _ => destruct H
         | H : _ ∉ _ :: _ |- _ => apply not_elem_of_cons in H
         end.
  assert (R01 : rows (edge_df s) !! edge01 = Some (v0, v1, b)) by by apply rows_lookup.
  assert (R10 : rows (edge_df s) !! e10 = Some (v1, v0, d)) by by apply rows_lookup.
  assert (R13 : rows (edge_df s) !! e13 = Some (v1, v3, b)) by by apply rows_lookup.
  assert (R31 : rows (edge_df s) !! e31 = Some (v3, v1, c)) by by apply rows_lookup.
  assert (R50 : rows (edge_df s) !! e50 = Some (v5, v0, a)) by by apply rows_lookup.
  assert (R05 : rows (edge_df s) !! e05 = Some (v0, v5, d)) by by apply rows_lookup.
  unfold balance.
  rewrite !rows_assign_ends.
  rewrite (rows_assign_face _ e10 v1 v0 d);
    [|rewrite (rows_assign_face _ edge01 v0 v1 b) by done;
      by rewrite list_lookup_insert_ne].
  rewrite (rows_assign_face _ edge01 v0 v1 b) by done.
  rewrite (zsum_insert _ _ e05 _ (v0, v5, d))
    by (by rewrite !list_lookup_insert_ne by done).
  rewrite (zsum_insert _ _ e50 _ (v5, v0, a))
    by (by rewrite !list_lookup_insert_ne by done).
  rewrite (zsum_insert _ _ e31 _ (v3, v1, c))
    by (by rewrite !list_lookup_insert_ne by done).
  rewrite (zsum_insert _ _ e13 _ (v1, v3, b))
    by (by rewrite !list_lookup_insert_ne by done).
  rewrite (zsum_insert _ _ e10 _ (v1, v0, d))
    by (by rewrite !list_lookup_insert_ne by done).
  rewrite (zsum_insert _ _ edge01 _ (v0, v1, b)) by done.
  unfold flux. cbn [fst snd].
  repeat case_decide; lia.
Qed.

(** *** Closed faces have no net displacement *)

Lemma vec_ext (p q : vec) :
  vx p = vx q → vy p = vy q → vz p = vz q → p = q.
Proof. destruct p, q. cbn. by intros -> -> ->. Qed.

Ltac vec_ring :=
  apply vec_ext; unfold vadd, vsub, vopp, vscale, vzero; cbn [vx vy vz];
  ring.

Lemma vsum_map_add {A} (h1 h2 : A → vec) (l : list A) :
  vsum (map (λ a, vadd (h1 a) (h2 a)) l)
  = vadd (vsum (map h1 l)) (vsum (map h2 l)).
Proof.
  induction l as [|a l IH]; cbn [map vsum foldr].
  - vec_ring.
  - fold (vsum (map (λ a, vadd (h1 a) (h2 a)) l)).
    fold (vsum (map h1 l)). fold (vsum (map h2 l)).
    rewrite IH. vec_ring.
Qed.

Lemma vsum_map_zero {A} (l : list A) : vsum (map (λ _, vzero) l) = vzero.
Proof.
  induction l as [|a l IH]; [reflexivity|].
  cbn [map vsum foldr]. fold (vsum (map (λ _ : A, vzero) l)).
  rewrite IH. vec_ring.
Qed.

Lemma vsum_map_opp {A} (h : A → vec) (l : list A) :
  vsum (map (λ a, vopp (h a)) l) = vopp (vsum (map h l)).
Proof.
  induction l as [|a l IH]; cbn [map vsum foldr].
  - vec_ring.
  - fold (vsum (map (λ a, vopp (h a)) l)). fold (vsum (map h l)).
    rewrite IH. vec_ring.
Qed.

(** Picking one term out of a sum over [a .. a + n - 1]. *)
Lemma vsum_pick (P : nat → vec) (x a n : nat) :
  vsum (map (λ v, if decide (x = v) then P v else vzero) (seq a n))
  = if decide (a ≤ x < a + n)%nat then P x else vzero.
Proof.
  revert a. induction n as [|n IH]; intros a.
  - cbn. case_decide; [lia|reflexivity].
  - cbn [seq map vsum foldr].
    fold (vsum (map (λ v, if decide (x = v) then P v else vzero) (seq (S a) n))).
    rewrite IH. repeat case_decide; subst; try lia; vec_ring.
Qed.

(** The net displacement of a face, in terms of the rows. *)
Lemma group_displacement (P : nat → vec) (sc tc fc : list nat) (f : nat) :
  length tc = length sc → length fc = length sc →
  vsum (group fc (zip_with vsub (map P tc) (map P sc)) f)
  = vsum (map (λ r, if decide (r.2 = f)
                    then vsub (P r.1.2) (P r.1.1) else vzero)
              (zip (zip sc tc) fc)).
Proof.
  unfold group.
  revert tc fc. induction sc as [|s sc IH]; intros [|t tc] [|f' fc] Ht Hf;
    try discriminate; [reflexivity|].
  cbn [map zip_with]. rewrite filter_cons. cbn [fst snd].
  case_decide.
  - cbn [fmap list_fmap vsum foldr map]. f_equal. apply IH; cbn in *; lia.
  - cbn [vsum foldr map].
    transitivity (vsum (map (λ r, if decide (r.2 = f)
                    then vsub (P r.1.2) (P r.1.1) else vzero)
              (zip (zip sc tc) fc))); [apply IH; cbn in *; lia|].
    unfold vsum. vec_ring.
Qed.

Lemma vsum_cons (p : vec) (l : list vec) : vsum (p :: l) = vadd p (vsum l).
Proof. reflexivity. Qed.

Lemma zsum_cons (z : Z) (l : list Z) : zsum (z :: l) = (z + zsum l)%Z.
Proof. reflexivity. Qed.

Lemma rows_displacement (P : nat → vec) (l : list (nat * nat * nat)) (f N : nat) :
  Forall (λ r, (r.1.1 < N)%nat ∧ (r.1.2 < N)%nat) l →
  vsum (map (λ r, if decide (r.2 = f)
                  then vsub (P r.1.2) (P r.1.1) else vzero) l)
  = vsum (map (λ v, vscale (IZR (- zsum (map (flux f v) l))) (P v)) (seq 0 N)).
Proof.
  induction 1 as [|[[s t] f'] l [Hs Ht] Hl IH].
  - change (vsum (map _ [])) with vzero.
    rewrite (map_ext _ (λ _, vzero)); [by rewrite vsum_map_zero|].
    intros v. cbn [map zsum foldr]. rewrite opp_IZR. vec_ring.
  - rewrite map_cons, vsum_cons, IH. cbn [fst snd] in *.
    rewrite (map_ext (λ v, vscale (IZR (- zsum (map (flux f v) ((s, t, f') :: l)))) (P v))
      (λ v, vadd (vscale (IZR (- flux f v (s, t, f'))) (P v))
                 (vscale (IZR (- zsum (map (flux f v) l))) (P v)))).
    2:{ intros v. rewrite map_cons, zsum_cons, !opp_IZR, plus_IZR. vec_ring. }
    rewrite vsum_map_add. f_equal.
    unfold flux. cbn [fst snd]. case_decide.
    + rewrite (map_ext _ (λ v, vadd (if decide (t = v) then P v else vzero)
        (vopp (if decide (s = v) then P v else vzero)))).
      2:{ intros v. rewrite opp_IZR, minus_IZR.
          repeat case_decide; vec_ring. }
      rewrite vsum_map_add, vsum_map_opp, !vsum_pick.
      rewrite !decide_True by lia. vec_ring.
    + rewrite (map_ext _ (λ _, vzero)).
      2:{ intros v. rewrite opp_IZR. vec_ring. }
      symmetry. apply vsum_map_zero.
Qed.

(** On a sheet whose faces are closed, the displacement vectors that
    [update_dcoords] computes sum to zero around every face, whatever
    the positions of the vertices. *)
Lemma closed_faces_displacement (s : Sheet) :
  length (trgt (edge_df s)) = length (srce (edge_df s)) →
  length (face (edge_df s)) = length (srce (edge_df s)) →
  refs_ok s → closed_faces s →
  ∃ s', update_dcoords s = Run (Ok tt) s' [] ∧
        ∀ f, face_displacement s' f = vzero.
Proof.
  intros Hlt Hlf (Hrs & Hrt & _) Hclosed.
  pose proof (upcast_total vzero (srce (edge_df s)) (v_pos (vert_df s)) Hrs) as Hus.
  pose proof (upcast_total vzero (trgt (edge_df s)) (v_pos (vert_df s)) Hrt) as Hut.
  unfold update_dcoords. m_step. eexists. split; [reflexivity|].
  intros f. unfold face_displacement. cbn [edge_df face dcoords].
  set (P := λ i, default vzero (v_pos (vert_df s) !! i)).
  rewrite (group_displacement P) by done.
  rewrite (rows_displacement P _ f (length (v_pos (vert_df s)))).
  - rewrite (map_ext _ (λ _, vzero)); [apply vsum_map_zero|].
    intros v. specialize (Hclosed f v). unfold balance, rows in Hclosed.
    rewrite Hclosed, opp_IZR. vec_ring.
  - apply Forall_forall. intros [[a b] c] Hin. cbn [fst snd].
    apply list_elem_of_lookup in Hin as [i Hi].
    apply (rows_lookup (edge_df s)) in Hi as (Ha & Hb & _).
    split; [exact (refs_lookup _ _ _ _ Hrs Ha)|exact (refs_lookup _ _ _ _ Hrt Hb)].
Qed.

(** Projections of a rewired table, without unfolding it whole. *)
Ltac edge_simpl :=
  cbn [vert_df edge_df face_df v_pos f_pos srce trgt face fst snd
       assign_ends assign_face assign_trgt assign_srce assign_pos
       set_face set_trgt set_srce set_v_pos set_dcoords].

(** C7. On a valid mesh (well-formed tables, half-edge invariants, closed
    faces) and an edge whose neighbours are all found, the transition
    goes through and keeps the number of vertices, edges and faces; every
    face of the sheet it leaves is closed, so that the displacement
    vectors recomputed from the new positions sum to zero around every
    face. *)
Theorem type1_transition_preserves (s : Sheet) (edge01 : nat) (epsilon : R)
    (nb : neighbours) :
  valid_mesh s → interior_edge s edge01 nb →
  ∃ s', type1_transition edge01 epsilon s = Run (Ok tt) s' [] ∧
    n_verts s' = n_verts s ∧ n_edges s' = n_edges s ∧
    n_faces s' = n_faces s ∧
    closed_faces s' ∧
    ∃ s'', update_dcoords s' = Run (Ok tt) s'' [] ∧
           ∀ f, face_displacement s'' f = vzero.
Proof.
  intros (Hwf & Hloop & Huniq & Hopp & Hclosed) Hint.
  destruct (type1_transition_run s edge01 epsilon nb Hwf Hint)
    as (p0 & p1 & dc & Hdc & Hrun).
  eexists. split; [exact Hrun|].
  pose proof (t1_refs s edge01 nb p0 p1 Hwf Hint) as Hrefs.
  assert (Hcl' : closed_faces
    (mkSheet
       (assign_pos (assign_pos (vert_df s) (nb_vert0 nb) p0) (nb_vert1 nb) p1)
       (set_dcoords (assign_ends (assign_ends (assign_ends (assign_ends
          (assign_face (assign_face (edge_df s) edge01 (nb_cell_c nb))
             (nb_edge10 nb) (nb_cell_a nb))
          (nb_edge13 nb) (nb_vert0 nb, nb_vert3 nb, nb_cell_b nb))
          (nb_edge31 nb) (nb_vert3 nb, nb_vert0 nb, nb_cell_c nb))
          (nb_edge50 nb) (nb_vert5 nb, nb_vert1 nb, nb_cell_a nb))
          (nb_edge05 nb) (nb_vert1 nb, nb_vert5 nb, nb_cell_d nb)) dc)
       (face_df s) (settings s))).
  { intros f v. cbn [edge_df].
    change (balance (set_dcoords ?E dc) f v) with (balance E f v).
    rewrite t1_balance by assumption. apply Hclosed. }
  destruct Hwf as (_ & (Hlt & Hlf & _) & _ & Hrs & Hrt & Hrf).
  split; [|split; [|split; [|split]]].
  - unfold n_verts. edge_simpl. by rewrite !length_insert.
  - unfold n_edges. edge_simpl. by rewrite !length_insert.
  - reflexivity.
  - assumption.
  - apply closed_faces_displacement; [| |exact Hrefs|assumption].
    + edge_simpl. by rewrite !length_insert.
    + edge_simpl. by rewrite !length_insert.
Qed.

Ltac nil_or_congruence :=
  first [ congruence
        | match goal with
          | H : [] !! ?i = Some _ |- _ => by destruct i
          end ].

Lemma pillow_valid : valid_mesh pillow.
Proof.
  split; [|split; [|split; [|split]]].
  - split; [|split; [|split]].
    + repeat split.
    + repeat split.
    + repeat split.
    + unfold refs_ok, n_verts, n_faces. cbn.
      repeat split; repeat constructor.
  - intros i v.
    destruct i as [|[|[|[|[|[|[|[|i]]]]]]]]; cbn; unfold not; intros; nil_or_congruence.
  - intros i j u v.
    destruct i as [|[|[|[|[|[|[|[|i]]]]]]]];
    destruct j as [|[|[|[|[|[|[|[|j]]]]]]]]; cbn; unfold not; intros; nil_or_congruence.
  - intros i j u v f.
    destruct i as [|[|[|[|[|[|[|[|i]]]]]]]];
    destruct j as [|[|[|[|[|[|[|[|j]]]]]]]]; cbn; unfold not; intros; nil_or_congruence.
  - intros f v. unfold balance, rows, flux. cbn.
    repeat case_decide; lia.
Qed.

Lemma pillow_interior :
  interior_edge pillow 0 (mkNeighbours 0 1 2 3 0 0 1 1 4 7 3 1 5).
Proof. repeat split. Qed.

Lemma type1_transition_preserves_witness :
  ∃ s', type1_transition 0 (1/10) pillow = Run (Ok tt) s' [] ∧
    n_verts s' = n_verts pillow ∧ n_edges s' = n_edges pillow ∧
    n_faces s' = n_faces pillow ∧
    closed_faces s' ∧
    ∃ s'', update_dcoords s' = Run (Ok tt) s'' [] ∧
           ∀ f, face_displacement s'' f = vzero.
Proof.
  exact (type1_transition_preserves pillow 0 (1/10)
           (mkNeighbours 0 1 2 3 0 0 1 1 4 7 3 1 5)
           pillow_valid pillow_interior).
Defined.

(** ** Topology: a lookup of the transition that matches no edge, or
    several *)

Lemma index0_nil : index0 [] = Raise IndexError.
Proof. reflexivity. Qed.

(** Every lookup of an edge comes before the first assignment: when one
    of them matches no edge the transition raises with the sheet
    untouched. *)
Lemma type1_transition_unresolved (edge01 : nat) (epsilon : R) (s : Sheet) :
  unresolved_lookup s edge01 →
  type1_transition edge01 epsilon s = Run (Raise IndexError) s [].
Proof.
  intros (v0 & v1 & b & Hs%loc_Ok & Ht%loc_Ok & Hf%loc_Ok & H).
  unfold type1_transition.
  destruct H as [H10|(e10 & d & H10 & Hf10%loc_Ok & H)].
  { pose proof index0_nil as Hnil. rewrite <- H10 in Hnil.
    by m_step. }
  destruct H as [H05|(e05 & v5 & H05 & Ht05%loc_Ok & H)].
  { pose proof index0_nil as Hnil. rewrite <- H05 in Hnil.
    by m_step. }
  destruct H as [H50|(e50 & a & H50 & Hf50%loc_Ok & H)].
  { pose proof index0_nil as Hnil. rewrite <- H50 in Hnil.
    by m_step. }
  destruct H as [H13|(e13 & v3 & H13 & Ht13%loc_Ok & H31)].
  { pose proof index0_nil as Hnil. rewrite <- H13 in Hnil.
    by m_step. }
  pose proof index0_nil as Hnil. rewrite <- H31 in Hnil.
  by m_step.
Qed.

Lemma where2_lt (c1 c2 : list nat) (v1 v2 i : nat) :
  index0 (where2 c1 v1 c2 v2) = Ok i → (i < length c1)%nat.
Proof.
  intros [H _]%where2_index0. by apply lookup_lt_Some in H.
Qed.

Lemma index0_cases (sel : list nat) : sel = [] ∨ ∃ i, index0 sel = Ok i.
Proof. destruct sel as [|i sel]; [by left|right; by exists i]. Qed.

(** On a well-formed sheet the lookups around an edge of the sheet have
    two outcomes: one of them matches no edge, or each of them finds an
    edge. *)
Lemma lookups_resolve_or_not (s : Sheet) (edge01 : nat) :
  wf_sheet s → (edge01 < n_edges s)%nat →
  unresolved_lookup s edge01 ∨ ∃ nb, interior_edge s edge01 nb.
Proof.
  intros (_ & (He1 & He2 & _) & _) He. unfold n_edges in He.
  unfold unresolved_lookup, interior_edge.
  set (E := edge_df s) in *.
  destruct (lookup_lt_is_Some_2 (srce E) edge01) as [v0 Hs]; [lia|].
  destruct (lookup_lt_is_Some_2 (trgt E) edge01) as [v1 Ht]; [lia|].
  destruct (lookup_lt_is_Some_2 (face E) edge01) as [b Hf]; [lia|].
  destruct (index0_cases (where2 (srce E) v1 (trgt E) v0))
    as [H10|[e10 H10]].
  { left. exists v0, v1, b. by auto. }
  pose proof (where2_lt _ _ _ _ _ H10) as L10.
  destruct (lookup_lt_is_Some_2 (face E) e10) as [d Hf10]; [lia|].
  destruct (index0_cases (where2 (srce E) v0 (face E) d))
    as [H05|[e05 H05]].
  { left. exists v0, v1, b. repeat (split; [done|]).
    right. exists e10, d. by auto. }
  pose proof (where2_lt _ _ _ _ _ H05) as L05.
  destruct (lookup_lt_is_Some_2 (trgt E) e05) as [v5 Ht05]; [lia|].
  destruct (index0_cases (where2 (srce E) v5 (trgt E) v0))
    as [H50|[e50 H50]].
  { left. exists v0, v1, b. repeat (split; [done|]).
    right. exists e10, d. repeat (split; [done|]).
    right. exists e05, v5. by auto. }
  pose proof (where2_lt _ _ _ _ _ H50) as L50.
  destruct (lookup_lt_is_Some_2 (face E) e50) as [a Hf50]; [lia|].
  destruct (index0_cases (where2 (srce E) v1 (face E) b))
    as [H13|[e13 H13]].
  { left. exists v0, v1, b. repeat (split; [done|]).
    right. exists e10, d. repeat (split; [done|]).
    right. exists e05, v5. repeat (split; [done|]).
    right. exists e50, a. by auto. }
  pose proof (where2_lt _ _ _ _ _ H13) as L13.
  destruct (lookup_lt_is_Some_2 (trgt E) e13) as [v3 Ht13]; [lia|].
  destruct (index0_cases (where2 (srce E) v3 (trgt E) v1))
    as [H31|[e31 H31]].
  { left. exists v0, v1, b. repeat (split; [done|]).
    right. exists e10, d. repeat (split; [done|]).
    right. exists e05, v5. repeat (split; [done|]).
    right. exists e50, a. repeat (split; [done|]).
    right. exists e13, v3. by auto. }
  pose proof (where2_lt _ _ _ _ _ H31) as L31.
  destruct (lookup_lt_is_Some_2 (face E) e31) as [c Hf31]; [lia|].
  right. exists (mkNeighbours v0 v1 v3 v5 a b c d e10 e05 e50 e13 e31).
  by repeat split.
Qed.

Lemma square_wf : wf_sheet square.
Proof.
  split; [|split; [|split]].
  - repeat split.
  - repeat split.
  - repeat split.
  - unfold refs_ok, n_verts, n_faces. cbn. repeat split; repeat constructor.
Qed.

Lemma pillow_twice_wf : wf_sheet pillow_twice.
Proof.
  split; [|split; [|split]].
  - repeat split.
  - repeat split.
  - repeat split.
  - unfold refs_ok, n_verts, n_faces. cbn.
    repeat split; repeat constructor.
Qed.

Lemma pillow_twice_interior :
  interior_edge pillow_twice 0 (mkNeighbours 0 1 2 3 0 0 1 1 4 7 3 1 5).
Proof. repeat split. Qed.

(** C4, amended.  On a well-formed sheet the five edge lookups around an
    edge of the sheet either all find an edge or one of them matches
    none.  When one matches no edge the transition raises [IndexError]:
    the sheet is the one that was given and nothing is logged, every
    lookup coming before the first assignment.  When each of them
    matches an edge, one or several, the transition goes through and
    logs nothing; the six rows it rewires are those of the first match
    of each lookup. *)
Theorem type1_transition_unresolved_lookup (edge01 : nat) (epsilon : R)
    (s : Sheet) :
  wf_sheet s → (edge01 < n_edges s)%nat →
  (unresolved_lookup s edge01 ∨ ∃ nb, interior_edge s edge01 nb) ∧
  (unresolved_lookup s edge01 →
   type1_transition edge01 epsilon s = Run (Raise IndexError) s []) ∧
  (∀ nb, interior_edge s edge01 nb →
   ∃ p0 p1 dc,
     type1_transition edge01 epsilon s
     = Run (Ok tt)
         (mkSheet
            (assign_pos (assign_pos (vert_df s) (nb_vert0 nb) p0)
               (nb_vert1 nb) p1)
            (set_dcoords
               (assign_ends
                  (assign_ends
                     (assign_ends
                        (assign_ends
                           (assign_face
                              (assign_face (edge_df s) edge01 (nb_cell_c nb))
                              (nb_edge10 nb) (nb_cell_a nb))
                           (nb_edge13 nb)
                           (nb_vert0 nb, nb_vert3 nb, nb_cell_b nb))
                        (nb_edge31 nb)
                        (nb_vert3 nb, nb_vert0 nb, nb_cell_c nb))
                     (nb_edge50 nb) (nb_vert5 nb, nb_vert1 nb, nb_cell_a nb))
                  (nb_edge05 nb) (nb_vert1 nb, nb_vert5 nb, nb_cell_d nb))
               dc)
            (face_df s) (settings s))
         []).
Proof.
  intros Hwf He. split; [by apply lookups_resolve_or_not|].
  split; [apply type1_transition_unresolved|].
  intros nb Hint.
  destruct (type1_transition_run s edge01 epsilon nb Hwf Hint)
    as (p0 & p1 & dc & _ & Hrun).
  by exists p0, p1, dc.
Qed.

(** On the boundary edge [0] of the square the transition raises.  On
    the sheet where the opposite of edge [0] is stored twice, as edges
    [4] and [8], it returns: edge [4], the first match, has changed
    face, edge [8] is as it was. *)
Lemma type1_transition_unresolved_lookup_witness :
  type1_transition 0 (1/10) square = Run (Raise IndexError) square [] ∧
  where2 (srce (edge_df pillow_twice)) 1 (trgt (edge_df pillow_twice)) 0
  = [4; 8]%nat ∧
  result (type1_transition 0 (1/10) pillow_twice) = Ok tt ∧
  logged (type1_transition 0 (1/10) pillow_twice) = [] ∧
  face (edge_df pillow_twice) !! 4%nat = Some 1%nat ∧
  face (edge_df (final (type1_transition 0 (1/10) pillow_twice))) !! 4%nat
  = Some 0%nat ∧
  face (edge_df (final (type1_transition 0 (1/10) pillow_twice))) !! 8%nat
  = Some 1%nat.
Proof.
  split; [|split; [reflexivity|]].
  - apply (type1_transition_unresolved_lookup 0 (1/10) square square_wf);
      [cbn; lia|].
    exists 0%nat, 1%nat, 0%nat. repeat (split; [reflexivity|]).
    left. reflexivity.
  - destruct (proj2 (proj2 (type1_transition_unresolved_lookup 0 (1/10)
                              pillow_twice pillow_twice_wf
                              ltac:(cbn; lia)))
                _ pillow_twice_interior) as (p0 & p1 & dc & ->).
    cbn [result logged final]. by repeat split.
Defined.

(** ** Mechanical model: the energy *)

Lemma fsum_cons (x : R) (l : list R) : fsum (x :: l) = x + fsum l.
Proof. reflexivity. Qed.

Lemma fsum_map_div (l : list R) (N : R) :
  fsum (map (λ e, e / N) l) = fsum l / N.
Proof.
  induction l as [|x l IH]; [cbn; lra|].
  rewrite map_cons, !fsum_cons, IH. lra.
Qed.

Lemma fsum_zip_plus (a b : list R) :
  length a = length b →
  fsum (zip_with Rplus a b) = fsum a + fsum b.
Proof.
  revert b. induction a as [|x a IH]; intros [|y b] H; try discriminate.
  - cbn. lra.
  - cbn [zip_with]. rewrite !fsum_cons, IH by (cbn in H; lia). lra.
Qed.

Lemma select_cons {A} (mi : bool) (m : list bool) (x : A) (a : list A) :
  select (mi :: m) (x :: a) = if mi then x :: select m a else select m a.
Proof.
  unfold select. cbn [zip_with]. rewrite filter_cons. cbn [fst].
  destruct mi; case_decide; try done.
Qed.

Lemma length_select {A B} (m : list bool) (a : list A) (b : list B) :
  length a = length m → length b = length m →
  length (select m a) = length (select m b).
Proof.
  revert a b. induction m as [|mi m IH]; intros [|x a] [|y b] Ha Hb;
    try discriminate; [reflexivity|].
  rewrite !select_cons. destruct mi; cbn [length]; rewrite (IH a b); auto.
Qed.

Lemma map_seq_S {A} (F : nat → A) (n : nat) :
  map F (seq 1 n) = map (λ i, F (S i)) (seq 0 n).
Proof. by rewrite <- seq_shift, map_map. Qed.

(** A sum over the selected rows is a sum over all the labels, the rows
    out of the selection counting as [0]. *)
Lemma fsum_select {A B} (f : A → B → R) (m : list bool) (a : list A) (b : list B) :
  length a = length m → length b = length m →
  fsum (zip_with f (select m a) (select m b))
  = fsum (map (λ i, match m !! i, a !! i, b !! i with
                    | Some true, Some x, Some y => f x y
                    | _, _, _ => 0
                    end) (seq 0 (length m))).
Proof.
  revert a b. induction m as [|mi m IH]; intros [|x a] [|y b] Ha Hb;
    try discriminate; [reflexivity|].
  rewrite !select_cons. cbn [length seq]. rewrite map_cons, fsum_cons.
  rewrite map_seq_S.
  rewrite (map_ext _ (λ i, match m !! i, a !! i, b !! i with
                           | Some true, Some x, Some y => f x y
                           | _, _, _ => 0
                           end)) by reflexivity.
  rewrite <- (IH a b) by (cbn in *; lia).
  destruct mi; [cbn [zip_with]; rewrite fsum_cons|]; cbn; lra.
Qed.

Lemma select_zip {A B} (m : list bool) (a : list A) (b : list B) :
  length a = length m → length b = length m →
  zip (select m a) (select m b) = select m (zip a b).
Proof.
  revert a b. induction m as [|mi m IH]; intros [|x a] [|y b] Ha Hb;
    try discriminate; [reflexivity|].
  cbn [zip_with]. rewrite !select_cons. destruct mi; cbn [zip_with];
    rewrite IH by (cbn in *; lia); reflexivity.
Qed.

Lemma upcast_lookup {A} (ids : list nat) (col l : list A) (i : nat) :
  upcast ids col = Ok l → l !! i = ids !! i ≫= (λ j, col !! j).
Proof.
  unfold upcast. destruct (mapM _ ids) as [l'|] eqn:Hm; [|discriminate].
  intros [= <-]. apply mapM_Some in Hm.
  revert i. induction Hm as [|j x ids l' Hj _ IH]; intros [|i]; cbn; auto.
Qed.

Lemma upcast_length {A} (ids : list nat) (col l : list A) :
  upcast ids col = Ok l → length l = length ids.
Proof.
  unfold upcast. destruct (mapM _ ids) as [l'|] eqn:Hm; [|discriminate].
  intros [= <-]. symmetry. by apply length_mapM in Hm.
Qed.

Lemma length_eq1 (col : list R) : length (eq1 col) = length col.
Proof. unfold eq1. by rewrite length_map. Qed.

Lemma lookup_eq1 (col : list R) (i : nat) :
  eq1 col !! i = (λ x, bool_decide (x = 1)) <$> col !! i.
Proof. unfold eq1. apply list_lookup_fmap. Qed.

(** The three sums of [compute_energy] are those of the specification. *)
Lemma tension_sum (s : Sheet) (upcast_alive : list R) :
  wf_sheet s →
  upcast_face s (is_alive (face_df s)) = Ok upcast_alive →
  fsum (zip_with (λ lt l, lt * l / 2)
          (select (eq1 upcast_alive) (line_tension (edge_df s)))
          (select (eq1 upcast_alive) (e_length (edge_df s))))
  = tension_energy s.
Proof.
  intros (_ & (He1 & He2 & He3 & He4 & He5 & He6 & He7 & He8) & _ & _) Hua.
  pose proof (upcast_length _ _ _ Hua) as Hlen.
  rewrite fsum_select by (rewrite length_eq1; congruence).
  unfold tension_energy, n_edges. rewrite length_eq1, Hlen, He2.
  f_equal. apply map_ext_in. intros e [_ He]%in_seq.
  unfold edge_live, at0. rewrite lookup_eq1, (upcast_lookup _ _ _ e Hua).
  destruct (lookup_lt_is_Some_2 (face (edge_df s)) e) as [f ->]; [lia|].
  destruct (lookup_lt_is_Some_2 (line_tension (edge_df s)) e) as [lt ->]; [lia|].
  destruct (lookup_lt_is_Some_2 (e_length (edge_df s)) e) as [l ->]; [lia|].
  cbn. destruct (is_alive (face_df s) !! f) as [al|]; cbn.
  - rewrite (bool_decide_ext (Some al = Some 1) (al = 1)) by naive_solver.
    by destruct (bool_decide (al = 1)).
  - rewrite bool_decide_false by discriminate. reflexivity.
Qed.

Lemma face_mask (s : Sheet) (f : nat) (al : R) :
  is_alive (face_df s) !! f = Some al →
  bool_decide (al = 1) = face_live s f.
Proof.
  intros H. unfold face_live. rewrite H.
  apply bool_decide_ext. naive_solver.
Qed.

Lemma contractility_sum (s : Sheet) :
  wf_face (face_df s) →
  fsum (zip_with (λ c p, 0.5 * c * p ^ 2)
          (select (eq1 (is_alive (face_df s))) (contractility (face_df s)))
          (select (eq1 (is_alive (face_df s))) (perimeter (face_df s))))
  = contractility_energy s.
Proof.
  intros (Hf1 & Hf2 & Hf3 & Hf4 & Hf5 & Hf6 & Hf7 & Hf8 & Hf9).
  rewrite fsum_select by (rewrite length_eq1; congruence).
  unfold contractility_energy, n_faces. rewrite length_eq1, Hf6.
  f_equal. apply map_ext_in. intros f [_ Hf]%in_seq.
  unfold at0. rewrite lookup_eq1.
  destruct (lookup_lt_is_Some_2 (is_alive (face_df s)) f) as [al Hal]; [lia|].
  destruct (lookup_lt_is_Some_2 (contractility (face_df s)) f) as [c ->]; [lia|].
  destruct (lookup_lt_is_Some_2 (perimeter (face_df s)) f) as [p ->]; [lia|].
  rewrite Hal. cbn. rewrite (face_mask s f al Hal).
  by destruct (face_live s f).
Qed.

Lemma volume_sum (s : Sheet) :
  wf_face (face_df s) →
  fsum (elastic_energy
          (select (eq1 (is_alive (face_df s))) (vol (face_df s)))
          (select (eq1 (is_alive (face_df s))) (vol_elasticity (face_df s)))
          (select (eq1 (is_alive (face_df s))) (prefered_vol (face_df s))))
  = volume_energy s.
Proof.
  intros (Hf1 & Hf2 & Hf3 & Hf4 & Hf5 & Hf6 & Hf7 & Hf8 & Hf9).
  unfold elastic_energy.
  rewrite select_zip by (rewrite length_eq1; congruence).
  rewrite fsum_select
    by (rewrite ?length_zip_with, length_eq1; lia).
  unfold volume_energy, n_faces. rewrite length_eq1, Hf6.
  f_equal. apply map_ext_in. intros f [_ Hf]%in_seq.
  unfold at0. rewrite lookup_eq1, lookup_zip_with.
  destruct (lookup_lt_is_Some_2 (is_alive (face_df s)) f) as [al Hal]; [lia|].
  destruct (lookup_lt_is_Some_2 (vol_elasticity (face_df s)) f) as [k ->]; [lia|].
  destruct (lookup_lt_is_Some_2 (vol (face_df s)) f) as [v ->]; [lia|].
  destruct (lookup_lt_is_Some_2 (prefered_vol (face_df s)) f) as [v0 ->]; [lia|].
  rewrite Hal. cbn. rewrite (face_mask s f al Hal).
  by destruct (face_live s f).
Qed.

Lemma upcast_face_alive (s : Sheet) :
  wf_sheet s →
  ∃ ua, upcast_face s (is_alive (face_df s)) = Ok ua.
Proof.
  intros (_ & _ & (Hf1 & Hf2 & Hf3 & Hf4 & Hf5 & Hf6 & _) & _ & _ & Hrf).
  eexists. unfold upcast_face. apply (upcast_total 0).
  eapply Forall_impl; [exact Hrf|]. unfold n_faces. intros f Hf. cbn in Hf. lia.
Qed.

Lemma edge_mask (s : Sheet) (ua : list R) (e : nat) :
  upcast_face s (is_alive (face_df s)) = Ok ua →
  (e < length (face (edge_df s)))%nat →
  eq1 ua !! e = Some (edge_live s e).
Proof.
  intros Hua He. unfold edge_live.
  rewrite lookup_eq1, (upcast_lookup _ _ _ e Hua).
  destruct (lookup_lt_is_Some_2 (face (edge_df s)) e) as [f Hf]; [lia|].
  rewrite Hf. cbn.
  pose proof (upcast_length _ _ _ Hua) as Hlen.
  destruct (lookup_lt_is_Some_2 ua e) as [al Hal]; [unfold upcast_face in *; lia|].
  rewrite (upcast_lookup _ _ _ e Hua), Hf in Hal. cbn in Hal. rewrite Hal. cbn.
  f_equal. apply bool_decide_ext. naive_solver.
Qed.

(** The selected rows, combined two columns at a time, are the
    combinations at the selected labels, in stored order. *)
Lemma zip_with_select {A B C} (f : A → B → C) (F : nat → C) (P : nat → Prop)
    `{!∀ i, Decision (P i)} (m : list bool) (a : list A) (b : list B)
    (k : nat) :
  length a = length m → length b = length m →
  (∀ i, (i < length m)%nat → m !! i = Some true ↔ P (k + i)%nat) →
  (∀ i x y, a !! i = Some x → b !! i = Some y → F (k + i)%nat = f x y) →
  zip_with f (select m a) (select m b) = map F (filter P (seq k (length m))).
Proof.
  revert a b k. induction m as [|mi m IH]; intros [|x a] [|y b] k Ha Hb HP HF;
    try discriminate; [reflexivity|].
  rewrite !select_cons. cbn [length seq]. rewrite filter_cons.
  assert (Hrest : zip_with f (select m a) (select m b)
                  = map F (filter P (seq (S k) (length m)))).
  { apply IH; [cbn in Ha; lia|cbn in Hb; lia| |].
    - intros i Hi.
      pose proof (HP (S i) ltac:(cbn; lia)) as HPi. cbn in HPi.
      by replace (S k + i)%nat with (k + S i)%nat by lia.
    - intros i x' y' Hx Hy.
      replace (S k + i)%nat with (k + S i)%nat by lia.
      by apply HF. }
  pose proof (HP 0%nat ltac:(cbn; lia)) as HP0. cbn in HP0.
  pose proof (HF 0%nat x y eq_refl eq_refl) as HF0.
  rewrite Nat.add_0_r in HP0, HF0.
  destruct mi; case_decide.
  - cbn [zip_with map]. by rewrite Hrest, HF0.
  - match goal with Hn : ¬ P _ |- _ => destruct Hn; by apply HP0 end.
  - match goal with Hp : P _ |- _ => apply HP0 in Hp; discriminate end.
  - exact Hrest.
Qed.

(** C2, amended. On a well-formed sheet [compute_energy] returns the
    energy of the specification: the tension of the edges of the live
    faces plus the contractility and volume terms of the live faces,
    divided by the energy norm factor.  With [full_output] it hands back
    the three components as series: the tension series has one entry per
    edge of a live face, in stored order, the energy of that edge
    divided by the norm factor; the two others have one entry per live
    face, the contractility, resp. volume, energy of that face divided
    by the norm factor.  The sum of each series is the normalised
    component. *)
Theorem compute_energy_spec (s : Sheet) :
  wf_sheet s →
  let N := nrj_norm_factor (settings s) in
  let live_edges := filter (λ e, edge_live s e = true) (seq 0 (n_edges s)) in
  let live_faces := filter (λ f, face_live s f = true) (seq 0 (n_faces s)) in
  compute_energy s false = Ok (Float (energy_spec s)) ∧
  ∃ e_t e_c e_v,
    compute_energy s true = Ok (Tuple3 (Series e_t) (Series e_c) (Series e_v)) ∧
    e_t = map (λ e, at0 (line_tension (edge_df s)) e
                    * at0 (e_length (edge_df s)) e / 2 / N) live_edges ∧
    e_c = map (λ f, 0.5 * at0 (contractility (face_df s)) f
                    * at0 (perimeter (face_df s)) f ^ 2 / N) live_faces ∧
    e_v = map (λ f, 0.5 * at0 (vol_elasticity (face_df s)) f
                    * (at0 (vol (face_df s)) f
                       - at0 (prefered_vol (face_df s)) f) ^ 2 / N)
              live_faces ∧
    fsum e_t = tension_energy s / N ∧
    fsum e_c = contractility_energy s / N ∧
    fsum e_v = volume_energy s / N ∧
    length e_t = length live_edges ∧
    length e_c = length live_faces ∧
    length e_v = length live_faces.
Proof.
  intros Hwf N live_edges live_faces.
  destruct (upcast_face_alive s Hwf) as [ua Hua].
  pose proof (tension_sum s ua Hwf Hua) as Ht.
  destruct Hwf as (_ & Hwe & Hwff & _).
  pose proof (contractility_sum s Hwff) as Hc.
  pose proof (volume_sum s Hwff) as Hv.
  pose proof (upcast_length _ _ _ Hua) as Hlen. unfold upcast_face in Hlen.
  destruct Hwe as (He1 & He2 & He3 & He4 & He5 & He6 & He7 & He8).
  destruct Hwff as (Hf1 & Hf2 & Hf3 & Hf4 & Hf5 & Hf6 & Hf7 & Hf8 & Hf9).
  assert (Hmask_e : ∀ i, (i < length (eq1 ua))%nat →
            eq1 ua !! i = Some true ↔ edge_live s (0 + i) = true).
  { intros e He. rewrite length_eq1, Hlen in He.
    rewrite (edge_mask s ua e Hua He). cbn [Nat.add].
    split; [by intros [= ->]|by intros ->]. }
  assert (Hmask_f : ∀ i, (i < length (eq1 (is_alive (face_df s))))%nat →
            eq1 (is_alive (face_df s)) !! i = Some true
            ↔ face_live s (0 + i) = true).
  { intros f Hf. rewrite length_eq1 in Hf. rewrite lookup_eq1.
    destruct (lookup_lt_is_Some_2 (is_alive (face_df s)) f) as [al Hal];
      [lia|].
    rewrite Hal. cbn [fmap option_fmap option_map Nat.add].
    rewrite (face_mask s f al Hal).
    split; [by intros [= ->]|by intros ->]. }
  assert (Het : zip_with (λ lt l, lt * l / 2)
                  (select (eq1 ua) (line_tension (edge_df s)))
                  (select (eq1 ua) (e_length (edge_df s)))
                = map (λ e, at0 (line_tension (edge_df s)) e
                            * at0 (e_length (edge_df s)) e / 2) live_edges).
  { unfold live_edges, n_edges. rewrite <- He2, <- Hlen, <- (length_eq1 ua).
    apply zip_with_select; [rewrite length_eq1; congruence ..|exact Hmask_e|].
    intros i x y Hx Hy. unfold at0. cbn [Nat.add]. by rewrite Hx, Hy. }
  assert (Hec : zip_with (λ c p, 0.5 * c * p ^ 2)
                  (select (eq1 (is_alive (face_df s))) (contractility (face_df s)))
                  (select (eq1 (is_alive (face_df s))) (perimeter (face_df s)))
                = map (λ f, 0.5 * at0 (contractility (face_df s)) f
                            * at0 (perimeter (face_df s)) f ^ 2) live_faces).
  { unfold live_faces, n_faces.
    rewrite <- Hf6, <- (length_eq1 (is_alive (face_df s))).
    apply zip_with_select; [rewrite length_eq1; congruence ..|exact Hmask_f|].
    intros i x y Hx Hy. unfold at0. cbn [Nat.add]. by rewrite Hx, Hy. }
  assert (Hev : elastic_energy
                  (select (eq1 (is_alive (face_df s))) (vol (face_df s)))
                  (select (eq1 (is_alive (face_df s))) (vol_elasticity (face_df s)))
                  (select (eq1 (is_alive (face_df s))) (prefered_vol (face_df s)))
                = map (λ f, 0.5 * at0 (vol_elasticity (face_df s)) f
                            * (at0 (vol (face_df s)) f
                               - at0 (prefered_vol (face_df s)) f) ^ 2)
                      live_faces).
  { unfold elastic_energy, live_faces, n_faces.
    rewrite select_zip by (rewrite length_eq1; congruence).
    rewrite <- Hf6, <- (length_eq1 (is_alive (face_df s))).
    apply zip_with_select;
      [rewrite length_eq1; congruence
      |rewrite length_zip_with, length_eq1; lia
      |exact Hmask_f|].
    intros i x [y z] Hx Hyz. apply lookup_zip_with_Some in Hyz
      as (y' & z' & [= <- <-] & Hy & Hz).
    unfold at0. cbn [Nat.add fst snd]. by rewrite Hx, Hy, Hz. }
  unfold compute_energy. rewrite Hua. cbn [mbind res_bind].
  split.
  - unfold energy_spec. rewrite fsum_zip_plus, Ht, Hc, Hv; [reflexivity|].
    rewrite Hec, Hev. by rewrite !length_map.
  - do 3 eexists. split; [reflexivity|].
    rewrite !fsum_map_div, Ht, Hc, Hv.
    rewrite Het, Hec, Hev, !map_map, !length_map.
    repeat split; reflexivity.
Qed.

Lemma compute_energy_spec_witness :
  let live_edges :=
    filter (λ e, edge_live square e = true) (seq 0 (n_edges square)) in
  let live_faces :=
    filter (λ f, face_live square f = true) (seq 0 (n_faces square)) in
  compute_energy square false = Ok (Float (energy_spec square)) ∧
  ∃ e_t e_c e_v,
    compute_energy square true
    = Ok (Tuple3 (Series e_t) (Series e_c) (Series e_v)) ∧
    e_t = map (λ e, at0 (line_tension (edge_df square)) e
                    * at0 (e_length (edge_df square)) e / 2
                    / nrj_norm_factor (settings square)) live_edges ∧
    e_c = map (λ f, 0.5 * at0 (contractility (face_df square)) f
                    * at0 (perimeter (face_df square)) f ^ 2
                    / nrj_norm_factor (settings square)) live_faces ∧
    e_v = map (λ f, 0.5 * at0 (vol_elasticity (face_df square)) f
                    * (at0 (vol (face_df square)) f
                       - at0 (prefered_vol (face_df square)) f) ^ 2
                    / nrj_norm_factor (settings square)) live_faces ∧
    fsum e_t = tension_energy square / nrj_norm_factor (settings square) ∧
    fsum e_c = contractility_energy square / nrj_norm_factor (settings square) ∧
    fsum e_v = volume_energy square / nrj_norm_factor (settings square) ∧
    length e_t = length live_edges ∧
    length e_c = length live_faces ∧
    length e_v = length live_faces.
Proof. exact (compute_energy_spec square square_wf). Defined.

(** C2 as stated fails on the square: with [full_output] the components
    come back as series, one entry per edge or face, not as three
    scalars. *)
Lemma compute_energy_full_output_not_scalars : ¬ full_output_scalars square.
Proof.
  unfold full_output_scalars, compute_energy.
  destruct (upcast_face_alive square square_wf) as [ua ->].
  cbn [mbind res_bind]. discriminate.
Qed.

(** ** Mechanical model: the gradient *)

Lemma group_cons {A} (key : nat) (keys : list nat) (v : A) (vals : list A) (k : nat) :
  group (key :: keys) (v :: vals) k
  = if decide (key = k) then v :: group keys vals k else group keys vals k.
Proof.
  unfold group. cbn [zip_with]. rewrite filter_cons. cbn [fst].
  by case_decide.
Qed.

Lemma res_bind_Ok {A B} (r : res A) (k : A → res B) (b : B) :
  r ≫= k = Ok b → ∃ a, r = Ok a ∧ k a = Ok b.
Proof. destruct r as [a|e]; [|discriminate]. intros H. by exists a. Qed.

Ltac vec_lra :=
  apply vec_ext; unfold vadd, vsub, vopp, vscale, vdiv, vzero; cbn [vx vy vz];
  lra.

(** A call with a number of arguments other than the number of
    parameters raises, whatever the body. *)
Lemma call_arity {A} (params n : nat) (body : res A) :
  n ≠ params → call params n body = Raise TypeError.
Proof. intros Hn. unfold call. by rewrite decide_False. Qed.

(** The tension and contractility terms are computed. *)
Lemma per_edge_grads_return (s : Sheet) :
  wf_sheet s →
  ∃ grad_t grad_c,
    tension_grad s (length_grad s) = Ok grad_t ∧
    contractile_grad s (length_grad s) = Ok grad_c.
Proof.
  intros (_ & _ & Hf & _ & _ & Hrf).
  destruct Hf as (Hf1 & Hf2 & Hf3 & Hf4 & Hf5 & Hf6 & Hf7 & Hf8 & Hf9).
  unfold n_faces in *.
  unfold tension_grad, contractile_grad, upcast_face.
  rewrite (upcast_total 0 (face (edge_df s)))
    by (eapply Forall_impl; [exact Hrf|]; cbn; intros f Hlt; lia).
  rewrite (upcast_total 0 (face (edge_df s)))
    by (eapply Forall_impl; [exact Hrf|]; cbn; intros f Hlt;
        rewrite !length_zip_with; lia).
  cbn [mbind res_bind]. eauto.
Qed.

(** [elastic_grad] reads the elastic force and the heights, then calls
    [area_grad] with two arguments: on a well-formed sheet the two reads
    go through and the call raises. *)
Lemma elastic_grad_type_error (s : Sheet) :
  wf_sheet s → elastic_grad s = Raise TypeError.
Proof.
  intros (Hv & He & Hf & Hrs & Hrt & Hrf).
  destruct Hv as (Hv1 & Hv2 & Hv3 & Hv4 & Hv5).
  destruct Hf as (Hf1 & Hf2 & Hf3 & Hf4 & Hf5 & Hf6 & Hf7 & Hf8 & Hf9).
  unfold n_verts, n_faces in *.
  unfold elastic_grad, upcast_face, upcast_srce.
  rewrite (upcast_total 0 (face (edge_df s)))
    by (eapply Forall_impl; [exact Hrf|]; cbn; intros f Hlt;
        unfold elastic_force; rewrite !length_zip_with; lia).
  cbn [mbind res_bind].
  rewrite (upcast_total 0 (srce (edge_df s)))
    by (eapply Forall_impl; [exact Hrs|]; cbn; intros f Hlt; lia).
  cbn [mbind res_bind].
  rewrite call_arity by lia. reflexivity.
Qed.

Lemma compute_gradient_type_error (s : Sheet) (components : bool) :
  wf_sheet s → compute_gradient s components = Raise TypeError.
Proof.
  intros Hwf.
  destruct (per_edge_grads_return s Hwf) as (gt & gc & Ht & Hc).
  unfold compute_gradient.
  rewrite Ht, Hc, (elastic_grad_type_error s Hwf). reflexivity.
Qed.

(** C6: [compute_gradient] returns no gradient, so that none is the
    assembled per-edge sum divided by a norm factor.  On every
    well-formed sheet, with [components] or without, it raises
    [TypeError]: [elastic_grad] calls [area_grad], defined with one
    parameter, with two arguments.  [dimentionalize] does store the two
    factors the claim names, [grad_norm_factor = Kv * A0^1.5 * h0^2] and
    [nrj_norm_factor = Kv * (A0 * h0)^2]. *)
Theorem compute_gradient_not_normalised (s : Sheet) (m : ModSpecs) :
  wf_sheet s →
  (∀ components, compute_gradient s components = Raise TypeError) ∧
  (∀ N, ¬ gradient_normalised_by N s) ∧
  spec_grad_norm_factor (dimentionalize m)
  = spec_vol_elasticity m * Rpower (spec_prefered_area m) 1.5
    * spec_prefered_height m ^ 2 ∧
  spec_nrj_norm_factor (dimentionalize m)
  = spec_vol_elasticity m * (spec_prefered_area m * spec_prefered_height m) ^ 2.
Proof.
  intros Hwf. split; [|split; [|split; reflexivity]].
  - intros components. by apply compute_gradient_type_error.
  - intros N (gt & gc & gvs & gvt & grad & _ & Hret & _).
    by rewrite compute_gradient_type_error in Hret.
Qed.

Lemma compute_gradient_not_normalised_witness :
  compute_gradient square false = Raise TypeError ∧
  compute_gradient square true = Raise TypeError ∧
  ¬ gradient_normalised_by grad_norm_factor square ∧
  ¬ gradient_normalised_by nrj_norm_factor square.
Proof.
  destruct (compute_gradient_not_normalised square get_default_mod_specs
              square_wf) as (Hraise & Hnot & _).
  split; [exact (Hraise false)|]. split; [exact (Hraise true)|].
  split; apply Hnot.
Defined.

(** ** The height gradient *)

Lemma height_grad_rod (s : Sheet) :
  geometry (settings s) = "rod" → height_grad s = Raise UnboundLocalError.
Proof. intros Hrod. unfold height_grad. by rewrite Hrod. Qed.

Lemma height_grad_flat (s : Sheet) :
  geometry (settings s) = "flat" →
  height_grad s = Ok (map (λ _, mkV 0 0 1) (v_pos (vert_df s))).
Proof. intros Hflat. unfold height_grad. by rewrite Hflat. Qed.

Lemma height_at_flat (st : Settings) (shift left right : R) (p : vec) :
  geometry st = "flat" →
  height_at st shift left right p = coord (height_axis st) p - shift.
Proof.
  intros Hflat. unfold height_at, rho_column. rewrite Hflat.
  by destruct (other_axes (height_axis st)).
Qed.

Lemma derivable_pt_lim_ext (f g : R → R) (x l : R) :
  (∀ t, f t = g t) → derivable_pt_lim g x l → derivable_pt_lim f x l.
Proof.
  intros Hfg Hg eps Heps. destruct (Hg eps Heps) as [delta Hdelta].
  exists delta. intros h Hh0 Hh. rewrite !Hfg. by apply Hdelta.
Qed.

Lemma coord_move_same (k : axis) (t : R) (p : vec) :
  coord k (move k t p) = coord k p + t.
Proof. by destruct k. Qed.

Lemma coord_move_other (w k : axis) (t : R) (p : vec) :
  w ≠ k → coord w (move k t p) = coord w p.
Proof. by destruct w, k. Qed.

(** In flat mode the height changes at rate one along the height axis
    and does not change along the other two. *)
Lemma height_at_flat_derivative (st : Settings) (shift left right : R) (p : vec) :
  geometry st = "flat" →
  is_height_gradient st shift left right p
    (set_coord (height_axis st) 1 vzero).
Proof.
  intros Hflat k.
  destruct (decide (height_axis st = k)) as [<-|Hk].
  - apply (derivable_pt_lim_ext _
             (λ t, coord (height_axis st) p - shift + t)).
    + intros t. rewrite height_at_flat, coord_move_same by done. lra.
    + replace (coord (height_axis st) (set_coord (height_axis st) 1 vzero))
        with (0 + 1) by (destruct (height_axis st); cbn; lra).
      apply (derivable_pt_lim_plus
               (fct_cte (coord (height_axis st) p - shift)) id).
      * apply derivable_pt_lim_const.
      * apply derivable_pt_lim_id.
  - apply (derivable_pt_lim_ext _
             (fct_cte (coord (height_axis st) p - shift))).
    + intros t. by rewrite height_at_flat, coord_move_other.
    + replace (coord k (set_coord (height_axis st) 1 vzero)) with 0
        by (destruct (height_axis st), k; cbn; congruence).
      apply derivable_pt_lim_const.
Qed.

(** On a flat sheet whose height axis is z, the code's height gradient
    is the derivative of the height. *)
Lemma height_grad_flat_z (s : Sheet) :
  geometry (settings s) = "flat" → height_axis (settings s) = AxisZ →
  height_grad_is_derivative s.
Proof.
  intros Hflat Hz. eexists. split; [by apply height_grad_flat|].
  split; [by rewrite length_map|].
  intros i p shift left right g _ _ _ _ Hg.
  rewrite list_lookup_fmap in Hg.
  destruct (v_pos (vert_df s) !! i); [|discriminate].
  injection Hg as <-.
  pose proof (height_at_flat_derivative (settings s) shift left right p Hflat)
    as Hd.
  by rewrite Hz in Hd.
Qed.

(** C3: the height gradient of the code is not the derivative of the
    height in every mode and for every height axis.  In rod mode
    [height_grad] raises; in flat mode with a height axis other than z
    it returns the unit vector along z, along which the height does not
    change. *)
Theorem height_grad_not_height_derivative (s : Sheet) :
  wf_sheet s → v_pos (vert_df s) ≠ [] →
  geometry (settings s) = "rod" ∨
  (geometry (settings s) = "flat" ∧ height_axis (settings s) ≠ AxisZ) →
  ¬ height_grad_is_derivative s.
Proof.
  intros (Hv & _) Hne [Hrod|[Hflat Hw]] (h_grad & Hret & Hlen & Hall).
  - by rewrite height_grad_rod in Hret.
  - rewrite height_grad_flat in Hret by done. injection Hret as <-.
    destruct Hv as (_ & _ & Hb & Hl & Hr).
    destruct (v_pos (vert_df s)) as [|p ps] eqn:Hpos; [done|].
    destruct (basal_shift (vert_df s)) as [|shift ?]; [done|].
    destruct (left_tip (vert_df s)) as [|left ?]; [done|].
    destruct (right_tip (vert_df s)) as [|right ?]; [done|].
    specialize (Hall 0%nat p shift left right (mkV 0 0 1)
                  eq_refl eq_refl eq_refl eq_refl eq_refl AxisZ).
    pose proof (height_at_flat_derivative (settings s) shift left right p
                  Hflat AxisZ) as Hd.
    pose proof (uniqueness_limite _ _ _ _ Hall Hd) as Heq.
    destruct (height_axis (settings s)); cbn in Heq; try lra. done.
Qed.

Lemma height_grad_not_height_derivative_witness :
  ¬ height_grad_is_derivative square ∧ ¬ height_grad_is_derivative rod.
Proof.
  split.
  - apply height_grad_not_height_derivative.
    + exact square_wf.
    + discriminate.
    + right. split; [reflexivity|discriminate].
  - apply height_grad_not_height_derivative.
    + exact square_wf.
    + discriminate.
    + left. reflexivity.
Defined.

(** ** The gradient and the energy *)

Lemma compute_energy_scalar (s : Sheet) :
  wf_sheet s → compute_energy s false = Ok (Float (energy_spec s)).
Proof.
  intros Hwf. destruct (upcast_face_alive s Hwf) as [ua Hua].
  pose proof (tension_sum s ua Hwf Hua) as Ht.
  destruct Hwf as (_ & Hwe & Hwff & _).
  pose proof (contractility_sum s Hwff) as Hc.
  pose proof (volume_sum s Hwff) as Hv.
  destruct Hwff as (Hf1 & Hf2 & Hf3 & Hf4 & Hf5 & Hf6 & Hf7 & Hf8 & Hf9).
  unfold compute_energy. rewrite Hua. cbn [mbind res_bind].
  unfold energy_spec. rewrite fsum_zip_plus, Ht, Hc, Hv; [reflexivity|].
  unfold elastic_energy. rewrite !length_zip_with.
  rewrite (length_select _ (vol_elasticity (face_df s)) (contractility (face_df s))),
    (length_select _ (vol (face_df s)) (contractility (face_df s))),
    (length_select _ (prefered_vol (face_df s)) (contractility (face_df s))),
    (length_select _ (perimeter (face_df s)) (contractility (face_df s)))
    by (rewrite length_eq1; congruence).
  lia.
Qed.

(** C1: the gradient of the code is not the derivative of its energy,
    for it returns no gradient.  On every well-formed sheet
    [compute_energy] returns the energy, and [compute_gradient] raises
    [TypeError] before any row is assembled: [elastic_grad] passes
    [(sheet, coords)] to [area_grad], which is defined with the one
    parameter [sheet]. *)
Theorem compute_gradient_not_energy_derivative (s : Sheet) :
  wf_sheet s →
  compute_energy s false = Ok (Float (energy_spec s)) ∧
  compute_gradient s false = Raise TypeError ∧
  ¬ gradient_is_energy_derivative s.
Proof.
  intros Hwf. split; [by apply compute_energy_scalar|].
  split; [by apply compute_gradient_type_error|].
  intros (grad & Hret & _).
  by rewrite compute_gradient_type_error in Hret.
Qed.

Lemma compute_gradient_not_energy_derivative_witness :
  compute_energy square false = Ok (Float (energy_spec square)) ∧
  compute_gradient square false = Raise TypeError ∧
  ¬ gradient_is_energy_derivative square.
Proof. exact (compute_gradient_not_energy_derivative square square_wf). Defined.
(** * Further properties of the code *)

(** ** Topology: failures of a transition and of a vertex insertion *)

(** On a well-formed sheet a transition that raises has touched nothing:
    the exception is a [KeyError], for a missing edge label, or an
    [IndexError], for a neighbour that is not found; the sheet is the one
    that was given and nothing has been logged. *)
Theorem type1_transition_failure_atomic (edge01 : nat) (epsilon : R)
    (s : Sheet) (e : exn) :
  wf_sheet s →
  result (type1_transition edge01 epsilon s) = Raise e →
  (e = KeyError ∨ e = IndexError) ∧
  final (type1_transition edge01 epsilon s) = s ∧
  logged (type1_transition edge01 epsilon s) = [].
Proof.
  intros Hwf Hres.
  destruct (decide (edge01 < n_edges s)%nat) as [He|He].
  - destruct (lookups_resolve_or_not s edge01 Hwf He) as [Hun|[nb Hint]].
    + rewrite (type1_transition_unresolved edge01 epsilon s Hun) in *.
      cbn [result final logged] in *. injection Hres as <-. by auto.
    + destruct (type1_transition_run s edge01 epsilon nb Hwf Hint)
        as (p0 & p1 & dc & _ & Hrun).
      rewrite Hrun in Hres. discriminate.
  - assert (Hrun : type1_transition edge01 epsilon s
                   = Run (Raise KeyError) s []).
    { unfold type1_transition. rewrite bind_read. unfold loc, n_edges in *.
      by rewrite lookup_ge_None_2 by lia. }
    rewrite Hrun in *. cbn [result final logged] in *.
    injection Hres as <-. by auto.
Qed.

Lemma type1_transition_failure_atomic_witness :
  wf_sheet square ∧
  result (type1_transition 0 (1/10) square) = Raise IndexError ∧
  final (type1_transition 0 (1/10) square) = square ∧
  logged (type1_transition 0 (1/10) square) = [].
Proof.
  assert (Hres : result (type1_transition 0 (1/10) square) = Raise IndexError).
  { by rewrite (type1_transition_no_opposite 0 (1/10) square 0 1 0). }
  split; [exact square_wf|]. split; [exact Hres|].
  exact (proj2 (type1_transition_failure_atomic 0 (1/10) square IndexError
                  square_wf Hres)).
Defined.

Lemma upcast_raise {A} (ids : list nat) (col : list A) (e : exn) :
  upcast ids col = Raise e →
  e = KeyError ∧ ∃ i, i ∈ ids ∧ col !! i = None.
Proof.
  unfold upcast. destruct (mapM _ ids) eqn:Hm; [discriminate|].
  intros [= <-]. split; [done|].
  induction ids as [|i ids IH]; [discriminate|].
  cbn in Hm. destruct (col !! i) eqn:Hi.
  - cbn in Hm. destruct (mapM _ ids); [discriminate|].
    destruct IH as (j & Hj & Hn); [done|].
    exists j. split; [by right|done].
  - exists i. split; [by left|done].
Qed.

Lemma vert_loc_total (V : VertDF) (ids : list nat) :
  wf_vert V → Forall (λ i, (i < length (v_pos V))%nat) ids →
  ∃ rows_, vert_loc V ids = Ok rows_.
Proof.
  intros (H1 & H2 & H3 & H4 & H5) Hids. unfold vert_loc.
  rewrite (upcast_total vzero ids (v_pos V)) by done.
  rewrite (upcast_total 0 ids (v_rho V))
    by (eapply Forall_impl; [exact Hids|]; cbn; lia).
  rewrite (upcast_total 0 ids (v_height V))
    by (eapply Forall_impl; [exact Hids|]; cbn; lia).
  rewrite (upcast_total 0 ids (basal_shift V))
    by (eapply Forall_impl; [exact Hids|]; cbn; lia).
  rewrite (upcast_total 0 ids (left_tip V))
    by (eapply Forall_impl; [exact Hids|]; cbn; lia).
  rewrite (upcast_total 0 ids (right_tip V))
    by (eapply Forall_impl; [exact Hids|]; cbn; lia).
  cbn. eauto.
Qed.

Lemma edge_loc_total (E : EdgeDF) (i : nat) :
  wf_edge E → (i < length (srce E))%nat →
  ∃ row, edge_loc E [i] = Ok row ∧
    length (srce row) = 1%nat ∧ length (trgt row) = 1%nat ∧
    length (face row) = 1%nat ∧ length (dcoords row) = 1%nat ∧
    length (ncoords row) = 1%nat ∧ length (e_length row) = 1%nat ∧
    length (sub_area row) = 1%nat ∧ length (sub_vol row) = 1%nat ∧
    length (line_tension row) = 1%nat.
Proof.
  intros (H1 & H2 & H3 & H4 & H5 & H6 & H7 & H8) Hi.
  destruct (lookup_lt_is_Some_2 (srce E) i) as [s Hs]; [lia|].
  destruct (lookup_lt_is_Some_2 (trgt E) i) as [t Ht]; [lia|].
  destruct (lookup_lt_is_Some_2 (face E) i) as [f Hf]; [lia|].
  destruct (lookup_lt_is_Some_2 (dcoords E) i) as [d Hd]; [lia|].
  destruct (lookup_lt_is_Some_2 (ncoords E) i) as [n Hn]; [lia|].
  destruct (lookup_lt_is_Some_2 (e_length E) i) as [l Hl]; [lia|].
  destruct (lookup_lt_is_Some_2 (sub_area E) i) as [a Ha]; [lia|].
  destruct (lookup_lt_is_Some_2 (sub_vol E) i) as [v Hv]; [lia|].
  destruct (lookup_lt_is_Some_2 (line_tension E) i) as [lt Hlt]; [lia|].
  exists (mkEdgeDF [s] [t] [f] [d] [n] [l] [a] [v] [lt]).
  split; [|by repeat split].
  apply edge_loc_singleton. by repeat eexists.
Qed.

(** ** Topology: the sheet after the insertion of a vertex *)

Lemma snoc_insert {A} (l : list A) (a b : A) (n : nat) :
  n = length l → <[n := a]> (l ++ [b]) = l ++ [a].
Proof.
  intros ->. rewrite insert_app_r_alt by lia.
  by rewrite Nat.sub_diag.
Qed.

Lemma snoc_insert_l {A} (l : list A) (a b : A) (n : nat) :
  (n < length l)%nat → <[n := a]> (l ++ [b]) = <[n := a]> l ++ [b].
Proof. intros Hn. by rewrite insert_app_l. Qed.

(** The sheet that [add_vert] leaves: the two edges end at the new
    vertex, [row] and [opp_row] are the rows of the split edge and of its
    opposite as they were. *)
Lemma add_vert_run (s : Sheet) (edge srce_ trgt_ opp_edge : nat)
    (ends : VertDF) (row opp_row : EdgeDF) :
  wf_vert (vert_df s) → wf_edge (edge_df s) →
  srce (edge_df s) !! edge = Some srce_ →
  trgt (edge_df s) !! edge = Some trgt_ →
  index0 (where2 (srce (edge_df s)) trgt_ (trgt (edge_df s)) srce_) = Ok opp_edge →
  vert_loc (vert_df s) [srce_; trgt_] = Ok ends →
  edge_loc (edge_df s) [edge] = Ok row →
  edge_loc (edge_df s) [opp_edge] = Ok opp_row →
  add_vert edge s
  = Run (Ok (n_verts s, n_edges s, S (n_edges s)))
      (mkSheet
         (vert_append (vert_df s) (vert_mean ends))
         (mkEdgeDF
            (<[opp_edge := n_verts s]> (srce (edge_df s)) ++ [n_verts s; trgt_])
            (<[edge := n_verts s]> (trgt (edge_df s)) ++ [trgt_; n_verts s])
            (face (edge_df s) ++ face row ++ face opp_row)
            (dcoords (edge_df s) ++ dcoords row ++ dcoords opp_row)
            (ncoords (edge_df s) ++ ncoords row ++ ncoords opp_row)
            (e_length (edge_df s) ++ e_length row ++ e_length opp_row)
            (sub_area (edge_df s) ++ sub_area row ++ sub_area opp_row)
            (sub_vol (edge_df s) ++ sub_vol row ++ sub_vol opp_row)
            (line_tension (edge_df s) ++ line_tension row
               ++ line_tension opp_row))
         (face_df s) (settings s))
      [].
Proof.
  intros (Hv1 & Hv2 & Hv3 & Hv4 & Hv5)
    (He1 & He2 & He3 & He4 & He5 & He6 & He7 & He8)
    Hs Ht Hopp Hends Hrow Hopprow.
  apply edge_loc_singleton in Hrow as
    (rs & rt & rf & rd & rn & rl & ra & rv & rlt &
     Rs & Rt & Rf & Rd & Rn & Rl & Ra & Rv & Rlt & ->).
  apply edge_loc_singleton in Hopprow as
    (qs & qt & qf & qd & qn & ql & qa & qv & qlt &
     Qs & Qt & Qf & Qd & Qn & Ql & Qa & Qv & Qlt & ->).
  apply where2_index0 in Hopp as Hopp'. destruct Hopp' as [Hos Hot].
  assert (qs = trgt_) as -> by congruence.
  assert (rt = trgt_) as -> by congruence.
  apply loc_Ok in Hs as Hs', Ht as Ht'.
  assert (Hedge : (edge < length (srce (edge_df s)))%nat)
    by (eapply lookup_lt_Some; eassumption).
  assert (Hoppl : (opp_edge < length (srce (edge_df s)))%nat)
    by (eapply lookup_lt_Some; eassumption).
  remember (length (v_pos (vert_df s))) as nv eqn:Hnv0.
  remember (length (srce (edge_df s))) as ne eqn:Hne0.
  assert (Hnv : (length (v_pos (vert_append (vert_df s) (vert_mean ends))) - 1)%nat = nv).
  { unfold vert_append, vert_mean. cbn [v_pos]. rewrite length_app.
    rewrite <- Hnv0. cbn. lia. }
  unfold add_vert, n_verts, n_edges. rewrite <- ?Hnv0, <- ?Hne0.
  m_step. rewrite !Hnv.
  destruct (lookup_lt_is_Some_2 (<[opp_edge := nv]> (srce (edge_df s))) edge)
    as [x Hx]; [rewrite length_insert; lia|].
  assert (Hrow1 : edge_loc (assign_srce (assign_trgt (edge_df s) edge nv)
                              opp_edge nv) [edge]
                  = Ok (mkEdgeDF [x] [nv] [rf] [rd] [rn] [rl] [ra] [rv] [rlt])).
  { apply edge_loc_singleton. exists x, nv, rf, rd, rn, rl, ra, rv, rlt.
    unfold assign_srce, assign_trgt, set_srce, set_trgt. cbn.
    repeat split; lookup_solve. }
  rewrite Hrow1.
  unfold edge_append, assign_srce, assign_trgt, set_srce, set_trgt.
  cbn [srce trgt face dcoords ncoords e_length sub_area sub_vol line_tension].
  m_step.
  cbn [srce trgt face dcoords ncoords e_length sub_area sub_vol line_tension].
  rewrite !length_app, !length_insert. cbn [length]. rewrite <- ?Hne0.
  rewrite !Nat.add_sub.
  destruct (lookup_lt_is_Some_2 (<[edge := nv]> (trgt (edge_df s))) opp_edge)
    as [y Hy]; [rewrite length_insert; lia|].
  match goal with
  | |- context [match edge_loc ?E [opp_edge] with _ => _ end] =>
      assert (Hrow2 : edge_loc E [opp_edge]
                = Ok (mkEdgeDF [nv] [y] [qf] [qd] [qn] [ql] [qa] [qv] [qlt]))
  end.
  { apply edge_loc_singleton. exists nv, y, qf, qd, qn, ql, qa, qv, qlt.
    cbn. repeat split; lookup_solve. }
  rewrite Hrow2.
  m_step.
  cbn [srce trgt face dcoords ncoords e_length sub_area sub_vol line_tension].
  rewrite !length_app, !length_insert, !length_app, !length_insert.
  cbn [length]. rewrite <- ?Hne0.
  replace (ne + 1 + 1 - 1)%nat with (S ne) by lia.
  unfold mret, M_ret.
  rewrite (snoc_insert _ nv x ne) by (rewrite length_insert; lia).
  rewrite (snoc_insert _ trgt_ nv (S ne))
    by (rewrite length_app, length_insert; cbn; lia).
  rewrite (snoc_insert _ trgt_ nv ne) by (rewrite length_insert; lia).
  rewrite (snoc_insert _ nv y (S ne))
    by (rewrite length_app, length_insert; cbn; lia).
  rewrite <- !app_assoc. reflexivity.
Qed.

(** ** Topology: the insertion of a vertex keeps the mesh valid *)

Lemma rows_app (E : EdgeDF) (s t f : list nat) :
  length (trgt E) = length (srce E) → length (face E) = length (srce E) →
  zip (zip (srce E ++ s) (trgt E ++ t)) (face E ++ f)
  = rows E ++ zip (zip s t) f.
Proof.
  intros Ht Hf. unfold rows.
  rewrite !zip_with_app; [done| |by rewrite Ht].
  rewrite length_zip_with. lia.
Qed.

(** The rows [(srce, trgt, face)] of the edge table that [add_vert]
    leaves. *)
Lemma add_vert_rows (E : EdgeDF) (edge opp_edge nv trgt_ srce_ fe fo : nat) :
  wf_edge E →
  rows E !! edge = Some (srce_, trgt_, fe) →
  rows E !! opp_edge = Some (trgt_, srce_, fo) →
  zip (zip (<[opp_edge := nv]> (srce E) ++ [nv; trgt_])
           (<[edge := nv]> (trgt E) ++ [trgt_; nv]))
      (face E ++ [fe; fo])
  = <[opp_edge := (nv, (if decide (edge = opp_edge) then nv else srce_), fo)]>
      (<[edge := (srce_, nv, fe)]> (rows E))
    ++ [(nv, trgt_, fe); (trgt_, nv, fo)].
Proof.
  intros (He1 & He2 & _) Re Ro.
  apply rows_lookup in Re as (Rs & Rt & Rf).
  apply rows_lookup in Ro as (Os & Ot & Of).
  pose proof (rows_app (set_trgt (set_srce E (<[opp_edge:=nv]> (srce E)))
                          (<[edge:=nv]> (trgt E)))
                [nv; trgt_] [trgt_; nv] [fe; fo]) as Happ.
  cbn [srce trgt face set_srce set_trgt] in Happ.
  rewrite Happ by (rewrite ?length_insert; lia).
  f_equal. unfold rows, set_trgt, set_srce. cbn [srce trgt face].
  apply list_eq. intros i.
  destruct (decide (i = opp_edge)) as [->|Hio].
  - rewrite list_lookup_insert_eq
      by (rewrite length_insert, !length_zip_with;
          apply lookup_lt_Some in Os; lia).
    apply lookup_zip_with_Some. eexists (_, _), _. split; [reflexivity|].
    split; [|done].
    apply lookup_zip_with_Some. do 2 eexists. split; [reflexivity|].
    split.
    + apply list_lookup_insert_eq. by eapply lookup_lt_Some.
    + case_decide as Heo.
      * subst. apply list_lookup_insert_eq.
        apply lookup_lt_Some in Ot. lia.
      * by rewrite list_lookup_insert_ne.
  - rewrite list_lookup_insert_ne by done.
    destruct (decide (i = edge)) as [->|Hie].
    + rewrite list_lookup_insert_eq
        by (rewrite !length_zip_with; apply lookup_lt_Some in Rs; lia).
      apply lookup_zip_with_Some. eexists (_, _), _. split; [reflexivity|].
      split; [|done].
      apply lookup_zip_with_Some. do 2 eexists. split; [reflexivity|].
      split.
      * by rewrite list_lookup_insert_ne.
      * apply list_lookup_insert_eq. by eapply lookup_lt_Some.
    + rewrite list_lookup_insert_ne by done.
      rewrite !lookup_zip_with. by rewrite !list_lookup_insert_ne by done.
Qed.

Lemma index0_nonempty (sel : list nat) :
  sel ≠ [] → ∃ i, index0 sel = Ok i.
Proof. destruct sel as [|i sel]; [done|]. intros _. by exists i. Qed.

Lemma Forall_lt_insert (l : list nat) (i x n : nat) :
  Forall (λ v, (v < n)%nat) l → (x < S n)%nat →
  Forall (λ v, (v < S n)%nat) (<[i := x]> l).
Proof.
  intros Hl Hx. apply Forall_insert; [|done].
  eapply Forall_impl; [exact Hl|]. cbn. lia.
Qed.

(** What [add_vert] does on a well-formed sheet, for an edge that has an
    opposite. *)
Lemma add_vert_outcome (s : Sheet) (edge srce_ trgt_ : nat) :
  wf_sheet s →
  srce (edge_df s) !! edge = Some srce_ →
  trgt (edge_df s) !! edge = Some trgt_ →
  where2 (srce (edge_df s)) trgt_ (trgt (edge_df s)) srce_ ≠ [] →
  ∃ opp_edge fe fo s',
    rows (edge_df s) !! edge = Some (srce_, trgt_, fe) ∧
    rows (edge_df s) !! opp_edge = Some (trgt_, srce_, fo) ∧
    add_vert edge s = Run (Ok (n_verts s, n_edges s, S (n_edges s))) s' [] ∧
    rows (edge_df s')
    = <[opp_edge := (n_verts s,
                     (if decide (edge = opp_edge) then n_verts s else srce_),
                     fo)]>
        (<[edge := (srce_, n_verts s, fe)]> (rows (edge_df s)))
      ++ [(n_verts s, trgt_, fe); (trgt_, n_verts s, fo)] ∧
    wf_sheet s' ∧
    n_verts s' = S (n_verts s) ∧
    n_edges s' = S (S (n_edges s)) ∧
    face_df s' = face_df s ∧
    settings s' = settings s.
Proof.
  intros (Hv & He & Hf & Hrs & Hrt & Hrf) Hs Ht Hopp.
  destruct (index0_nonempty _ Hopp) as [opp_edge Hidx].
  apply where2_index0 in Hidx as Hopp'. destruct Hopp' as [Hos Hot].
  pose proof (refs_lookup _ _ _ _ Hrs Hs) as Hsn.
  pose proof (refs_lookup _ _ _ _ Hrt Ht) as Htn.
  destruct (vert_loc_total (vert_df s) [srce_; trgt_] Hv) as [ends Hends].
  { by repeat constructor. }
  destruct (edge_loc_total (edge_df s) edge He) as (row & Hrow & Hr);
    [by eapply lookup_lt_Some|].
  destruct (edge_loc_total (edge_df s) opp_edge He) as (orow & Horow & Ho);
    [by eapply lookup_lt_Some|].
  rewrite (add_vert_run s edge srce_ trgt_ opp_edge ends row orow)
    by done.
  destruct (lookup_lt_is_Some_2 (face (edge_df s)) edge) as [fe Hfe].
  { destruct He as (_ & He2 & _). apply lookup_lt_Some in Hs. lia. }
  destruct (lookup_lt_is_Some_2 (face (edge_df s)) opp_edge) as [fo Hfo].
  { destruct He as (_ & He2 & _). apply lookup_lt_Some in Hos. lia. }
  assert (Re : rows (edge_df s) !! edge = Some (srce_, trgt_, fe))
    by by apply rows_lookup.
  assert (Ro : rows (edge_df s) !! opp_edge = Some (trgt_, srce_, fo))
    by by apply rows_lookup.
  assert (Hfr : face row = [fe]).
  { apply edge_loc_singleton in Hrow as
      (? & ? & ? & ? & ? & ? & ? & ? & ? & _ & _ & Rf & _ & _ & _ & _ & _ & _ & ->).
    cbn. congruence. }
  assert (Hfo' : face orow = [fo]).
  { apply edge_loc_singleton in Horow as
      (? & ? & ? & ? & ? & ? & ? & ? & ? & _ & _ & Rf & _ & _ & _ & _ & _ & _ & ->).
    cbn. congruence. }
  exists opp_edge, fe, fo. eexists.
  split; [done|]. split; [done|]. split; [reflexivity|].
  split.
  { unfold rows at 1. cbn [edge_df srce trgt face]. rewrite Hfr, Hfo'.
    cbn [app]. by apply add_vert_rows. }
  destruct Hv as (Hv1 & Hv2 & Hv3 & Hv4 & Hv5).
  pose proof He as (He1 & He2 & He3 & He4 & He5 & He6 & He7 & He8).
  destruct Hr as (R1 & R2 & R3 & R4 & R5 & R6 & R7 & R8 & R9).
  destruct Ho as (O1 & O2 & O3 & O4 & O5 & O6 & O7 & O8 & O9).
  unfold n_verts, n_edges, n_faces in *.
  cbn [vert_df edge_df face_df settings].
  split; [|split; [|split; [|done]]].
  - unfold wf_sheet. cbn [vert_df edge_df face_df settings].
    split; [|split; [|split]].
    + unfold wf_vert, vert_append, vert_mean.
      cbn [v_pos v_rho v_height basal_shift left_tip right_tip].
      rewrite !length_app. cbn [length]. repeat split; lia.
    + unfold wf_edge.
      cbn [edge_df srce trgt face dcoords ncoords e_length sub_area sub_vol
           line_tension].
      rewrite !length_app, !length_insert. cbn [length].
      repeat split; lia.
    + done.
    + unfold refs_ok, n_verts, n_faces.
      cbn [vert_df edge_df face_df srce trgt face v_pos vert_append vert_mean].
      rewrite !length_app. cbn [length]. rewrite Nat.add_1_r.
      split; [|split].
      * apply Forall_app. split.
        -- apply Forall_lt_insert; [done|lia].
        -- repeat constructor; lia.
      * apply Forall_app. split.
        -- apply Forall_lt_insert; [done|lia].
        -- repeat constructor; lia.
      * apply edge_loc_singleton in Hrow as
          (rs & rt & rf & rd & rn & rl & ra & rv & rlt &
           Rs & Rt & Rf & _ & _ & _ & _ & _ & _ & ->).
        apply edge_loc_singleton in Horow as
          (qs & qt & qf & qd & qn & ql & qa & qv & qlt &
           Qs & Qt & Qf & _ & _ & _ & _ & _ & _ & ->).
        cbn [face]. apply Forall_app. split; [done|].
        repeat constructor.
        -- exact (refs_lookup _ _ _ _ Hrf Rf).
        -- exact (refs_lookup _ _ _ _ Hrf Qf).
  - unfold vert_append, vert_mean. cbn [vert_df v_pos].
    rewrite length_app. cbn. lia.
  - cbn [edge_df srce]. rewrite length_app, length_insert. cbn. lia.
Qed.

(** On a well-formed sheet, the insertion of a vertex on an edge that has
    an opposite returns the labels of the new rows and leaves a
    well-formed sheet with one more vertex and two more edges; the face
    table and the settings are untouched and nothing is logged. *)
Theorem add_vert_well_formed (s : Sheet) (edge srce_ trgt_ : nat) :
  wf_sheet s →
  srce (edge_df s) !! edge = Some srce_ →
  trgt (edge_df s) !! edge = Some trgt_ →
  where2 (srce (edge_df s)) trgt_ (trgt (edge_df s)) srce_ ≠ [] →
  result (add_vert edge s) = Ok (n_verts s, n_edges s, S (n_edges s)) ∧
  logged (add_vert edge s) = [] ∧
  wf_sheet (final (add_vert edge s)) ∧
  n_verts (final (add_vert edge s)) = S (n_verts s) ∧
  n_edges (final (add_vert edge s)) = S (S (n_edges s)) ∧
  face_df (final (add_vert edge s)) = face_df s ∧
  settings (final (add_vert edge s)) = settings s.
Proof.
  intros Hwf Hs Ht Hopp.
  destruct (add_vert_outcome s edge srce_ trgt_ Hwf Hs Ht Hopp)
    as (opp_edge & fe & fo & s' & _ & _ & -> & _ & Hwf' & Hnv & Hne & Hf & Hst).
  cbn [result final logged]. do 2 (split; [reflexivity|]).
  split; [exact Hwf'|]. split; [exact Hnv|]. split; [exact Hne|].
  split; [exact Hf|exact Hst].
Qed.

Lemma add_vert_well_formed_witness :
  wf_sheet pillow ∧
  result (add_vert 0 pillow) = Ok (4, 8, 9)%nat ∧
  wf_sheet (final (add_vert 0 pillow)) ∧
  n_verts (final (add_vert 0 pillow)) = 5%nat ∧
  n_edges (final (add_vert 0 pillow)) = 10%nat.
Proof.
  assert (Hwf : wf_sheet pillow) by apply pillow_valid.
  destruct (add_vert_well_formed pillow 0 0 1 Hwf eq_refl eq_refl)
    as (Hres & _ & Hwf' & Hnv & Hne & _); [discriminate|].
  split; [exact Hwf|]. split; [exact Hres|]. split; [exact Hwf'|].
  split; [exact Hnv|exact Hne].
Defined.

Lemma new_rows_lookup {A} (R : list A) (edge opp_edge ne : nat)
    (re ro r1 r2 r : A) (i : nat) :
  ne = length R → (edge < ne)%nat → (opp_edge < ne)%nat → edge ≠ opp_edge →
  (<[opp_edge := ro]> (<[edge := re]> R) ++ [r1; r2]) !! i = Some r →
  (i = edge ∧ r = re) ∨ (i = opp_edge ∧ r = ro) ∨
  (i = ne ∧ r = r1) ∨ (i = S ne ∧ r = r2) ∨
  (i ≠ edge ∧ i ≠ opp_edge ∧ (i < ne)%nat ∧ R !! i = Some r).
Proof.
  intros -> He Ho Hne Hi.
  destruct (decide (i < length R)%nat) as [Hlt|Hge].
  - rewrite lookup_app_l in Hi by (rewrite !length_insert; lia).
    destruct (decide (i = opp_edge)) as [->|Hio].
    + rewrite list_lookup_insert_eq in Hi by (rewrite length_insert; lia).
      right. left. split; congruence.
    + rewrite list_lookup_insert_ne in Hi by done.
      destruct (decide (i = edge)) as [->|Hie].
      * rewrite list_lookup_insert_eq in Hi by lia. left. split; congruence.
      * rewrite list_lookup_insert_ne in Hi by done. do 4 right. done.
  - rewrite lookup_app_r in Hi by (rewrite !length_insert; lia).
    rewrite !length_insert in Hi.
    destruct (i - length R)%nat as [|[|k]] eqn:Hk; cbn in Hi.
    + right. right. left. split; [lia|congruence].
    + right. right. right. left. split; [lia|congruence].
    + destruct k; discriminate.
Qed.

Lemma rows_lookup_ex (E : EdgeDF) (i u v : nat) :
  wf_edge E → srce E !! i = Some u → trgt E !! i = Some v →
  ∃ f, rows E !! i = Some (u, v, f).
Proof.
  intros (_ & He2 & _) Hs Ht.
  destruct (lookup_lt_is_Some_2 (face E) i) as [f Hf].
  { apply lookup_lt_Some in Hs. lia. }
  exists f. by apply rows_lookup.
Qed.

Lemma rows_refs (s : Sheet) (i u v f : nat) :
  refs_ok s → rows (edge_df s) !! i = Some (u, v, f) →
  (u < n_verts s)%nat ∧ (v < n_verts s)%nat.
Proof.
  intros (Hrs & Hrt & _) (Hs & Ht & _)%rows_lookup.
  split; [exact (refs_lookup _ _ _ _ Hrs Hs)|exact (refs_lookup _ _ _ _ Hrt Ht)].
Qed.

Lemma zsum_app (l k : list Z) : zsum (l ++ k) = (zsum l + zsum k)%Z.
Proof.
  unfold zsum. induction l as [|z l IH]; cbn; [done|]. rewrite IH. lia.
Qed.

(** The insertion of a vertex on an edge of a valid mesh leaves a valid
    mesh: the tables are well-formed, no edge joins a vertex to itself,
    no two edges join the same vertices in the same direction, opposite
    edges lie in different faces and every face is still a closed line. *)
Theorem add_vert_valid (s : Sheet) (edge srce_ trgt_ : nat) :
  valid_mesh s →
  srce (edge_df s) !! edge = Some srce_ →
  trgt (edge_df s) !! edge = Some trgt_ →
  where2 (srce (edge_df s)) trgt_ (trgt (edge_df s)) srce_ ≠ [] →
  valid_mesh (final (add_vert edge s)).
Proof.
  intros (Hwf & Hloop & Huniq & Hopf & Hclosed) Hs Ht Hopp.
  destruct (add_vert_outcome s edge srce_ trgt_ Hwf Hs Ht Hopp)
    as (opp_edge & fe & fo & s' & Re & Ro & -> & Hrows & Hwf' & Hnv & Hne & _).
  cbn [final].
  assert (Hst : srce_ ≠ trgt_).
  { intros ->. exact (Hloop _ _ Hs Ht). }
  assert (Heo : edge ≠ opp_edge).
  { intros ->. rewrite Re in Ro. congruence. }
  rewrite decide_False in Hrows by done.
  pose proof Hwf as (_ & He & _ & Hrefs).
  pose proof (rows_refs s _ _ _ _ Hrefs Re) as [Hsn Htn].
  assert (Hfeo : fe ≠ fo).
  { apply rows_lookup in Re as (R1 & R2 & R3).
    apply rows_lookup in Ro as (O1 & O2 & O3).
    intros ->. exact (Hopf _ _ _ _ _ R1 R2 O1 O2 R3 O3). }
  assert (Hlen : n_edges s = length (rows (edge_df s))).
  { destruct He as (He1 & He2 & _). unfold rows, n_edges.
    rewrite !length_zip_with. lia. }
  assert (Hel : (edge < n_edges s)%nat).
  { rewrite Hlen. by eapply lookup_lt_Some. }
  assert (Hol : (opp_edge < n_edges s)%nat).
  { rewrite Hlen. by eapply lookup_lt_Some. }
  pose proof Hwf' as (_ & He' & _).
  assert (Hcase : ∀ i u v f, rows (edge_df s') !! i = Some (u, v, f) →
    (i = edge ∧ (u, v, f) = (srce_, n_verts s, fe)) ∨
    (i = opp_edge ∧ (u, v, f) = (n_verts s, srce_, fo)) ∨
    (i = n_edges s ∧ (u, v, f) = (n_verts s, trgt_, fe)) ∨
    (i = S (n_edges s) ∧ (u, v, f) = (trgt_, n_verts s, fo)) ∨
    (i ≠ edge ∧ i ≠ opp_edge ∧ (u < n_verts s)%nat ∧ (v < n_verts s)%nat ∧
     rows (edge_df s) !! i = Some (u, v, f))).
  { intros i u v f Hi. rewrite Hrows in Hi.
    apply (new_rows_lookup _ _ _ (n_edges s)) in Hi
      as [?|[?|[?|[?|(? & ? & ? & Hr)]]]]; auto.
    do 4 right. destruct (rows_refs s _ _ _ _ Hrefs Hr). done. }
  split; [exact Hwf'|]. split; [|split; [|split]].
  - (* no loops *)
    intros i v Hsi Hti.
    destruct (rows_lookup_ex _ _ _ _ He' Hsi Hti) as [f Hr].
    apply Hcase in Hr as [[_ ?]|[[_ ?]|[[_ ?]|[[_ ?]|(_ & _ & _ & _ & Hr)]]]];
      simplify_eq; try lia.
    apply rows_lookup in Hr as (R1 & R2 & _). exact (Hloop _ _ R1 R2).
  - (* one edge from a vertex to another *)
    intros i j u v Hsi Hti Hsj Htj.
    destruct (rows_lookup_ex _ _ _ _ He' Hsi Hti) as [f Hri].
    destruct (rows_lookup_ex _ _ _ _ He' Hsj Htj) as [g Hrj].
    apply Hcase in Hri as [[? ?]|[[? ?]|[[? ?]|[[? ?]|(? & ? & ? & ? & Hri)]]]];
    apply Hcase in Hrj as [[? ?]|[[? ?]|[[? ?]|[[? ?]|(? & ? & ? & ? & Hrj)]]]];
      simplify_eq; try lia; try done.
    apply rows_lookup in Hri as (R1 & R2 & _).
    apply rows_lookup in Hrj as (Q1 & Q2 & _).
    exact (Huniq _ _ _ _ R1 R2 Q1 Q2).
  - (* opposite edges in different faces *)
    intros i j u v f Hsi Hti Hsj Htj Hfi Hfj.
    destruct (rows_lookup_ex _ _ _ _ He' Hsi Hti) as [f' Hri].
    destruct (rows_lookup_ex _ _ _ _ He' Hsj Htj) as [g Hrj].
    pose proof Hri as (_ & _ & Hf')%rows_lookup.
    pose proof Hrj as (_ & _ & Hg)%rows_lookup.
    assert (f' = f) as -> by congruence.
    assert (g = f) as -> by congruence.
    apply Hcase in Hri as [[? ?]|[[? ?]|[[? ?]|[[? ?]|(? & ? & ? & ? & Hri)]]]];
    apply Hcase in Hrj as [[? ?]|[[? ?]|[[? ?]|[[? ?]|(? & ? & ? & ? & Hrj)]]]];
      simplify_eq; try lia; try done.
    apply rows_lookup in Hri as (R1 & R2 & R3).
    apply rows_lookup in Hrj as (Q1 & Q2 & Q3).
    exact (Hopf _ _ _ _ _ R1 R2 Q1 Q2 R3 Q3).
  - (* closed faces *)
    intros f v. unfold balance. rewrite Hrows.
    rewrite map_app, zsum_app.
    rewrite (zsum_insert _ _ opp_edge _ (trgt_, srce_, fo))
      by (by rewrite list_lookup_insert_ne).
    rewrite (zsum_insert _ _ edge _ (srce_, trgt_, fe)) by done.
    pose proof (Hclosed f v) as Hb. unfold balance in Hb. rewrite Hb.
    unfold flux, zsum. cbn [map foldr fst snd].
    repeat case_decide; lia.
Qed.

Lemma add_vert_valid_witness :
  valid_mesh pillow ∧ valid_mesh (final (add_vert 0 pillow)).
Proof.
  split; [exact pillow_valid|].
  apply (add_vert_valid pillow 0 0 1 pillow_valid eq_refl eq_refl).
  discriminate.
Defined.

(** On a well-formed sheet an insertion that raises has touched nothing.
    It raises [KeyError] when the edge label is missing and [IndexError]
    when the edge has no opposite, and in no other case. *)
Theorem add_vert_failure_atomic (s : Sheet) (edge : nat) (e : exn) :
  wf_sheet s →
  result (add_vert edge s) = Raise e →
  final (add_vert edge s) = s ∧ logged (add_vert edge s) = [] ∧
  ((e = KeyError ∧ srce (edge_df s) !! edge = None) ∨
   (e = IndexError ∧ ∃ srce_ trgt_,
      srce (edge_df s) !! edge = Some srce_ ∧
      trgt (edge_df s) !! edge = Some trgt_ ∧
      where2 (srce (edge_df s)) trgt_ (trgt (edge_df s)) srce_ = [])).
Proof.
  intros Hwf Hres.
  destruct (srce (edge_df s) !! edge) as [srce_|] eqn:Hs.
  - destruct (lookup_lt_is_Some_2 (trgt (edge_df s)) edge) as [trgt_ Ht].
    { destruct Hwf as (_ & (He1 & _) & _). apply lookup_lt_Some in Hs. lia. }
    destruct (where2 (srce (edge_df s)) trgt_ (trgt (edge_df s)) srce_)
      as [|o sel] eqn:Hsel.
    + revert Hres. unfold add_vert.
      do 3 (rewrite bind_read; cbv beta; unfold loc;
            rewrite ?Hs, ?Ht, ?Hsel; cbn [index0]).
      cbn [result final logged]. intros [= <-].
      split; [done|]. split; [done|]. right. split; [done|].
      by exists srce_, trgt_.
    + destruct (add_vert_outcome s edge srce_ trgt_ Hwf Hs Ht)
        as (? & ? & ? & ? & _ & _ & Hrun & _); [by rewrite Hsel|].
      rewrite Hrun in Hres. discriminate.
  - revert Hres. unfold add_vert.
    rewrite bind_read. cbv beta. unfold loc. rewrite Hs.
    cbn [result final logged]. intros [= <-].
    split; [done|]. split; [done|]. by left.
Qed.

Lemma add_vert_failure_atomic_witness :
  wf_sheet square ∧
  result (add_vert 0 square) = Raise IndexError ∧
  final (add_vert 0 square) = square ∧ logged (add_vert 0 square) = [].
Proof.
  assert (Hres : result (add_vert 0 square) = Raise IndexError)
    by reflexivity.
  split; [exact square_wf|]. split; [exact Hres|].
  destruct (add_vert_failure_atomic square 0 IndexError square_wf Hres)
    as (Hfin & Hlog & _).
  split; [exact Hfin|exact Hlog].
Defined.

(** ** Topology: a division whose mother is not in the face table *)

(** Division of a face whose label is missing from the face table raises
    [KeyError] at the first lookup, whatever the geometry module and the
    angle: the sheet is the one that was given and nothing is logged. *)
Theorem cell_division_missing_mother (s : Sheet) (mother : nat)
    (geom : module) (angle : option R) (rnd : R) :
  (n_faces s ≤ mother)%nat → wf_face (face_df s) →
  cell_division mother geom angle rnd s = Run (Raise KeyError) s [].
Proof.
  intros Hm (_ & _ & _ & _ & _ & Hf6 & _). unfold cell_division.
  rewrite bind_read. unfold loc.
  rewrite (lookup_ge_None_2 (is_alive (face_df s)) mother)
    by (unfold n_faces in Hm; lia).
  reflexivity.
Qed.

Lemma cell_division_missing_mother_witness :
  cell_division 2 (λ _, None) None 0 pillow = Run (Raise KeyError) pillow [].
Proof.
  apply cell_division_missing_mother.
  - cbn. lia.
  - apply pillow_valid.
Defined.

(** ** Topology: what a type 1 transition touches *)

(** [reset_topo] writes the displacement vectors and nothing else,
    whether it returns or not, and logs nothing. *)
Lemma reset_topo_frame (s : Sheet) :
  vert_df (final (reset_topo s)) = vert_df s ∧
  face_df (final (reset_topo s)) = face_df s ∧
  settings (final (reset_topo s)) = settings s ∧
  srce (edge_df (final (reset_topo s))) = srce (edge_df s) ∧
  trgt (edge_df (final (reset_topo s))) = trgt (edge_df s) ∧
  face (edge_df (final (reset_topo s))) = face (edge_df s) ∧
  line_tension (edge_df (final (reset_topo s))) = line_tension (edge_df s) ∧
  logged (reset_topo s) = [].
Proof.
  unfold reset_topo. rewrite bind_read.
  destruct (upcast_srce s _) as [sp|e]; [|by repeat split].
  rewrite bind_read.
  destruct (upcast_trgt s _) as [tp|e]; [|by repeat split].
  by repeat split.
Qed.

(** The vertex table a transition leaves, with the two new positions
    written out. *)
Lemma type1_transition_explicit (s : Sheet) (edge01 : nat) (epsilon : R)
    (nb : neighbours) (q0 q1 cb cd : vec) :
  interior_edge s edge01 nb →
  v_pos (vert_df s) !! nb_vert0 nb = Some q0 →
  v_pos (vert_df s) !! nb_vert1 nb = Some q1 →
  f_pos (face_df s) !! nb_cell_b nb = Some cb →
  f_pos (face_df s) !! nb_cell_d nb = Some cd →
  vert_df (final (type1_transition edge01 epsilon s))
  = assign_pos
      (assign_pos (vert_df s) (nb_vert0 nb)
         (vsub (vdiv (vadd q0 q1) 2)
            (vscale epsilon (vsub (vdiv (vadd q0 q1) 2) cb))))
      (nb_vert1 nb)
      (vsub (vdiv (vadd q0 q1) 2)
         (vscale epsilon (vsub (vdiv (vadd q0 q1) 2) cd))).
Proof.
  intros (Hs01 & Ht01 & Hf01 & H10 & Hf10 & H05 & Ht05 & H50 & Hf50 &
          H13 & Ht13 & H31 & Hf31) Hq0 Hq1 Hqb Hqd.
  destruct nb as [v0 v1 v3 v5 a b c d e10 e05 e50 e13 e31]. cbn in *.
  apply loc_Ok in Hs01, Ht01, Hf01, Hf10, Ht05, Hf50, Ht13, Hf31,
    Hq0, Hq1, Hqb, Hqd.
  unfold type1_transition.
  m_step.
  match goal with
  | |- context [reset_topo ?s1] =>
      rewrite (proj1 (reset_topo_frame s1))
  end.
  reflexivity.
Qed.

(** A transition rewires six edges and moves two vertices; of the
    data the geometry is computed from, it touches nothing else: the face
    table, the settings, the line tensions, every vertex column other
    than the position, the source, target and face of the other edges
    and the positions of the other vertices are what they were.  The
    displacement vectors are rebuilt by [reset_topo]; the other derived
    columns of the edges wait for the next geometry update. *)
Theorem type1_transition_frame (s : Sheet) (edge01 : nat) (epsilon : R)
    (nb : neighbours) :
  wf_sheet s → interior_edge s edge01 nb →
  let s' := final (type1_transition edge01 epsilon s) in
  face_df s' = face_df s ∧ settings s' = settings s ∧
  line_tension (edge_df s') = line_tension (edge_df s) ∧
  (v_rho (vert_df s') = v_rho (vert_df s) ∧
   v_height (vert_df s') = v_height (vert_df s) ∧
   basal_shift (vert_df s') = basal_shift (vert_df s) ∧
   left_tip (vert_df s') = left_tip (vert_df s) ∧
   right_tip (vert_df s') = right_tip (vert_df s)) ∧
  (∀ e, e ∉ [edge01; nb_edge10 nb; nb_edge13 nb; nb_edge31 nb;
             nb_edge50 nb; nb_edge05 nb] →
        srce (edge_df s') !! e = srce (edge_df s) !! e ∧
        trgt (edge_df s') !! e = trgt (edge_df s) !! e ∧
        face (edge_df s') !! e = face (edge_df s) !! e) ∧
  (∀ v, v ≠ nb_vert0 nb → v ≠ nb_vert1 nb →
        v_pos (vert_df s') !! v = v_pos (vert_df s) !! v).
Proof.
  intros Hwf Hint.
  destruct (type1_transition_run s edge01 epsilon nb Hwf Hint)
    as (p0 & p1 & dc & _ & ->).
  cbn [final]. edge_simpl.
  split; [done|]. split; [done|]. split; [done|]. split; [done|].
  split.
  - intros e He.
    repeat (apply not_elem_of_cons in He as [? He]).
    by rewrite !list_lookup_insert_ne by done.
  - intros v H0 H1. by rewrite !list_lookup_insert_ne by done.
Qed.

Lemma type1_transition_frame_witness :
  face_df (final (type1_transition 0 (1/10) pillow)) = face_df pillow ∧
  line_tension (edge_df (final (type1_transition 0 (1/10) pillow)))
  = line_tension (edge_df pillow) ∧
  srce (edge_df (final (type1_transition 0 (1/10) pillow))) !! 2%nat
  = Some 2%nat ∧
  v_pos (vert_df (final (type1_transition 0 (1/10) pillow))) !! 2%nat
  = Some (mkV 1 1 0).
Proof.
  destruct (type1_transition_frame pillow 0 (1/10)
              (mkNeighbours 0 1 2 3 0 0 1 1 4 7 3 1 5)
              (proj1 pillow_valid) pillow_interior)
    as (Hf & _ & Hlt & _ & He & Hv).
  split; [exact Hf|]. split; [exact Hlt|]. split.
  - apply (He 2%nat). cbn.
    repeat (apply not_elem_of_cons; split; [lia|]). apply not_elem_of_nil.
  - apply (Hv 2%nat); cbn; lia.
Defined.

(** After a transition the two vertices of the edge lie on either side
    of its former midpoint, each moved from it towards the centre of a
    neighbouring face by the fraction [epsilon]: the vector that joins
    them is [epsilon] times the vector that joins the centres of the two
    faces the edge used to separate, and with [epsilon = 0] both sit at
    the midpoint. *)
Theorem type1_transition_new_edge (s : Sheet) (edge01 : nat) (epsilon : R)
    (nb : neighbours) (q0 q1 cb cd : vec) :
  interior_edge s edge01 nb → nb_vert0 nb ≠ nb_vert1 nb →
  v_pos (vert_df s) !! nb_vert0 nb = Some q0 →
  v_pos (vert_df s) !! nb_vert1 nb = Some q1 →
  f_pos (face_df s) !! nb_cell_b nb = Some cb →
  f_pos (face_df s) !! nb_cell_d nb = Some cd →
  ∃ p0 p1,
    v_pos (vert_df (final (type1_transition edge01 epsilon s))) !! nb_vert0 nb
    = Some p0 ∧
    v_pos (vert_df (final (type1_transition edge01 epsilon s))) !! nb_vert1 nb
    = Some p1 ∧
    vsub p0 p1 = vscale epsilon (vsub cb cd) ∧
    vsub p0 (vdiv (vadd q0 q1) 2)
    = vscale epsilon (vsub cb (vdiv (vadd q0 q1) 2)) ∧
    vsub p1 (vdiv (vadd q0 q1) 2)
    = vscale epsilon (vsub cd (vdiv (vadd q0 q1) 2)).
Proof.
  intros Hint Hne Hq0 Hq1 Hqb Hqd.
  rewrite (type1_transition_explicit s edge01 epsilon nb q0 q1 cb cd)
    by done.
  edge_simpl.
  do 2 eexists. split; [|split; [|split; [|split]]].
  - rewrite list_lookup_insert_ne by done.
    apply list_lookup_insert_eq. by eapply lookup_lt_Some.
  - apply list_lookup_insert_eq. rewrite length_insert.
    by eapply lookup_lt_Some.
  - unfold vdiv. vec_lra.
  - unfold vdiv. vec_lra.
  - unfold vdiv. vec_lra.
Qed.

Lemma type1_transition_new_edge_witness :
  ∃ p0 p1,
    v_pos (vert_df (final (type1_transition 0 (1/10) pillow))) !! 0%nat
    = Some p0 ∧
    v_pos (vert_df (final (type1_transition 0 (1/10) pillow))) !! 1%nat
    = Some p1 ∧
    vsub p0 p1
    = vscale (1/10) (vsub (mkV (1/2) (1/2) 0) (mkV (1/2) (1/2) 0)).
Proof.
  destruct (type1_transition_new_edge pillow 0 (1/10)
              (mkNeighbours 0 1 2 3 0 0 1 1 4 7 3 1 5)
              (mkV 0 0 0) (mkV 1 0 0) (mkV (1/2) (1/2) 0) (mkV (1/2) (1/2) 0)
              pillow_interior)
    as (p0 & p1 & H0 & H1 & Hd & _); try reflexivity; [cbn; lia|].
  exists p0, p1. split; [exact H0|]. split; [exact H1|exact Hd].
Defined.

(** ** Geometry: what [update_all] reads and what it writes *)

(** [update_all] writes derived columns only.  The vertex positions, the
    basal shifts and the tip masks, the source, target and face of every
    edge, the model parameters and the settings are what they were,
    whether the update went through or stopped on a missing label. *)
Theorem update_all_keeps_inputs (s : Sheet) :
  let s' := final (update_all s) in
  (v_pos (vert_df s') = v_pos (vert_df s) ∧
   basal_shift (vert_df s') = basal_shift (vert_df s) ∧
   left_tip (vert_df s') = left_tip (vert_df s) ∧
   right_tip (vert_df s') = right_tip (vert_df s)) ∧
  (srce (edge_df s') = srce (edge_df s) ∧
   trgt (edge_df s') = trgt (edge_df s) ∧
   face (edge_df s') = face (edge_df s) ∧
   line_tension (edge_df s') = line_tension (edge_df s)) ∧
  (is_alive (face_df s') = is_alive (face_df s) ∧
   contractility (face_df s') = contractility (face_df s) ∧
   vol_elasticity (face_df s') = vol_elasticity (face_df s) ∧
   prefered_vol (face_df s') = prefered_vol (face_df s)) ∧
  settings s' = settings s ∧
  logged (update_all s) = [].
Proof.
  remember (update_all s) as r eqn:Hr.
  unfold update_all, update_dcoords, update_length, update_centroid,
    update_height, update_normals, update_areas, update_perimeters,
    update_vol in Hr.
  m_step_in Hr.
  all: subst r; sheet_simpl.
  all: repeat split; reflexivity.
Qed.

(** ** Geometry: [update_all] on a well-formed sheet *)

Lemma length_assign_where (flag old new : list R) :
  length flag = length old → length new = length old →
  length (assign_where flag old new) = length old.
Proof.
  intros Hf Hn. unfold assign_where. rewrite !length_zip_with. lia.
Qed.

Lemma length_rho_column (st : Settings) (V : VertDF) :
  wf_vert V → length (rho_column st V) = length (v_pos V).
Proof.
  intros (H1 & H2 & H3 & H4 & H5). unfold rho_column.
  destruct (other_axes (height_axis st)) as [u v].
  repeat case_decide; rewrite ?length_map; try done.
  destruct (ab st) as [a b].
  rewrite length_assign_where.
  - rewrite length_assign_where; by rewrite ?length_map.
  - rewrite length_assign_where; by rewrite ?length_map.
  - rewrite length_assign_where; by rewrite ?length_map.
Qed.

Lemma upcast_in_range {A} (ids : list nat) (col : list A) (n : nat) (e : exn) :
  Forall (λ i, (i < n)%nat) ids → length col = n →
  upcast ids col = Raise e → False.
Proof.
  intros Hids Hlen (_ & i & Hi & Hn)%upcast_raise.
  apply lookup_ge_None_1 in Hn.
  rewrite Forall_forall in Hids. specialize (Hids i Hi). lia.
Qed.

Lemma norm_nonneg (p : vec) : 0 <= norm p.
Proof. apply sqrt_pos. Qed.

Lemma fsum_nonneg (l : list R) : Forall (λ x, 0 <= x) l → 0 <= fsum l.
Proof.
  induction 1 as [|x l Hx _ IH]; [unfold fsum; cbn; lra|].
  rewrite fsum_cons. lra.
Qed.

Lemma group_Forall {A} (P : A → Prop) (keys : list nat) (vals : list A) (k : nat) :
  Forall P vals → Forall P (group keys vals k).
Proof.
  intros Hv. unfold group. apply Forall_fmap.
  apply Forall_forall. intros [key v] Hin.
  apply list_elem_of_filter in Hin as [_ Hin].
  apply elem_of_zip_r in Hin. cbn.
  rewrite Forall_forall in Hv. by apply Hv.
Qed.

Lemma sum_face_nonneg (s : Sheet) (col : list R) :
  Forall (λ x, 0 <= x) col → Forall (λ x, 0 <= x) (sum_face s col).
Proof.
  intros Hc. unfold sum_face. apply Forall_fmap, Forall_forall.
  intros f _. cbn. by apply fsum_nonneg, group_Forall.
Qed.

(** What [update_all] leaves on a well-formed sheet. *)
Lemma update_all_outcome (s : Sheet) :
  wf_sheet s →
  ∃ s', update_all s = Run (Ok tt) s' [] ∧ wf_sheet s' ∧
    e_length (edge_df s') = map norm (dcoords (edge_df s')) ∧
    sub_area (edge_df s') = map (λ n, norm n / 2) (ncoords (edge_df s')) ∧
    area (face_df s') = sum_face s' (sub_area (edge_df s')) ∧
    perimeter (face_df s') = sum_face s' (e_length (edge_df s')).
Proof.
  intros (Hv & He & Hf & Hrs & Hrt & Hrf).
  pose proof Hv as (Hv1 & Hv2 & Hv3 & Hv4 & Hv5).
  pose proof He as (He1 & He2 & He3 & He4 & He5 & He6 & He7 & He8).
  pose proof Hf as (Hf1 & Hf2 & Hf3 & Hf4 & Hf5 & Hf6 & Hf7 & Hf8 & Hf9).
  unfold n_verts, n_faces in *.
  remember (update_all s) as r eqn:Hr.
  unfold update_all, update_dcoords, update_length, update_centroid,
    update_height, update_normals, update_areas, update_perimeters,
    update_vol in Hr.
  m_step_in Hr.
  all: try (exfalso;
            match goal with
            | H : upcast (srce _) ?col = Raise _ |- _ =>
                apply (upcast_in_range _ _ _ _ Hrs) in H; [done|]
            | H : upcast (trgt _) ?col = Raise _ |- _ =>
                apply (upcast_in_range _ _ _ _ Hrt) in H; [done|]
            | H : upcast (face _) ?col = Raise _ |- _ =>
                apply (upcast_in_range _ _ _ _ Hrf) in H; [done|]
            end;
            rewrite ?length_zip_with, ?length_map, ?length_seq,
              ?length_rho_column by done;
            lia).
  subst r. eexists. split; [reflexivity|].
  repeat match goal with
         | H : upcast _ _ = Ok _ |- _ => apply upcast_length in H
         end.
  split;
    [|repeat split; sheet_simpl; rewrite ?length_map, ?length_seq;
      reflexivity].
  unfold wf_sheet, wf_vert, wf_edge, wf_face, refs_ok, n_verts, n_faces.
  sheet_simpl.
  rewrite ?length_zip_with, ?length_map, ?length_seq,
    ?length_rho_column by done.
  repeat split; try done;
    repeat first [ rewrite length_zip_with | rewrite length_map
                 | rewrite length_seq | rewrite length_rho_column by done ];
    lia.
Qed.

(** On a well-formed sheet [update_all] returns normally, logs nothing
    and leaves a well-formed sheet: every column it writes has one entry
    per row. *)
Theorem update_all_well_formed (s : Sheet) :
  wf_sheet s →
  result (update_all s) = Ok tt ∧ logged (update_all s) = [] ∧
  wf_sheet (final (update_all s)).
Proof.
  intros Hwf.
  destruct (update_all_outcome s Hwf) as (s' & -> & Hwf' & _).
  split; [reflexivity|]. split; [reflexivity|exact Hwf'].
Qed.

Lemma update_all_well_formed_witness :
  wf_sheet pillow ∧ result (update_all pillow) = Ok tt ∧
  wf_sheet (final (update_all pillow)).
Proof.
  destruct (update_all_well_formed pillow (proj1 pillow_valid))
    as (Hres & _ & Hwf).
  split; [exact (proj1 pillow_valid)|]. split; [exact Hres|exact Hwf].
Defined.

(** [update_areas] leaves no negative sub-area and no negative face
    area, and so does [update_all] on a well-formed sheet: a sub-area is
    half the norm of a normal, an area a sum of sub-areas. *)
Theorem update_areas_nonneg (s : Sheet) :
  wf_sheet s →
  (Forall (λ x, 0 <= x) (sub_area (edge_df (final (update_areas s)))) ∧
   Forall (λ x, 0 <= x) (area (face_df (final (update_areas s))))) ∧
  (Forall (λ x, 0 <= x) (sub_area (edge_df (final (update_all s)))) ∧
   Forall (λ x, 0 <= x) (area (face_df (final (update_all s))))).
Proof.
  intros Hwf.
  assert (Hhalf : ∀ l : list vec,
            Forall (λ x, 0 <= x) (map (λ n, norm n / 2) l)).
  { intros l. apply Forall_fmap, Forall_forall. intros p _. cbn.
    pose proof (norm_nonneg p). lra. }
  split.
  - unfold update_areas. m_step. sheet_simpl.
    split; [apply Hhalf|]. apply Forall_fmap, Forall_forall.
    intros f _. cbn. apply fsum_nonneg, group_Forall, Hhalf.
  - destruct (update_all_outcome s Hwf) as (s' & -> & _ & _ & Ha & HA & _).
    cbn [final]. rewrite HA, Ha.
    split; [apply Hhalf|apply sum_face_nonneg, Hhalf].
Qed.

Lemma update_areas_nonneg_witness :
  Forall (λ x, 0 <= x) (sub_area (edge_df (final (update_all pillow)))) ∧
  Forall (λ x, 0 <= x) (area (face_df (final (update_all pillow)))).
Proof.
  exact (proj2 (update_areas_nonneg pillow (proj1 pillow_valid))).
Defined.

(** ** Geometry: normals and heights *)

Lemma dot_cross_r (a d : vec) : dot (cross a d) d = 0.
Proof. unfold dot, cross. cbn. ring. Qed.

(** After [update_normals] the normal of every edge is orthogonal to the
    displacement vector of that edge. *)
Theorem update_normals_orthogonal (s : Sheet) (e : nat) (n d : vec) :
  result (update_normals s) = Ok tt →
  ncoords (edge_df (final (update_normals s))) !! e = Some n →
  dcoords (edge_df (final (update_normals s))) !! e = Some d →
  dot n d = 0.
Proof.
  remember (update_normals s) as r eqn:Hr.
  unfold update_normals in Hr. m_step_in Hr.
  all: subst r; sheet_simpl; intros Hres Hn Hd; try discriminate.
  apply lookup_zip_with_Some in Hn as (q & d' & -> & _ & Hd').
  assert (d' = d) as -> by congruence.
  apply dot_cross_r.
Qed.

Lemma update_normals_orthogonal_witness :
  ∃ n d,
    ncoords (edge_df (final (update_normals square))) !! 0%nat = Some n ∧
    dcoords (edge_df (final (update_normals square))) !! 0%nat = Some d ∧
    dot n d = 0.
Proof.
  do 2 eexists. split; [reflexivity|]. split; [reflexivity|].
  apply (update_normals_orthogonal square 0); reflexivity.
Defined.

Lemma assign_where_lookup (flag old new : list R) (i : nat) (fl o n : R) :
  flag !! i = Some fl → old !! i = Some o → new !! i = Some n →
  assign_where flag old new !! i
  = Some (if bool_decide (fl = 1) then n else o).
Proof.
  intros Hf Ho Hn. unfold assign_where.
  apply lookup_zip_with_Some. exists fl, (o, n). split; [done|].
  split; [done|]. apply lookup_zip_with_Some. by exists o, n.
Qed.

(** The ['rho'] dispatch works row by row: in the four geometry modes
    the value it gives a vertex is the one it gives a table holding that
    vertex alone. *)
Lemma rho_column_row (st : Settings) (V : VertDF) (i : nat)
    (p : vec) (shift left right : R) :
  geometry st ∈ ["cylindrical"; "flat"; "spherical"; "rod"] →
  v_pos V !! i = Some p → left_tip V !! i = Some left →
  right_tip V !! i = Some right →
  rho_column st V !! i
  = head (rho_column st (mkVertDF [p] [0] [0] [shift] [left] [right])).
Proof.
  intros Hg Hp Hl Hr. unfold rho_column.
  destruct (other_axes (height_axis st)) as [u v].
  cbn [v_pos v_rho left_tip right_tip].
  repeat case_decide.
  - rewrite list_lookup_fmap, Hp. reflexivity.
  - rewrite list_lookup_fmap, Hp. reflexivity.
  - rewrite list_lookup_fmap, Hp. reflexivity.
  - destruct (ab st) as [a b]. cbn [map].
    erewrite assign_where_lookup; [| exact Hr | |].
    + unfold assign_where. cbn. reflexivity.
    + erewrite assign_where_lookup; [reflexivity| exact Hl | |].
      * by rewrite list_lookup_fmap, Hp.
      * by rewrite list_lookup_fmap, Hp.
    + by rewrite list_lookup_fmap, Hp.
  - exfalso. repeat (apply elem_of_cons in Hg as [Hg|Hg]; [done|]).
    by apply elem_of_nil in Hg.
Qed.

(** [update_height] works row by row.  In the four geometry modes the
    height it gives a vertex depends on the position, the basal shift
    and the tip flags of that vertex alone: it is the height that the
    same update gives a table holding only that vertex. *)
Theorem update_height_rowwise (s : Sheet) (i : nat) (p : vec)
    (shift left right : R) :
  geometry (settings s) ∈ ["cylindrical"; "flat"; "spherical"; "rod"] →
  v_pos (vert_df s) !! i = Some p →
  basal_shift (vert_df s) !! i = Some shift →
  left_tip (vert_df s) !! i = Some left →
  right_tip (vert_df s) !! i = Some right →
  v_height (vert_df (final (update_height s))) !! i
  = Some (height_at (settings s) shift left right p).
Proof.
  intros Hg Hp Hb Hl Hr.
  pose proof (rho_column_row (settings s) (vert_df s) i p shift left right
                Hg Hp Hl Hr) as Hrow.
  assert (Hh : zip_with Rminus (rho_column (settings s) (vert_df s))
                 (basal_shift (vert_df s)) !! i
               = Some (height_at (settings s) shift left right p)).
  { unfold height_at. cbn [basal_shift].
    destruct (rho_column (settings s)
                (mkVertDF [p] [0] [0] [shift] [left] [right])) as [|r0 rs]
      eqn:Hsingle.
    - exfalso. revert Hsingle. unfold rho_column.
      destruct (other_axes (height_axis (settings s))).
      cbn [v_pos v_rho left_tip right_tip].
      repeat case_decide; try discriminate.
      destruct (ab (settings s)). discriminate.
    - cbn in Hrow. cbn. apply lookup_zip_with_Some.
      exists r0, shift. done. }
  remember (update_height s) as r eqn:Hrun.
  unfold update_height in Hrun. m_step_in Hrun.
  all: subst r; sheet_simpl; exact Hh.
Qed.

Lemma update_height_rowwise_witness :
  v_height (vert_df (final (update_height rod))) !! 1%nat
  = Some (height_at (settings rod) 0 0 0 (mkV 1 0 0)).
Proof.
  apply (update_height_rowwise rod 1 (mkV 1 0 0) 0 0 0); try reflexivity.
  cbn. do 3 right. left.
Defined.

(** ** Geometry: projection and rotation of a face *)

Lemma upcast_map {A B} (f : A → B) (ids : list nat) (col : list A) :
  upcast ids (map f col)
  = match upcast ids col with Ok l => Ok (map f l) | Raise e => Raise e end.
Proof.
  unfold upcast. induction ids as [|i ids IH]; [reflexivity|].
  cbn. rewrite list_lookup_fmap.
  destruct (col !! i) as [a|]; [|reflexivity]. cbn.
  destruct (mapM (λ i, map f col !! i) ids) as [l|] eqn:H1;
    destruct (mapM (λ i, col !! i) ids) as [l'|] eqn:H2;
    cbn in *; congruence.
Qed.

(** [face_projected_pos] reads positions relative to the centre of the
    face: moving the whole sheet, vertices and face centres alike, by a
    vector does not change what it returns. *)
Theorem face_projected_pos_translate
    (svd_vh : list vec → matrix) (rotation_matrix : R → vec → matrix)
    (d : vec) (face_ : nat) (psi : R) (s : Sheet) :
  face_projected_pos svd_vh rotation_matrix face_ psi (translate d s)
  = face_projected_pos svd_vh rotation_matrix face_ psi s.
Proof.
  unfold face_projected_pos, translate, set_v_pos, set_f_pos.
  cbn [vert_df edge_df face_df v_pos f_pos srce face].
  destruct (upcast (where1 (face (edge_df s)) face_) (srce (edge_df s)))
    as [orbit|e]; [|reflexivity].
  cbn [mbind res_bind]. rewrite upcast_map.
  destruct (upcast orbit (v_pos (vert_df s))) as [pos|e]; [|reflexivity].
  cbn [mbind res_bind]. unfold loc. rewrite list_lookup_fmap.
  destruct (f_pos (face_df s) !! face_) as [c|]; [|reflexivity].
  cbn [fmap option_fmap option_map mbind res_bind].
  assert (Hrel : map (λ p, vsub p (vadd d c)) (map (vadd d) pos)
                 = map (λ p, vsub p c) pos).
  { rewrite map_map. apply map_ext. intros p. vec_ring. }
  by rewrite !Hrel.
Qed.

(** What [face_projected_pos] returns is labelled by the source vertices
    of the edges of the face, in stored order, and it returns for a face
    of three edges or more only.  When it raises, it raises [KeyError],
    for a vertex or a face that is not in its table, or [ValueError],
    for a face of fewer than three edges. *)
Theorem face_projected_pos_labels
    (svd_vh : list vec → matrix) (rotation_matrix : R → vec → matrix)
    (face_ : nat) (psi : R) (s : Sheet) :
  let face_edges := where1 (face (edge_df s)) face_ in
  match face_projected_pos svd_vh rotation_matrix face_ psi s with
  | Ok rot_pos =>
      upcast face_edges (srce (edge_df s)) = Ok rot_pos.*1 ∧
      (3 ≤ length face_edges)%nat
  | Raise e =>
      e = KeyError ∨ (e = ValueError ∧ (length face_edges < 3)%nat)
  end.
Proof.
  intros face_edges. unfold face_projected_pos. fold face_edges.
  destruct (upcast face_edges (srce (edge_df s))) as [orbit|e] eqn:Horbit.
  - cbn [mbind res_bind].
    destruct (upcast orbit (v_pos (vert_df s))) as [pos|e] eqn:Hpos.
    + cbn [mbind res_bind]. unfold loc.
      destruct (f_pos (face_df s) !! face_) as [c|]; [|by left].
      cbn [mbind res_bind].
      apply upcast_length in Hpos. apply upcast_length in Horbit.
      rewrite length_map.
      case_decide.
      * right. split; [done|lia].
      * split; [|lia]. f_equal. symmetry. apply fst_zip.
        rewrite !length_map. lia.
    + cbn [mbind res_bind]. left. by apply upcast_raise in Hpos as [? _].
  - cbn [mbind res_bind]. left. by apply upcast_raise in Horbit as [? _].
Qed.

Lemma group_map {A B} (h : A → B) (keys : list nat) (vals : list A) (k : nat) :
  group keys (map h vals) k = map h (group keys vals k).
Proof.
  unfold group. revert vals.
  induction keys as [|key keys IH]; intros [|v vals]; try reflexivity.
  cbn [map zip_with]. rewrite !filter_cons. cbn [fst].
  case_decide; cbn [fmap list_fmap map snd]; rewrite IH; reflexivity.
Qed.

Lemma vsum_scale (k : R) (l : list vec) :
  vsum (map (vscale k) l) = vscale k (vsum l).
Proof.
  induction l as [|p l IH]; [unfold vsum; cbn; vec_ring|].
  cbn [map]. rewrite !vsum_cons, IH. vec_ring.
Qed.

Lemma norm_scale (k : R) (p : vec) : 0 <= k → norm (vscale k p) = k * norm p.
Proof.
  intros Hk. unfold norm, vscale. cbn [vx vy vz].
  replace (k * vx p * (k * vx p) + k * vy p * (k * vy p)
           + k * vz p * (k * vz p))
    with (k * k * (vx p * vx p + vy p * vy p + vz p * vz p)) by ring.
  rewrite sqrt_mult_alt by nra. by rewrite sqrt_square.
Qed.

Lemma div_scale (k x n : R) : k ≠ 0 → k * x / (k * n) = x / n.
Proof.
  intros Hk. unfold Rdiv. rewrite Rinv_mult.
  replace (k * x * (/ k * / n)) with (k * / k * (x * / n)) by ring.
  rewrite Rinv_r by done. ring.
Qed.

(** [face_rotation] reads the direction of the mean normal of the face,
    not its length: scaling every normal by the same positive factor
    gives the same rotation. *)
Theorem face_rotation_scale
    (rotation_matrix : R → vec → matrix) (arctan2 : R → R → R)
    (k : R) (face_ : nat) (psi : R) (s : Sheet) :
  0 < k →
  face_rotation rotation_matrix arctan2 face_ psi (scale_normals k s)
  = face_rotation rotation_matrix arctan2 face_ psi s.
Proof.
  intros Hk. unfold face_rotation, scale_normals.
  sheet_simpl. cbn [ncoords].
  rewrite group_map.
  remember (group (face (edge_df s)) (ncoords (edge_df s)) face_) as l.
  assert (Hmean : vmean (map (vscale k) l) = vscale k (vmean l)).
  { unfold vmean. rewrite vsum_scale, length_map. vec_lra. }
  rewrite Hmean, norm_scale by lra.
  assert (Hunit : vdiv (vscale k (vmean l)) (k * norm (vmean l))
                  = vdiv (vmean l) (norm (vmean l))).
  { apply vec_ext; unfold vdiv, vscale; cbn [vx vy vz];
      apply div_scale; lra. }
  by rewrite Hunit.
Qed.

Lemma face_rotation_scale_witness :
  face_rotation (λ _ _, (vzero, vzero, vzero)) (λ _ _, 0) 0 0
    (scale_normals 2 square)
  = face_rotation (λ _ _, (vzero, vzero, vzero)) (λ _ _, 0) 0 0 square.
Proof. apply face_rotation_scale. lra. Defined.

(** ** Geometry: the tips of a rod *)

(** After [reset_scafold] on a rod whose new parameters satisfy
    [a <= b], no vertex is flagged as a left tip and as a right tip at
    once, so that the two assignments of [update_height] never compete
    for a vertex; the flags are those of the position along the height
    axis against [b - a]. *)
Theorem reset_scafold_tips_disjoint
    (percentile : list R → R → R) (center : M unit) (s : Sheet)
    (i : nat) (l r : R) :
  let s' := final (reset_scafold percentile center s) in
  result (reset_scafold percentile center s) = Ok tt →
  geometry (settings s') = "rod" →
  (ab (settings s')).1 <= (ab (settings s')).2 →
  left_tip (vert_df s') !! i = Some l →
  right_tip (vert_df s') !! i = Some r →
  ¬ (l = 1 ∧ r = 1) ∧
  ∃ p, v_pos (vert_df s') !! i = Some p ∧
    let w0 := (ab (settings s')).2 - (ab (settings s')).1 in
    l = flag (coord (height_axis (settings s)) p < - w0) ∧
    r = flag (w0 < coord (height_axis (settings s)) p).
Proof.
  cbv zeta. remember (reset_scafold percentile center s) as rr eqn:Hrun.
  unfold reset_scafold in Hrun. rewrite bind_read in Hrun. cbv beta in Hrun.
  destruct (other_axes (height_axis (settings s))) as [u v].
  unfold mbind at 1, M_bind at 1 in Hrun.
  destruct (center s) as [[[]|e] s1 l1]; [|subst rr; discriminate].
  rewrite bind_read in Hrun. cbv beta in Hrun.
  case_decide as Hrod.
  - m_step_in Hrun. unfold with_settings, set_ab, set_tips in Hrun.
    sheet_simpl. subst rr. cbn [result final settings ab fst snd vert_df
      left_tip right_tip v_pos geometry].
    intros _ _ Hab Hl Hr.
    rewrite list_lookup_fmap in Hl, Hr.
    destruct (v_pos (vert_df s1) !! i) as [p|]; [|discriminate].
    injection Hl as <-. injection Hr as <-.
    split.
    + unfold flag. repeat case_decide; intros [? ?]; lra.
    + by exists p.
  - rewrite mret_run in Hrun. subst rr. cbn [result final].
    intros _ Hg. done.
Qed.

Lemma reset_scafold_tips_disjoint_witness :
  ∃ l r,
    left_tip (vert_df (final (reset_scafold (λ _ _, 0) (mret tt) rod)))
      !! 0%nat = Some l ∧
    right_tip (vert_df (final (reset_scafold (λ _ _, 0) (mret tt) rod)))
      !! 0%nat = Some r ∧
    ¬ (l = 1 ∧ r = 1).
Proof.
  do 2 eexists. split; [reflexivity|]. split; [reflexivity|].
  refine (proj1 (reset_scafold_tips_disjoint (λ _ _, 0) (mret tt) rod 0 _ _
                   _ _ _ _ _)).
  - reflexivity.
  - reflexivity.
  - apply Rle_refl.
  - reflexivity.
  - reflexivity.
Defined.

(** ** Mechanical model: elastic terms *)

Lemma fsum_insert (l : list R) (i : nat) (x y : R) :
  l !! i = Some y → fsum (<[i:=x]> l) = fsum l - y + x.
Proof.
  revert i. induction l as [|a l IH]; intros [|i] H; try discriminate.
  - injection H as ->. cbn [insert list_insert]. rewrite !fsum_cons. lra.
  - change (<[S i:=x]> (a :: l)) with (a :: <[i:=x]> l).
    rewrite !fsum_cons, (IH i H). lra.
Qed.

Lemma elastic_energy_insert (xs Ks x0s : list R) (i : nat) (t x K x0 : R) :
  xs !! i = Some x → Ks !! i = Some K → x0s !! i = Some x0 →
  fsum (elastic_energy (<[i:=t]> xs) Ks x0s)
  = fsum (elastic_energy xs Ks x0s)
    - 0.5 * K * (x - x0) ^ 2 + 0.5 * K * (t - x0) ^ 2.
Proof.
  intros Hx HK H0. unfold elastic_energy.
  assert (Hz : zip (<[i:=t]> xs) x0s = <[i:=(t, x0)]> (zip xs x0s)).
  { rewrite insert_zip_with. by rewrite (list_insert_id x0s i x0). }
  rewrite Hz.
  assert (Hi : zip_with (λ k xx, 0.5 * k * (xx.1 - xx.2) ^ 2) Ks
                 (<[i:=(t, x0)]> (zip xs x0s))
               = <[i := 0.5 * K * (t - x0) ^ 2]>
                   (zip_with (λ k xx, 0.5 * k * (xx.1 - xx.2) ^ 2) Ks
                      (zip xs x0s))).
  { rewrite <- (list_insert_id Ks i K) at 1 by done.
    by rewrite <- insert_zip_with. }
  rewrite Hi. apply fsum_insert.
  apply lookup_zip_with_Some. exists K, (x, x0). split; [done|].
  split; [done|]. apply lookup_zip_with_Some. by exists x, x0.
Qed.

Lemma derivable_pt_lim_quadratic (C K x0 x : R) :
  derivable_pt_lim (λ t, C + 0.5 * K * (t - x0) ^ 2) x (K * (x - x0)).
Proof.
  apply (derivable_pt_lim_ext _
           (fct_cte C
            + mult_real_fct (0.5 * K)
                ((id - fct_cte x0) * (id - fct_cte x0)))%F).
  - intros t. unfold plus_fct, mult_real_fct, mult_fct, minus_fct, fct_cte, id.
    ring.
  - replace (K * (x - x0))
      with (0 + 0.5 * K * ((1 - 0) * (id - fct_cte x0)%F x
                           + (id - fct_cte x0)%F x * (1 - 0)))
      by (unfold minus_fct, fct_cte, id; lra).
    apply derivable_pt_lim_plus; [apply derivable_pt_lim_const|].
    apply derivable_pt_lim_scal.
    apply derivable_pt_lim_mult;
      apply derivable_pt_lim_minus;
      first [apply derivable_pt_lim_id | apply derivable_pt_lim_const].
Qed.

(** [elastic_force] is the derivative of [elastic_energy]: the force of
    a row is the derivative of the total elastic energy with respect to
    the variable of that row. *)
Theorem elastic_force_derivative (xs Ks x0s : list R) (i : nat) (x K x0 : R) :
  xs !! i = Some x → Ks !! i = Some K → x0s !! i = Some x0 →
  ∃ F, elastic_force xs Ks x0s !! i = Some F ∧
    derivable_pt_lim (λ t, fsum (elastic_energy (<[i:=t]> xs) Ks x0s)) x F.
Proof.
  intros Hx HK H0. exists (K * (x - x0)). split.
  - unfold elastic_force. apply lookup_zip_with_Some.
    exists K, (x, x0). split; [done|]. split; [done|].
    apply lookup_zip_with_Some. by exists x, x0.
  - apply (derivable_pt_lim_ext _
             (λ t, (fsum (elastic_energy xs Ks x0s) - 0.5 * K * (x - x0) ^ 2)
                   + 0.5 * K * (t - x0) ^ 2)).
    + intros t. by apply elastic_energy_insert.
    + apply derivable_pt_lim_quadratic.
Qed.

Lemma elastic_force_derivative_witness :
  ∃ F, elastic_force [3; 5] [2; 1] [1; 1] !! 0%nat = Some F ∧
    derivable_pt_lim
      (λ t, fsum (elastic_energy (<[0%nat:=t]> [3; 5]) [2; 1] [1; 1])) 3 F.
Proof. apply (elastic_force_derivative [3; 5] [2; 1] [1; 1] 0 3 2 1); reflexivity. Defined.

(** ** Mechanical model: sign of the energy *)

Lemma at0_nonneg (col : list R) (i : nat) :
  Forall (λ x, 0 <= x) col → 0 <= at0 col i.
Proof.
  intros H. unfold at0. destruct (col !! i) as [x|] eqn:Hx; cbn; [|lra].
  by eapply (Forall_lookup_1 _ col i x) in H.
Qed.

Lemma fsum_map_nonneg {A} (h : A → R) (l : list A) :
  (∀ a, 0 <= h a) → 0 <= fsum (map h l).
Proof.
  intros Hh. apply fsum_nonneg, Forall_fmap, Forall_forall.
  intros a _. apply Hh.
Qed.

Lemma fsum_map_zero {A} (h : A → R) (l : list A) :
  (∀ a, h a = 0) → fsum (map h l) = 0.
Proof.
  intros Hh. induction l as [|a l IH]; [reflexivity|].
  cbn [map]. rewrite fsum_cons, Hh, IH. lra.
Qed.

(** With line tensions, contractilities and elastic moduli that are not
    negative, edge lengths that are not negative and a positive norm
    factor, the energy of a well-formed sheet is not negative. *)
Theorem compute_energy_nonneg (s : Sheet) :
  wf_sheet s →
  Forall (λ x, 0 <= x) (line_tension (edge_df s)) →
  Forall (λ x, 0 <= x) (e_length (edge_df s)) →
  Forall (λ x, 0 <= x) (contractility (face_df s)) →
  Forall (λ x, 0 <= x) (vol_elasticity (face_df s)) →
  0 < nrj_norm_factor (settings s) →
  ∃ e, compute_energy s false = Ok (Float e) ∧ 0 <= e.
Proof.
  intros Hwf Hlt Hl Hc Hk HN.
  exists (energy_spec s). split; [by apply compute_energy_scalar|].
  unfold energy_spec.
  assert (Ht : 0 <= tension_energy s).
  { apply fsum_map_nonneg. intros e. destruct (edge_live s e); [|lra].
    pose proof (at0_nonneg _ e Hlt). pose proof (at0_nonneg _ e Hl). nra. }
  assert (Hcn : 0 <= contractility_energy s).
  { apply fsum_map_nonneg. intros f. destruct (face_live s f); [|lra].
    pose proof (at0_nonneg _ f Hc).
    pose proof (pow2_ge_0 (at0 (perimeter (face_df s)) f)). nra. }
  assert (Hv : 0 <= volume_energy s).
  { apply fsum_map_nonneg. intros f. destruct (face_live s f); [|lra].
    pose proof (at0_nonneg _ f Hk).
    pose proof (pow2_ge_0 (at0 (vol (face_df s)) f
                           - at0 (prefered_vol (face_df s)) f)). nra. }
  apply Rmult_le_pos; [lra|]. left. by apply Rinv_0_lt_compat.
Qed.

Lemma compute_energy_nonneg_witness :
  ∃ e, compute_energy square false = Ok (Float e) ∧ 0 <= e.
Proof.
  apply (compute_energy_nonneg square square_wf);
    cbn; repeat constructor; lra.
Defined.

(** A well-formed sheet with no live face has no energy: the value
    returned is [0], whatever the parameters, for a norm factor that is
    not zero (zero divided by zero is [nan]). *)
Theorem compute_energy_all_dead (s : Sheet) :
  wf_sheet s →
  Forall (λ a, a ≠ 1) (is_alive (face_df s)) →
  nrj_norm_factor (settings s) ≠ 0 →
  compute_energy s false = Ok (Float 0).
Proof.
  intros Hwf Hdead HN.
  rewrite compute_energy_scalar by done. do 2 f_equal.
  assert (Hf : ∀ f, face_live s f = false).
  { intros f. unfold face_live. apply bool_decide_eq_false_2.
    intros Hff. eapply (Forall_lookup_1 _ _ f 1) in Hdead; done. }
  assert (He : ∀ e, edge_live s e = false).
  { intros e. unfold edge_live. apply bool_decide_eq_false_2.
    destruct (face (edge_df s) !! e) as [f|]; cbn; [|done].
    intros Hfe. eapply (Forall_lookup_1 _ _ f 1) in Hdead; done. }
  unfold energy_spec, tension_energy, contractility_energy, volume_energy.
  rewrite !fsum_map_zero; [lra| | |].
  - intros f. by rewrite Hf.
  - intros f. by rewrite Hf.
  - intros e. by rewrite He.
Qed.

Lemma dead_square_wf : wf_sheet dead_square.
Proof.
  split; [|split; [|split]].
  - repeat split.
  - repeat split.
  - repeat split.
  - unfold refs_ok, n_verts, n_faces. cbn. repeat split; repeat constructor.
Qed.

Lemma compute_energy_all_dead_witness :
  compute_energy dead_square false = Ok (Float 0).
Proof.
  apply (compute_energy_all_dead dead_square dead_square_wf).
  - cbn. repeat constructor. lra.
  - cbn. lra.
Defined.

(** ** Mechanical model: the edges of a dead face *)

(** The tension and the contractility terms of an edge of a dead face
    are zero, whatever the length gradients they are handed. *)
Theorem dead_face_zero_terms (s : Sheet) (grad_lij grad_t grad_c : list vec)
    (e f : nat) :
  wf_sheet s → length grad_lij = n_edges s →
  tension_grad s grad_lij = Ok grad_t →
  contractile_grad s grad_lij = Ok grad_c →
  face (edge_df s) !! e = Some f →
  is_alive (face_df s) !! f = Some 0 →
  grad_t !! e = Some vzero ∧ grad_c !! e = Some vzero.
Proof.
  intros Hwf Hlen Htg Hcg Hf Hdead.
  destruct Hwf as (_ & (He1 & He2 & He3 & He4 & He5 & He6 & He7 & He8) & _).
  unfold n_edges in Hlen.
  assert (He : (e < length (srce (edge_df s)))%nat).
  { apply lookup_lt_Some in Hf. lia. }
  unfold tension_grad in Htg.
  apply res_bind_Ok in Htg as (live & Hlive & Htg). injection Htg as <-.
  unfold contractile_grad in Hcg.
  apply res_bind_Ok in Hcg as (gamma & Hgamma & Hcg). injection Hcg as <-.
  pose proof (upcast_lookup _ _ _ e Hlive) as Hl1.
  pose proof (upcast_lookup _ _ _ e Hgamma) as Hl2.
  pose proof (upcast_length _ _ _ Hlive) as Hn1.
  pose proof (upcast_length _ _ _ Hgamma) as Hn2.
  rewrite Hf in Hl1, Hl2. cbn in Hl1, Hl2. rewrite Hdead in Hl1.
  destruct (lookup_lt_is_Some_2 grad_lij e) as [g Hg]; [lia|].
  destruct (lookup_lt_is_Some_2 (line_tension (edge_df s)) e) as [lt Hlt];
    [lia|].
  destruct (lookup_lt_is_Some_2 gamma e) as [c Hc]; [lia|].
  rewrite Hc in Hl2. symmetry in Hl2.
  apply lookup_zip_with_Some in Hl2 as (c0 & pa & -> & _ & Hpa).
  apply lookup_zip_with_Some in Hpa as (p & a & -> & _ & Ha).
  rewrite Hdead in Ha. injection Ha as <-.
  split.
  - rewrite lookup_zip_with, Hg. cbn.
    rewrite lookup_zip_with, Hlt, Hl1. cbn. f_equal. vec_ring.
  - rewrite lookup_zip_with, Hg, Hc. cbn. f_equal. cbn. vec_ring.
Qed.

Lemma dead_face_zero_terms_witness :
  ∃ grad_t grad_c,
    tension_grad dead_square (length_grad dead_square) = Ok grad_t ∧
    contractile_grad dead_square (length_grad dead_square) = Ok grad_c ∧
    grad_t !! 0%nat = Some vzero ∧ grad_c !! 0%nat = Some vzero.
Proof.
  destruct (per_edge_grads_return dead_square dead_square_wf)
    as (gt & gc & Ht & Hc).
  exists gt, gc. split; [exact Ht|]. split; [exact Hc|].
  exact (dead_face_zero_terms dead_square (length_grad dead_square) gt gc 0 0
           dead_square_wf eq_refl Ht Hc eq_refl eq_refl).
Defined.

(** ** Mechanical model: the height gradient off the axis *)

Lemma derivable_pt_lim_sqrt_shift (a c : R) :
  0 < a * a + c →
  derivable_pt_lim (λ t, sqrt ((a + t) * (a + t) + c)) 0
    (a / sqrt (a * a + c)).
Proof.
  intros Hpos.
  pose (q := (((fct_cte a + id) * (fct_cte a + id)) + fct_cte c)%F).
  assert (Hq : derivable_pt_lim q 0 (2 * a)).
  { unfold q.
    replace (2 * a)
      with (((0 + 1) * (fct_cte a + id)%F 0 + (fct_cte a + id)%F 0 * (0 + 1))
            + 0)
      by (unfold plus_fct, fct_cte, id; lra).
    apply derivable_pt_lim_plus; [|apply derivable_pt_lim_const].
    apply derivable_pt_lim_mult;
      (apply derivable_pt_lim_plus;
       [apply derivable_pt_lim_const|apply derivable_pt_lim_id]). }
  assert (Hq0 : q 0 = a * a + c).
  { unfold q, plus_fct, mult_fct, fct_cte, id. ring. }
  assert (Hs : derivable_pt_lim sqrt (q 0) (/ (2 * sqrt (a * a + c)))).
  { rewrite Hq0. by apply derivable_pt_lim_sqrt. }
  pose proof (derivable_pt_lim_comp _ _ _ _ _ Hq Hs) as Hcomp.
  assert (Hne : sqrt (a * a + c) ≠ 0).
  { pose proof (sqrt_lt_R0 _ Hpos). lra. }
  replace (a / sqrt (a * a + c)) with (/ (2 * sqrt (a * a + c)) * (2 * a))
    by (field; done).
  apply (derivable_pt_lim_ext _ (comp sqrt q)); [|exact Hcomp].
  intros t. unfold comp, q, plus_fct, mult_fct, fct_cte, id. reflexivity.
Qed.

Lemma derivable_pt_lim_shifted (f : R → R) (b l : R) :
  derivable_pt_lim f 0 l → derivable_pt_lim (λ t, f t - b) 0 l.
Proof.
  intros Hf. replace l with (l - 0) by lra.
  apply (derivable_pt_lim_minus f (fct_cte b)); [done|].
  apply derivable_pt_lim_const.
Qed.

Lemma sqrt_nonzero_pos (x : R) : sqrt x ≠ 0 → 0 < x.
Proof.
  intros Hs. destruct (Rlt_le_dec 0 x) as [|Hle]; [done|].
  destruct Hs. by apply sqrt_neg_0.
Qed.

(** The norm of a moved vertex, as a function of the move. *)
Lemma norm_move_derivative (k : axis) (p : vec) :
  norm p ≠ 0 →
  derivable_pt_lim (λ t, norm (move k t p)) 0 (coord k p / norm p).
Proof.
  intros Hn. apply sqrt_nonzero_pos in Hn as Hpos. unfold norm in *.
  destruct p as [x y z]. destruct k; cbn [coord vx vy vz move set_coord] in *.
  - replace (x * x + y * y + z * z) with (x * x + (y * y + z * z)) by ring.
    apply (derivable_pt_lim_ext _
             (λ t, sqrt ((x + t) * (x + t) + (y * y + z * z)))).
    + intros t. f_equal. ring.
    + apply derivable_pt_lim_sqrt_shift. lra.
  - replace (x * x + y * y + z * z) with (y * y + (x * x + z * z)) by ring.
    apply (derivable_pt_lim_ext _
             (λ t, sqrt ((y + t) * (y + t) + (x * x + z * z)))).
    + intros t. f_equal. ring.
    + apply derivable_pt_lim_sqrt_shift. lra.
  - replace (x * x + y * y + z * z) with (z * z + (x * x + y * y)) by ring.
    apply (derivable_pt_lim_ext _
             (λ t, sqrt ((z + t) * (z + t) + (x * x + y * y)))).
    + intros t. f_equal. ring.
    + apply derivable_pt_lim_sqrt_shift. lra.
Qed.

(** The distance to the z axis of a moved vertex. *)
Lemma hypot_move_derivative (k : axis) (p : vec) :
  hypot (vy p) (vx p) ≠ 0 →
  derivable_pt_lim (λ t, hypot (vy (move k t p)) (vx (move k t p))) 0
    (coord k (set_coord AxisZ 0 (vdiv p (hypot (vy p) (vx p))))).
Proof.
  intros Hn. apply sqrt_nonzero_pos in Hn as Hpos. unfold hypot in *.
  destruct p as [x y z].
  destruct k; cbn [coord vx vy vz move set_coord vdiv] in *.
  - replace (y * y + x * x) with (x * x + y * y) by ring.
    apply (derivable_pt_lim_ext _ (λ t, sqrt ((x + t) * (x + t) + y * y))).
    + intros t. f_equal. ring.
    + apply derivable_pt_lim_sqrt_shift. lra.
  - apply (derivable_pt_lim_ext _ (λ t, sqrt ((y + t) * (y + t) + x * x))).
    + intros t. reflexivity.
    + apply derivable_pt_lim_sqrt_shift. lra.
  - apply (derivable_pt_lim_const (sqrt (y * y + x * x))).
Qed.

(** In spherical mode, and in cylindrical mode about the z axis, the
    height gradient of the code is the derivative of the height: for a
    sheet whose ['rho'] column is up to date, at every vertex that does
    not lie on the centre, or on the axis. *)
Theorem height_grad_off_axis (s : Sheet) (i : nat) (p : vec)
    (shift left right rho : R) :
  geometry (settings s) = "spherical" ∨
  (geometry (settings s) = "cylindrical" ∧ height_axis (settings s) = AxisZ) →
  v_rho (vert_df s) = rho_column (settings s) (vert_df s) →
  v_pos (vert_df s) !! i = Some p →
  v_rho (vert_df s) !! i = Some rho → rho ≠ 0 →
  ∃ h_grad g,
    height_grad s = Ok h_grad ∧ h_grad !! i = Some g ∧
    is_height_gradient (settings s) shift left right p g.
Proof.
  intros Hmode Hrho Hp Hri Hne.
  destruct Hmode as [Hsph|[Hcyl Hz]].
  - assert (Hcol : rho_column (settings s) (vert_df s)
                   = map norm (v_pos (vert_df s))).
    { unfold rho_column. rewrite Hsph. by destruct (other_axes _). }
    rewrite Hrho, Hcol in Hri.
    rewrite list_lookup_fmap, Hp in Hri. injection Hri as <-.
    exists (zip_with vdiv (v_pos (vert_df s)) (v_rho (vert_df s))),
      (vdiv p (norm p)).
    split; [unfold height_grad; by rewrite Hsph|]. split.
    + apply lookup_zip_with_Some. exists p, (norm p). split; [done|].
      split; [done|]. rewrite Hrho, Hcol. by rewrite list_lookup_fmap, Hp.
    + intros k.
      apply (derivable_pt_lim_ext _ (λ t, norm (move k t p) - shift)).
      * intros t. unfold height_at, rho_column. rewrite Hsph.
        by destruct (other_axes _).
      * apply derivable_pt_lim_shifted.
        replace (coord k (vdiv p (norm p))) with (coord k p / norm p)
          by (by destruct k).
        by apply norm_move_derivative.
  - assert (Hcol : rho_column (settings s) (vert_df s)
                   = map (λ p, hypot (vy p) (vx p)) (v_pos (vert_df s))).
    { unfold rho_column. by rewrite Hcyl, Hz. }
    rewrite Hrho, Hcol in Hri.
    rewrite list_lookup_fmap, Hp in Hri. injection Hri as <-.
    exists (map (set_coord AxisZ 0)
              (zip_with vdiv (v_pos (vert_df s)) (v_rho (vert_df s)))),
      (set_coord AxisZ 0 (vdiv p (hypot (vy p) (vx p)))).
    split; [unfold height_grad; by rewrite Hcyl|]. split.
    + rewrite list_lookup_fmap.
      assert (Hz' : zip_with vdiv (v_pos (vert_df s)) (v_rho (vert_df s)) !! i
                    = Some (vdiv p (hypot (vy p) (vx p)))).
      { apply lookup_zip_with_Some. exists p, (hypot (vy p) (vx p)).
        split; [done|]. split; [done|]. rewrite Hrho, Hcol.
        by rewrite list_lookup_fmap, Hp. }
      by rewrite Hz'.
    + intros k.
      apply (derivable_pt_lim_ext _
               (λ t, hypot (vy (move k t p)) (vx (move k t p)) - shift)).
      * intros t. unfold height_at, rho_column. by rewrite Hcyl, Hz.
      * apply derivable_pt_lim_shifted. by apply hypot_move_derivative.
Qed.

Lemma height_grad_off_axis_witness :
  ∃ h_grad g,
    height_grad ball = Ok h_grad ∧ h_grad !! 0%nat = Some g ∧
    is_height_gradient (settings ball) 0 0 0 (mkV 1 0 0) g.
Proof.
  apply (height_grad_off_axis ball 0 (mkV 1 0 0) 0 0 0 (norm (mkV 1 0 0))).
  - by left.
  - reflexivity.
  - reflexivity.
  - reflexivity.
  - unfold norm. cbn [vx vy vz].
    replace (1 * 1 + 0 * 0 + 0 * 0) with 1 by ring.
    rewrite sqrt_1. lra.
Defined.

(** ** Mechanical model: the area gradient *)

Lemma dot_cross_l (a n : vec) : dot (cross n a) n = 0.
Proof. unfold dot, cross. cbn. ring. Qed.

Lemma dot_scale (k : R) (a n : vec) : dot (vscale k a) n = k * dot a n.
Proof. unfold dot, vscale. cbn. ring. Qed.

(** The two area gradients of an edge are orthogonal to the normal of
    that edge: they lie in the plane of the triangle that the edge forms
    with the centre of its face. *)
Theorem area_grad_in_plane (s : Sheet) (grad_a_srce grad_a_trgt : list vec)
    (e : nat) (a b n : vec) :
  area_grad s = Ok (grad_a_srce, grad_a_trgt) →
  grad_a_srce !! e = Some a → grad_a_trgt !! e = Some b →
  ncoords (edge_df s) !! e = Some n →
  dot a n = 0 ∧ dot b n = 0.
Proof.
  intros Hgrad Ha Hb Hn. unfold area_grad in Hgrad.
  apply res_bind_Ok in Hgrad as (fp & _ & Hgrad).
  apply res_bind_Ok in Hgrad as (sp & _ & Hgrad).
  apply res_bind_Ok in Hgrad as (tp & _ & Hgrad).
  injection Hgrad as <- <-.
  apply lookup_zip_with_Some in Ha as (k1 & c1 & -> & _ & Hc1).
  apply lookup_zip_with_Some in Hc1 as (r1 & n1 & -> & _ & Hn1).
  apply lookup_zip_with_Some in Hb as (k2 & c2 & -> & _ & Hc2).
  apply lookup_zip_with_Some in Hc2 as (n2 & r2 & -> & Hn2 & _).
  assert (n1 = n) as -> by congruence.
  assert (n2 = n) as -> by congruence.
  rewrite !dot_scale, dot_cross_r, dot_cross_l. lra.
Qed.

Lemma area_grad_in_plane_witness :
  ∃ grad_a_srce grad_a_trgt a b n,
    area_grad square = Ok (grad_a_srce, grad_a_trgt) ∧
    grad_a_srce !! 0%nat = Some a ∧ grad_a_trgt !! 0%nat = Some b ∧
    ncoords (edge_df square) !! 0%nat = Some n ∧
    dot a n = 0 ∧ dot b n = 0.
Proof.
  do 5 eexists.
  split; [reflexivity|]. split; [reflexivity|]. split; [reflexivity|].
  split; [reflexivity|].
  eapply (area_grad_in_plane square _ _ 0); reflexivity.
Defined.

(** ** Mechanical model: the two norm factors *)

Lemma Rpower_three_halves (x : R) : 0 < x → Rpower x 1.5 * sqrt x = x ^ 2.
Proof.
  intros Hx. rewrite <- (Rpower_sqrt x Hx), <- Rpower_plus.
  replace (1.5 + / 2) with (INR 2) by (cbn; lra).
  by apply Rpower_pow.
Qed.

(** For a positive elastic modulus, a positive preferred area and a
    preferred height that is not zero, both norm factors that
    [dimentionalize] stores are positive, and the energy factor is the
    gradient factor times the square root of the preferred area: the two
    agree only for a unit preferred area. *)
Theorem dimentionalize_factors (mod_specs : ModSpecs) :
  0 < spec_vol_elasticity mod_specs →
  0 < spec_prefered_area mod_specs →
  spec_prefered_height mod_specs ≠ 0 →
  let dim := dimentionalize mod_specs in
  0 < spec_grad_norm_factor dim ∧ 0 < spec_nrj_norm_factor dim ∧
  spec_nrj_norm_factor dim
  = spec_grad_norm_factor dim * sqrt (spec_prefered_area mod_specs) ∧
  (spec_nrj_norm_factor dim = spec_grad_norm_factor dim ↔
   spec_prefered_area mod_specs = 1).
Proof.
  intros HK HA Hh. cbv zeta. unfold dimentionalize.
  cbn [spec_grad_norm_factor spec_nrj_norm_factor].
  set (Kv := spec_vol_elasticity mod_specs) in *.
  set (A0 := spec_prefered_area mod_specs) in *.
  set (h0 := spec_prefered_height mod_specs) in *.
  assert (Hp : 0 < Rpower A0 1.5) by apply exp_pos.
  assert (Hh2 : 0 < h0 ^ 2) by (cbn; destruct (Rdichotomy _ _ Hh); nra).
  assert (Hs : 0 < sqrt A0) by (by apply sqrt_lt_R0).
  assert (Hrel : Kv * (A0 * h0) ^ 2 = Kv * Rpower A0 1.5 * h0 ^ 2 * sqrt A0).
  { replace (Kv * Rpower A0 1.5 * h0 ^ 2 * sqrt A0)
      with (Kv * (Rpower A0 1.5 * sqrt A0) * h0 ^ 2) by ring.
    rewrite Rpower_three_halves by done. ring. }
  assert (Hg : 0 < Kv * Rpower A0 1.5 * h0 ^ 2).
  { apply Rmult_lt_0_compat; [|done]. by apply Rmult_lt_0_compat. }
  split; [exact Hg|]. split; [|split; [exact Hrel|]].
  - rewrite Hrel. by apply Rmult_lt_0_compat.
  - rewrite Hrel. split.
    + intros Heq.
      assert (Hs1 : sqrt A0 = 1) by nra.
      rewrite <- (sqrt_sqrt A0) by lra. rewrite Hs1. lra.
    + intros ->. rewrite sqrt_1. lra.
Qed.

Lemma dimentionalize_factors_witness :
  0 < spec_grad_norm_factor (dimentionalize get_default_mod_specs) ∧
  0 < spec_nrj_norm_factor (dimentionalize get_default_mod_specs) ∧
  spec_nrj_norm_factor (dimentionalize get_default_mod_specs)
  = spec_grad_norm_factor (dimentionalize get_default_mod_specs) * sqrt 24.
Proof.
  destruct (dimentionalize_factors get_default_mod_specs)
    as (Hg & Hn & Hrel & _); try (cbn; lra).
  split; [exact Hg|]. split; [exact Hn|exact Hrel].
Defined.

(** ** Topology: a transition keeps the tables well-formed *)

(** A transition on an interior edge of a well-formed sheet leaves a
    well-formed sheet: every column has kept its length and the six
    rewired edges refer to vertices and faces of the sheet, so that the
    geometry update that follows a transition runs through. *)
Theorem type1_transition_well_formed (s : Sheet) (edge01 : nat) (epsilon : R)
    (nb : neighbours) :
  wf_sheet s → interior_edge s edge01 nb →
  wf_sheet (final (type1_transition edge01 epsilon s)) ∧
  result (update_all (final (type1_transition edge01 epsilon s))) = Ok tt.
Proof.
  intros Hwf Hint.
  assert (Hwf' : wf_sheet (final (type1_transition edge01 epsilon s))).
  { destruct (type1_transition_run s edge01 epsilon nb Hwf Hint)
      as (p0 & p1 & dc & Hdc & ->).
    pose proof (t1_refs s edge01 nb p0 p1 Hwf Hint) as Hrefs.
    destruct Hwf as (Hv & He & Hf & _).
    cbn [final]. unfold n_edges in Hdc.
    split; [|split; [|split; [exact Hf|exact Hrefs]]].
    - destruct Hv as (Hv1 & Hv2 & Hv3 & Hv4 & Hv5).
      unfold wf_vert. cbn. rewrite !length_insert. done.
    - destruct He as (He1 & He2 & He3 & He4 & He5 & He6 & He7 & He8).
      unfold wf_edge. cbn. rewrite !length_insert. done. }
  split; [exact Hwf'|].
  by destruct (update_all_outcome _ Hwf') as (s' & -> & _).
Qed.

Lemma type1_transition_well_formed_witness :
  wf_sheet (final (type1_transition 0 (1/10) pillow)) ∧
  result (update_all (final (type1_transition 0 (1/10) pillow))) = Ok tt.
Proof.
  exact (type1_transition_well_formed pillow 0 (1/10)
           (mkNeighbours 0 1 2 3 0 0 1 1 4 7 3 1 5)
           (proj1 pillow_valid) pillow_interior).
Defined.

(** ** Topology: what a division adds *)

Lemma bind_run {A B} (m : M A) (k : A → M B) (s : Sheet) :
  (m ≫= k) s
  = match m s with
    | Run (Ok a) s' l =>
        match k a s' with Run r s'' l' => Run r s'' (l ++ l') end
    | Run (Raise e) s' l => Run (Raise e) s' l
    end.
Proof. reflexivity. Qed.

Lemma add_vert_ok (s : Sheet) (edge : nat) (x : nat * nat * nat) :
  wf_sheet s → result (add_vert edge s) = Ok x →
  wf_sheet (final (add_vert edge s)) ∧
  n_verts (final (add_vert edge s)) = S (n_verts s) ∧
  n_edges (final (add_vert edge s)) = S (S (n_edges s)) ∧
  n_faces (final (add_vert edge s)) = n_faces s.
Proof.
  intros Hwf Hres.
  destruct (srce (edge_df s) !! edge) as [srce_|] eqn:Hs.
  - destruct (lookup_lt_is_Some_2 (trgt (edge_df s)) edge) as [trgt_ Ht].
    { destruct Hwf as (_ & (He1 & _) & _). apply lookup_lt_Some in Hs. lia. }
    destruct (where2 (srce (edge_df s)) trgt_ (trgt (edge_df s)) srce_)
      as [|o sel] eqn:Hsel.
    + revert Hres. unfold add_vert.
      do 3 (rewrite bind_read; cbv beta; unfold loc;
            rewrite ?Hs, ?Ht, ?Hsel; cbn [index0]).
      discriminate.
    + destruct (add_vert_outcome s edge srce_ trgt_ Hwf Hs Ht)
        as (? & ? & ? & s' & _ & _ & -> & _ & Hwf' & Hnv & Hne & Hf & _);
        [by rewrite Hsel|].
      cbn [final]. unfold n_faces. rewrite Hf. done.
  - revert Hres. unfold add_vert.
    rewrite bind_read. cbv beta. unfold loc. rewrite Hs. discriminate.
Qed.

Lemma update_all_counts (s : Sheet) :
  n_verts (final (update_all s)) = n_verts s ∧
  n_edges (final (update_all s)) = n_edges s ∧
  n_faces (final (update_all s)) = n_faces s.
Proof.
  remember (update_all s) as r eqn:Hr.
  unfold update_all, update_dcoords, update_length, update_centroid,
    update_height, update_normals, update_areas, update_perimeters,
    update_vol in Hr.
  m_step_in Hr.
  all: subst r; sheet_simpl; rewrite ?length_map, ?length_seq.
  all: by repeat split.
Qed.

Lemma length_fold_assign_face (E : EdgeDF) (es : list nat) (f : nat) :
  length (srce (foldl (λ E e, assign_face E e f) E es)) = length (srce E).
Proof.
  revert E. induction es as [|e es IH]; intros E; [reflexivity|].
  cbn [foldl]. by rewrite IH.
Qed.

Lemma face_loc_length (F : FaceDF) (ids : list nat) (row : FaceDF) :
  face_loc F ids = Ok row → length (f_pos row) = length ids.
Proof.
  unfold face_loc. intros H.
  apply res_bind_Ok in H as (p & Hp & H).
  repeat (apply res_bind_Ok in H as (? & _ & H)).
  injection H as <-. cbn. by apply upcast_length in Hp.
Qed.

Lemma edge_loc_length (E : EdgeDF) (ids : list nat) (row : EdgeDF) :
  edge_loc E ids = Ok row → length (srce row) = length ids.
Proof.
  unfold edge_loc. intros H.
  apply res_bind_Ok in H as (p & Hp & H).
  repeat (apply res_bind_Ok in H as (? & _ & H)).
  injection H as <-. cbn. by apply upcast_length in Hp.
Qed.

(** A division that goes through adds two vertices, six edges and one
    face.  It can only go through with a geometry module that binds the
    name [face_proedgected_pos], which is the name the function looks
    up; the module is taken to bind [update_all] to the update of this
    development. *)
Theorem cell_division_adds (s : Sheet) (mother : nat) (geom : module)
    (angle : option R) (rnd : R) (alive : R) :
  wf_sheet s →
  is_alive (face_df s) !! mother = Some alive → alive ≠ 0 →
  geom "update_all" = Some (UpdateMethod update_all) →
  result (cell_division mother geom angle rnd s) = Ok tt →
  n_verts (final (cell_division mother geom angle rnd s)) = S (S (n_verts s)) ∧
  n_edges (final (cell_division mother geom angle rnd s))
  = (n_edges s + 6)%nat ∧
  n_faces (final (cell_division mother geom angle rnd s)) = S (n_faces s).
Proof.
  intros Hwf Hm Hlive Hupd.
  remember (cell_division mother geom angle rnd s) as r eqn:Hr.
  unfold cell_division in Hr.
  rewrite bind_read in Hr. unfold loc in Hr. rewrite Hm in Hr.
  rewrite decide_False in Hr by done.
  m_step_in Hr.
  all: try (subst r; discriminate).
  (* the first vertex *)
  rewrite bind_run in Hr.
  destruct (add_vert _ s) as [[[[vert_a nea] noa]|e] s1 l1] eqn:Ha;
    [|subst r; discriminate].
  match type of Ha with
  | add_vert ?e _ = _ =>
      pose proof (add_vert_ok s e (vert_a, nea, noa) Hwf) as Hok1
  end.
  rewrite Ha in Hok1. cbn [result final] in Hok1.
  destruct (Hok1 eq_refl) as (Hwf1 & Hv1 & He1 & Hf1). clear Hok1.
  (* the second vertex *)
  rewrite bind_run in Hr.
  destruct (add_vert _ s1) as [[[[vert_b neb] nob]|e] s2 l2] eqn:Hb;
    [|subst r; intros; discriminate].
  match type of Hb with
  | add_vert ?e _ = _ =>
      pose proof (add_vert_ok s1 e (vert_b, neb, nob) Hwf1) as Hok2
  end.
  rewrite Hb in Hok2. cbn [result final] in Hok2.
  destruct (Hok2 eq_refl) as (Hwf2 & Hv2 & He2 & Hf2). clear Hok2.
  (* the daughter face and the two edges across the mother *)
  m_step_in Hr.
  all: try (subst r; intros; discriminate).
  rewrite bind_run in Hr.
  match type of Hr with
  | context [reset_topo ?sx] =>
      pose proof (reset_topo_frame sx) as (Fv & Ff & _ & Fs & _);
      destruct (reset_topo sx) as [[[]|e] s3 l3];
      [|subst r; intros; discriminate]
  end.
  cbn [final] in Fv, Ff, Fs.
  rewrite bind_read in Hr. unfold getattr in Hr. rewrite Hupd in Hr.
  match goal with
  | H : face_loc _ _ = Ok _ |- _ => apply face_loc_length in H
  end.
  match goal with
  | H : edge_loc _ _ = Ok _ |- _ => apply edge_loc_length in H
  end.
  match type of Hr with
  | context [update_all ?sx] =>
      pose proof (update_all_counts sx) as (Cv & Ce & Cf);
      destruct (update_all sx) as [ru su lu]
  end.
  subst r. cbn [result final] in *. intros _.
  unfold n_verts, n_edges, n_faces in *. rewrite Cv, Ce, Cf, Fv, Ff, Fs.
  unfold face_append, edge_append, assign_srce, assign_trgt,
    set_srce, set_trgt.
  cbn [vert_df edge_df face_df srce trgt f_pos].
  rewrite length_fold_assign_face.
  cbn [srce].
  rewrite ?length_insert, ?length_app, ?length_insert, ?length_app.
  cbn [length] in *. lia.
Qed.

Lemma cell_division_adds_witness :
  result (cell_division 0 halving (Some 0) 0 pillow) = Ok tt ∧
  n_verts (final (cell_division 0 halving (Some 0) 0 pillow)) = 6%nat ∧
  n_edges (final (cell_division 0 halving (Some 0) 0 pillow)) = 14%nat ∧
  n_faces (final (cell_division 0 halving (Some 0) 0 pillow)) = 3%nat.
Proof.
  assert (Hres : result (cell_division 0 halving (Some 0) 0 pillow) = Ok tt).
  { unfold cell_division, reset_topo.
    rewrite bind_read. cbv beta.
    change (loc (is_alive (face_df pillow)) 0) with (Ok 1 : res R).
    cbv beta iota. rewrite decide_False by lra.
    rewrite bind_read; cbv beta iota.
    rewrite bind_read; cbv beta.
    change (getattr halving "face_proedgected_pos")
      with (Ok (ProjectionMethod (λ _ _ _,
              Ok [(0%nat, mkV (-1) 0 0); (1%nat, mkV 1 0 0);
                  (2%nat, mkV 1 0 0); (3%nat, mkV (-1) 0 0)]))).
    cbv beta iota.
    rewrite bind_read; cbv beta iota.
    rewrite bind_read; cbv beta.
    change (upcast (where1 (face (edge_df pillow)) 0) (srce (edge_df pillow)))
      with (Ok [0; 1; 2; 3]%nat).
    cbv beta iota. rewrite bind_read; cbv beta.
    change (upcast (where1 (face (edge_df pillow)) 0) (trgt (edge_df pillow)))
      with (Ok [1; 2; 3; 0]%nat).
    cbv beta iota. rewrite bind_read; cbv beta.
    change (rot_loc_x _ [0; 1; 2; 3]%nat) with (Ok [-1; 1; 1; -1]).
    cbv beta iota. rewrite bind_read; cbv beta.
    change (rot_loc_x _ [1; 2; 3; 0]%nat) with (Ok [1; 1; -1; -1]).
    cbv beta iota.
    change (where1 (face (edge_df pillow)) 0) with [0; 1; 2; 3]%nat.
    change (zip [0; 1; 2; 3]%nat (zip [-1; 1; 1; -1] [1; 1; -1; -1]))
      with [(0%nat, (-1, 1)); (1%nat, (1, 1)); (2%nat, (1, -1));
            (3%nat, (-1, -1))].
    assert (Hfa : (filter (λ e : nat * (R * R), e.2.1 < 0 ∧ 0 < e.2.2)
                     [(0%nat, (-1, 1)); (1%nat, (1, 1)); (2%nat, (1, -1));
                      (3%nat, (-1, -1))]).*1 = [0%nat]).
    { rewrite !filter_cons, filter_nil. cbn [fst snd].
      repeat first [ rewrite decide_True by (split; lra)
                   | rewrite decide_False by (intros [? ?]; lra) ].
      reflexivity. }
    assert (Hfb : (filter (λ e : nat * (R * R), 0 < e.2.1 ∧ e.2.2 < 0)
                     [(0%nat, (-1, 1)); (1%nat, (1, 1)); (2%nat, (1, -1));
                      (3%nat, (-1, -1))]).*1 = [2%nat]).
    { rewrite !filter_cons, filter_nil. cbn [fst snd].
      repeat first [ rewrite decide_True by (split; lra)
                   | rewrite decide_False by (intros [? ?]; lra) ].
      reflexivity. }
    assert (Hfd : (filter (λ e : nat * (R * R), e.2.1 < 0)
                     [(0%nat, (-1, 1)); (1%nat, (1, 1)); (2%nat, (1, -1));
                      (3%nat, (-1, -1))]).*1 = [0%nat; 3%nat]).
    { rewrite !filter_cons, filter_nil. cbn [fst snd].
      repeat first [ rewrite decide_True by lra
                   | rewrite decide_False by lra ].
      reflexivity. }
    rewrite bind_read; cbv beta. rewrite Hfa. cbn [index0].
    rewrite bind_read; cbv beta. rewrite Hfb. cbn [index0].
    rewrite Hfd.
    reflexivity. }
  split; [exact Hres|].
  exact (cell_division_adds pillow 0 halving (Some 0) 0 1
           (proj1 pillow_valid) eq_refl R1_neq_R0 eq_refl Hres).
Defined.
